(** * Differential selection: a shallow embedding of [dms_tools2.diffsel]

    The two functions of [src/dms_tools2/diffsel.py], [computeMutDiffSel]
    and [mutToSiteDiffSel], are written here as functions on lists of
    rows.  The pandas operations they call ([sort_values], [melt],
    [groupby], [merge], [pivot], ...) are written out on those lists.

    Numbers.  A float is modelled as a rational, or one of the three
    special values of IEEE arithmetic (the two infinities and NaN);
    arithmetic on rationals is exact, so rounding and overflow are left
    out, and so is the sign of zero.  The base-2 logarithm leaves the
    rationals: its result is a real number (or a special value).

    pandas.  The behaviour modelled is the one the doctest of
    [mutToSiteDiffSel] passes on: [DataFrame.assign] evaluates each of its
    callables on the frame it is called on, comparing a frame with a
    scalar lets its text columns through, and iterating over a frame
    yields its column labels. *)

From Stdlib Require Import List String Ascii Bool ZArith QArith Qabs Qminmax.
From Stdlib Require Import Reals Qreals Psatz Permutation Sorted.
Import ListNotations.

Close Scope Q_scope.
Close Scope R_scope.
Open Scope string_scope.
Open Scope list_scope.
Open Scope Z_scope.

(** ** Exceptions *)

Inductive exception :=
| AssertionError (msg : string)
| ValueError (msg : string).

Inductive result (A : Type) :=
| Ok (a : A)
| Raise (e : exception).
Arguments Ok {A} a.
Arguments Raise {A} e.

Definition bind {A B} (c : result A) (k : A -> result B) : result B :=
  match c with
  | Ok a => k a
  | Raise e => Raise e
  end.

Notation "x <- c ;; k" := (bind c (fun x => k))
  (at level 61, c at next level, right associativity).
Notation "c ;;; k" := (bind c (fun _ => k))
  (at level 61, right associativity).

(** [assert b, msg] *)
Definition assert (b : bool) (msg : string) : result unit :=
  if b then Ok tt else Raise (AssertionError msg).

(** Python's [all] on a list of booleans. *)
Definition all (l : list bool) : bool := forallb (fun b => b) l.

(** ** Floats *)

Inductive float :=
| Fin (q : Q)
| PInf
| NInf
| NaN.

Definition Qltb (a b : Q) : bool := negb (Qle_bool b a).

(** [astype('float')] on an integer. *)
Definition of_int (z : Z) : float := Fin (inject_Z z).

Definition fopp (x : float) : float :=
  match x with
  | Fin q => Fin (- q)
  | PInf => NInf
  | NInf => PInf
  | NaN => NaN
  end.

Definition fabs (x : float) : float :=
  match x with
  | Fin q => Fin (Qabs q)
  | PInf | NInf => PInf
  | NaN => NaN
  end.

Definition fadd (x y : float) : float :=
  match x, y with
  | NaN, _ | _, NaN => NaN
  | Fin a, Fin b => Fin (a + b)
  | PInf, NInf | NInf, PInf => NaN
  | PInf, _ | _, PInf => PInf
  | NInf, _ | _, NInf => NInf
  end.

Definition fsub (x y : float) : float := fadd x (fopp y).

(** An infinity (the positive one when [positive]) times, or a number
    over zero: the sign of [q] decides, and a zero gives NaN. *)
Definition scale_inf (positive : bool) (q : Q) : float :=
  if Qltb 0 q then (if positive then PInf else NInf)
  else if Qltb q 0 then (if positive then NInf else PInf)
  else NaN.

Definition fmul (x y : float) : float :=
  match x, y with
  | NaN, _ | _, NaN => NaN
  | Fin a, Fin b => Fin (a * b)
  | Fin a, PInf | PInf, Fin a => scale_inf true a
  | Fin a, NInf | NInf, Fin a => scale_inf false a
  | PInf, PInf | NInf, NInf => PInf
  | PInf, NInf | NInf, PInf => NInf
  end.

(** Division never raises (numpy): a number over zero is an infinity,
    zero over zero is NaN. *)
Definition fdiv (x y : float) : float :=
  match x, y with
  | NaN, _ | _, NaN => NaN
  | Fin a, Fin b => if Qeq_bool b 0 then scale_inf true a else Fin (a / b)
  | Fin _, PInf | Fin _, NInf => Fin 0
  | PInf, Fin b => if Qltb b 0 then NInf else PInf
  | NInf, Fin b => if Qltb b 0 then PInf else NInf
  | PInf, PInf | PInf, NInf | NInf, PInf | NInf, NInf => NaN
  end.

(** [numpy.maximum]: NaN when either argument is. *)
Definition fmaximum (x y : float) : float :=
  match x, y with
  | NaN, _ | _, NaN => NaN
  | PInf, _ | _, PInf => PInf
  | NInf, z | z, NInf => z
  | Fin a, Fin b => Fin (if Qle_bool a b then b else a)
  end.

Definition fminimum (x y : float) : float :=
  match x, y with
  | NaN, _ | _, NaN => NaN
  | NInf, _ | _, NInf => NInf
  | PInf, z | z, PInf => z
  | Fin a, Fin b => Fin (if Qle_bool a b then a else b)
  end.

(** [x <= y]: false as soon as one side is NaN. *)
Definition fle (x y : float) : bool :=
  match x, y with
  | NaN, _ | _, NaN => false
  | NInf, _ | _, PInf => true
  | Fin a, Fin b => Qle_bool a b
  | _, _ => false
  end.

Definition fge (x y : float) : bool := fle y x.

(** [x == y] on floats: NaN equals nothing. *)
Definition feqb (x y : float) : bool :=
  match x, y with
  | Fin a, Fin b => Qeq_bool a b
  | PInf, PInf | NInf, NInf => true
  | _, _ => false
  end.

Definition isnan (x : float) : bool :=
  match x with NaN => true | _ => false end.

(** The same number: rationals up to [==], special values as they are. *)
Definition feq (x y : float) : Prop :=
  match x, y with
  | Fin a, Fin b => (a == b)%Q
  | PInf, PInf | NInf, NInf | NaN, NaN => True
  | _, _ => False
  end.

(** [Series.sum] and the sums of [groupby]: NaN is skipped, and the sum of
    no value is 0. *)
Definition series_sum (l : list float) : float :=
  fold_right (fun x acc => if isnan x then acc else fadd x acc) (Fin 0) l.

(** [max(axis=1)] and [min(axis=1)]: NaN is skipped; NaN when nothing is
    left. *)
Definition series_max (l : list float) : float :=
  match filter (fun x => negb (isnan x)) l with
  | [] => NaN
  | x :: l' => fold_left fmaximum l' x
  end.

Definition series_min (l : list float) : float :=
  match filter (fun x => negb (isnan x)) l with
  | [] => NaN
  | x :: l' => fold_left fminimum l' x
  end.

(** *** The result of a logarithm *)

Inductive xreal :=
| RFin (r : R)
| RPInf
| RNInf
| RNaN.

Definition log2 (x : R) : R := (ln x / ln 2)%R.

(** [numpy.log2]: minus infinity at zero and NaN below, without raising. *)
Definition xlog2 (x : float) : xreal :=
  match x with
  | Fin q => if Qltb 0 q then RFin (log2 (Q2R q))
             else if Qeq_bool q 0 then RNInf else RNaN
  | PInf => RPInf
  | NInf => RNaN
  | NaN => RNaN
  end.

Definition xopp (x : xreal) : xreal :=
  match x with
  | RFin r => RFin (- r)%R
  | RPInf => RNInf
  | RNInf => RPInf
  | RNaN => RNaN
  end.

(** ** Sorting and grouping *)

Section Sorting.
Context {A : Type} (leb : A -> A -> bool).

Fixpoint insert (x : A) (l : list A) : list A :=
  match l with
  | [] => [x]
  | y :: l' => if leb x y then x :: l else y :: insert x l'
  end.

(** [sort_values]; rows with equal keys keep their order (with unique
    keys, as the tables have them, every sort agrees with this one). *)
Fixpoint sort_values (l : list A) : list A :=
  match l with
  | [] => []
  | x :: l' => insert x (sort_values l')
  end.

End Sorting.

(** The distinct values of a list, first occurrences kept. *)
Fixpoint unique {A} (eqb : A -> A -> bool) (l : list A) : list A :=
  match l with
  | [] => []
  | x :: l' => x :: filter (fun y => negb (eqb x y)) (unique eqb l')
  end.

Definition mem (s : string) (l : list string) : bool :=
  existsb (String.eqb s) l.

(** [set(l1) == set(l2)] *)
Definition set_eqb (l1 l2 : list string) : bool :=
  forallb (fun s => mem s l2) l1 && forallb (fun s => mem s l1) l2.

(** ** Series and their comparison *)

(** A column of a frame: the values with their index labels. *)
Definition Series (A : Type) := list (Z * A).

Fixpoint list_eqb {A} (eqb : A -> A -> bool) (l1 l2 : list A) : bool :=
  match l1, l2 with
  | [], [] => true
  | x :: l1', y :: l2' => eqb x y && list_eqb eqb l1' l2'
  | _, _ => false
  end.

(** [s1 == s2]: pandas compares element by element, and refuses two series
    whose indexes are not the same labels in the same order. *)
Definition series_eq {A} (eqb : A -> A -> bool) (s1 s2 : Series A)
  : result (list bool) :=
  if list_eqb Z.eqb (map fst s1) (map fst s2)
  then Ok (map (fun p => eqb (snd (fst p)) (snd (snd p))) (combine s1 s2))
  else Raise (ValueError "Can only compare identically-labeled Series objects").

(** The labels [0 .. n-1] of a frame after [reset_index(drop=True)]. *)
Definition range_index {A} (l : list A) : Series A :=
  combine (map Z.of_nat (seq 0 (List.length l))) l.

(** ** Count tables *)

(** A row of a count table: its index label, its site, its wildtype, and
    the count under each character column. *)
Record CountRow := mkCountRow {
  cr_label : Z;
  cr_site : Z;
  cr_wildtype : string;
  cr_count : string -> Z
}.

(** A count table: its column labels and its rows. *)
Record CountTable := mkCountTable {
  columns : list string;
  table_rows : list CountRow
}.

Definition site_leb (r1 r2 : CountRow) : bool := cr_site r1 <=? cr_site r2.

(** [df.sort_values('site')] *)
Definition sort_by_site (df : CountTable) : CountTable :=
  mkCountTable (columns df) (sort_values site_leb (table_rows df)).

Definition site_column (df : CountTable) : Series Z :=
  map (fun r => (cr_label r, cr_site r)) (table_rows df).

Definition wildtype_column (df : CountTable) : Series string :=
  map (fun r => (cr_label r, cr_wildtype r)) (table_rows df).

(** A row of a melted table, with the per-site total [N]. *)
Record MeltRow := mkMeltRow {
  mr_site : Z;
  mr_wildtype : string;
  mr_mutation : string;
  mr_n : Z;
  mr_N : Z
}.

Definition is_id_var (c : string) : bool :=
  (c =? "site")%string || (c =? "wildtype")%string.

(** The columns melted into rows: all but the identifiers. *)
Definition value_vars (df : CountTable) : list string :=
  filter (fun c => negb (is_id_var c)) (columns df).

(** [df.melt(id_vars=['site', 'wildtype'], var_name='mutation',
    value_name='n')]: column after column, the rows in their order. *)
Definition melt (df : CountTable) : list MeltRow :=
  flat_map (fun c =>
      map (fun r => mkMeltRow (cr_site r) (cr_wildtype r) c (cr_count r c) 0)
          (table_rows df))
    (value_vars df).

Definition site_mutation_leb (r1 r2 : MeltRow) : bool :=
  (mr_site r1 <? mr_site r2)
  || ((mr_site r1 =? mr_site r2) && (mr_mutation r1 <=? mr_mutation r2)%string).

Definition Zsum (l : list Z) : Z := fold_right Z.add 0 l.

(** [m_name['N'] = m_name.groupby('site').transform('sum')['n']] *)
Definition with_N (l : list MeltRow) : list MeltRow :=
  map (fun r =>
      mkMeltRow (mr_site r) (mr_wildtype r) (mr_mutation r) (mr_n r)
        (Zsum (map mr_n (filter (fun r' => mr_site r' =? mr_site r) l))))
    l.

(** The melted table of one sample (lines 65-70). *)
Definition melted (df : CountTable) : list MeltRow :=
  with_N (sort_values site_mutation_leb (melt df)).

(** A row of the joined table [m]. *)
Record Row := mkRow {
  site : Z;
  wildtype : string;
  mutation : string;
  nsel : float;
  Nsel : float;
  nmock : float;
  Nmock : float
}.

(** The columns [nerr], [Nerr] of [m], which only exist with an
    error-control table; they are kept beside the rows they belong to. *)
Definition ErrColumns := list (float * float).

(** [all([all(m[c] == m_name[c]) for c in ['site', 'wildtype',
    'mutation']])] between [m] (taken from the first sample) and the
    melted table of a sample. *)
Definition same_keys (m m_name : list MeltRow) : result bool :=
  b1 <- series_eq Z.eqb (range_index (map mr_site m))
                        (range_index (map mr_site m_name)) ;;
  b2 <- series_eq String.eqb (range_index (map mr_wildtype m))
                             (range_index (map mr_wildtype m_name)) ;;
  b3 <- series_eq String.eqb (range_index (map mr_mutation m))
                             (range_index (map mr_mutation m_name)) ;;
  Ok (all [all b1; all b2; all b3]).

(** The loop of lines 61-76: [m] gets its three key columns from [sel],
    and the columns [n], [N] of every sample, as floats. *)
Definition make_melted (sel mock : CountTable) (err : option CountTable)
  : result (list Row * option ErrColumns) :=
  let m_sel := melted sel in
  ok <- same_keys m_sel m_sel ;;
  assert ok "" ;;;
  let m_mock := melted mock in
  ok <- same_keys m_sel m_mock ;;
  assert ok "" ;;;
  let m :=
    map (fun p => mkRow (mr_site (fst p)) (mr_wildtype (fst p))
                        (mr_mutation (fst p))
                        (of_int (mr_n (fst p))) (of_int (mr_N (fst p)))
                        (of_int (mr_n (snd p))) (of_int (mr_N (snd p))))
        (combine m_sel m_mock) in
  match err with
  | None => Ok (m, None)
  | Some err =>
      let m_err := melted err in
      ok <- same_keys m_sel m_err ;;
      assert ok "" ;;;
      Ok (m, Some (map (fun r => (of_int (mr_n r), of_int (mr_N r))) m_err))
  end.

(** ** Error correction (lines 78-93) *)

(** A frame of booleans, as a comparison of a frame with a scalar gives:
    its column labels and its rows. *)
Record BoolFrame := mkBoolFrame {
  bf_columns : list string;
  bf_rows : list (list bool)
}.

Definition fgt0 (x : float) : bool := negb (fle x (Fin 0)) && negb (isnan x).

(** [m[wtmask] > 0]: the rows of [m] where the mutation is the wildtype,
    every column compared with 0; the three text columns pass as [True]. *)
Definition wildtype_rows_gt_0 (m : list (Row * (float * float))) : BoolFrame :=
  mkBoolFrame
    ["site"; "wildtype"; "mutation"; "nsel"; "Nsel"; "nmock"; "Nmock";
     "nerr"; "Nerr"; "epsilon"]
    (map (fun x =>
        let r := fst x in
        let nerr := fst (snd x) in
        let Nerr := snd (snd x) in
        [0 <? site r; true; true; fgt0 (nsel r); fgt0 (Nsel r);
         fgt0 (nmock r); fgt0 (Nmock r); fgt0 nerr; fgt0 Nerr;
         fgt0 (fdiv nerr Nerr)])
      (filter (fun x => (mutation (fst x) =? wildtype (fst x))%string) m)).

(** The truth value of a string: every string but the empty one. *)
Definition truthy (s : string) : bool := negb (s =? "")%string.

(** [all(frame)]: iterating over a frame yields its column labels. *)
Definition all_frame (f : BoolFrame) : bool := forallb truthy (bf_columns f).

(** Lines 87-91: the corrected count of one row, from its count [n], its
    total [N] and its [epsilon]. *)
Definition corrected (wtmask : bool) (n N epsilon : float) : float :=
  let wtval := if wtmask then fdiv n epsilon else Fin 0 in
  if negb wtmask
  then fmaximum (Fin 0) (fmul N (fsub (fdiv n N) epsilon))
  else wtval.

Definition is_wildtype (r : Row) : bool := (mutation r =? wildtype r)%string.

(** [m.groupby('site').transform('sum')[col]] *)
Definition site_sum (col : Row -> float) (m : list Row) (r : Row) : float :=
  series_sum (map col (filter (fun r' => site r' =? site r) m)).

(** The two samples the correction loops over. *)
Inductive sample := sel_sample | mock_sample.

(** The columns [ncol] and [Ncol] of a sample. *)
Definition ncol (name : sample) (r : Row) : float :=
  match name with
  | sel_sample => nsel r
  | mock_sample => nmock r
  end.

Definition Ncol (name : sample) (r : Row) : float :=
  match name with
  | sel_sample => Nsel r
  | mock_sample => Nmock r
  end.

Definition set_ncol (name : sample) (v : float) (r : Row) : Row :=
  match name with
  | sel_sample =>
      mkRow (site r) (wildtype r) (mutation r) v (Nsel r) (nmock r) (Nmock r)
  | mock_sample =>
      mkRow (site r) (wildtype r) (mutation r) (nsel r) (Nsel r) v (Nmock r)
  end.

Definition set_Ncol (name : sample) (v : float) (r : Row) : Row :=
  match name with
  | sel_sample =>
      mkRow (site r) (wildtype r) (mutation r) (nsel r) v (nmock r) (Nmock r)
  | mock_sample =>
      mkRow (site r) (wildtype r) (mutation r) (nsel r) (Nsel r) (nmock r) v
  end.

(** The body of [for name in ['sel', 'mock']] (lines 84-92): the counts of
    the sample are corrected, then its totals are summed again. *)
Definition correct_sample (name : sample) (m : list (Row * float))
  : list (Row * float) :=
  let m1 :=
    map (fun x =>
        let r := fst x in
        (set_ncol name
           (corrected (is_wildtype r) (ncol name r) (Ncol name r) (snd x)) r,
         snd x)) m in
  map (fun x =>
      (set_Ncol name (site_sum (ncol name) (map fst m1) (fst x)) (fst x),
       snd x)) m1.

(** The block under [if err is not None]; the columns [nerr], [Nerr],
    [epsilon] and [index] stay in the frame and are not read again. *)
Definition error_correction (m : list Row) (e : ErrColumns) : result (list Row) :=
  let epsilon := map (fun x => fdiv (fst x) (snd x)) e in
  assert (all_frame (wildtype_rows_gt_0 (combine m e)))
         "err counts of 0 for wildtype" ;;;
  Ok (map fst
        (fold_left (fun m name => correct_sample name m)
                   [sel_sample; mock_sample] (combine m epsilon))).

(** ** Translation to amino acids (lines 95-103) *)

(** [Series.replace] with a dict: a value that is a key is replaced. *)
Definition replace (d : list (string * string)) (s : string) : string :=
  match find (fun kv => (fst kv =? s)%string) d with
  | Some kv => snd kv
  | None => s
  end.

Definition lex (c1 c2 : comparison) : comparison :=
  match c1 with
  | Eq => c2
  | _ => c1
  end.

(** The order of floats that are not NaN. *)
Definition float_compare (x y : float) : comparison :=
  match x, y with
  | Fin a, Fin b => (a ?= b)%Q
  | NInf, NInf | PInf, PInf => Eq
  | NInf, _ | _, PInf => Lt
  | _, _ => Gt
  end.

(** The key of [groupby(['site', 'wildtype', 'mutation', 'Nsel',
    'Nmock'])]. *)
Definition group_compare (r1 r2 : Row) : comparison :=
  lex (site r1 ?= site r2)
   (lex (wildtype r1 ?= wildtype r2)%string
    (lex (mutation r1 ?= mutation r2)%string
     (lex (float_compare (Nsel r1) (Nsel r2))
          (float_compare (Nmock r1) (Nmock r2))))).

Definition same_group (r1 r2 : Row) : bool :=
  match group_compare r1 r2 with Eq => true | _ => false end.

Definition group_leb (r1 r2 : Row) : bool :=
  match group_compare r1 r2 with Gt => false | _ => true end.

(** [groupby(...).sum().reset_index()]: rows with NaN in a key are left
    out; one row per distinct key, in the order of the keys, with the sums
    of [nsel] and [nmock] over the rows of that key. *)
Definition groupby_sum (m : list Row) : list Row :=
  let rows :=
    filter (fun r => negb (isnan (Nsel r)) && negb (isnan (Nmock r))) m in
  map (fun k =>
      let group := filter (same_group k) rows in
      mkRow (site k) (wildtype k) (mutation k)
            (series_sum (map nsel group)) (Nsel k)
            (series_sum (map nmock group)) (Nmock k))
    (sort_values group_leb (unique same_group rows)).

(** [m.replace({'wildtype': CODON_TO_AA, 'mutation': CODON_TO_AA})] on a
    row. *)
Definition translate_row (CODON_TO_AA : list (string * string)) (r : Row) : Row :=
  mkRow (site r) (replace CODON_TO_AA (wildtype r))
        (replace CODON_TO_AA (mutation r))
        (nsel r) (Nsel r) (nmock r) (Nmock r).

Definition translate (CODON_TO_AA : list (string * string)) (m : list Row)
  : list Row :=
  groupby_sum (map (translate_row CODON_TO_AA) m).

(** ** Pseudocounts, wildtype counts, enrichment (lines 105-124) *)

(** A row with its columns [nselP] and [nmockP]. *)
Definition PRow : Type := Row * (float * float).

Definition add_pseudocounts (pseudocount : Q) (r : Row) : PRow :=
  (r,
   (fadd (nsel r)
      (fmul (Fin pseudocount) (fmaximum (Fin 1) (fdiv (Nsel r) (Nmock r)))),
    fadd (nmock r)
      (fmul (Fin pseudocount) (fmaximum (Fin 1) (fdiv (Nmock r) (Nsel r)))))).

(** [m.merge(m.query('mutation==wildtype')[['site', 'nselP', 'nmockP']],
    on='site', suffixes=('', 'wt'))]: an inner join, in the order of [m];
    the second pair holds [nselPwt] and [nmockPwt]. *)
Definition merge_wildtype (m : list PRow) : list (PRow * (float * float)) :=
  let wt := filter (fun w => is_wildtype (fst w)) m in
  flat_map (fun x =>
      map (fun w => (x, snd w))
          (filter (fun w => site (fst w) =? site (fst x)) wt))
    m.

Definition not_masked (mincount : Q) (r : Row) : bool :=
  negb (is_wildtype r)
  && (fge (nsel r) (Fin mincount) || fge (nmock r) (Fin mincount)).

Definition enrichment (mincount : Q) (x : PRow * (float * float)) : float :=
  let r := fst (fst x) in
  let nselP := fst (snd (fst x)) in
  let nmockP := snd (snd (fst x)) in
  let nselPwt := fst (snd x) in
  let nmockPwt := snd (snd x) in
  if not_masked mincount r
  then fdiv (fdiv nselP nselPwt) (fdiv nmockP nmockPwt)
  else NaN.

(** A row of the table returned by [computeMutDiffSel]. *)
Record OutRow := mkOutRow {
  o_site : Z;
  o_wildtype : string;
  o_mutation : string;
  mutdiffsel : xreal
}.

(** The enrichment column, before the logarithm. *)
Definition enrichments (pseudocount mincount : Q) (m : list Row)
  : list (Row * float) :=
  map (fun x => (fst (fst x), enrichment mincount x))
      (merge_wildtype (map (add_pseudocounts pseudocount) m)).

Definition log2_rows (l : list (Row * float)) : list OutRow :=
  map (fun x => mkOutRow (site (fst x)) (wildtype (fst x)) (mutation (fst x))
                         (xlog2 (snd x))) l.

(** ** [computeMutDiffSel] *)

Section ComputeMutDiffSel.

(** [CODONS] and [CODON_TO_AA] are imported from the package's
    [__init__.py]: the list of codons and the dict from codon to amino
    acid. *)
Variable CODONS : list string.
Variable CODON_TO_AA : list (string * string).

(** Lines 43-58: the checks on the arguments; the tables come back sorted
    by site. *)
Definition check_tables (sel mock : CountTable) (countcharacters : list string)
    (pseudocount : Q) (err : option CountTable)
  : result (CountTable * CountTable * option CountTable) :=
  assert (Qltb 0 pseudocount) "" ;;;
  let expectedcols := "site" :: "wildtype" :: countcharacters in
  assert (set_eqb (columns sel) expectedcols) "Invalid columns for sel" ;;;
  assert (set_eqb (columns mock) expectedcols) "Invalid columns for sel" ;;;
  let sel := sort_by_site sel in
  let mock := sort_by_site mock in
  b <- series_eq Z.eqb (site_column sel) (site_column mock) ;;
  assert (all b) "Inconsistent sites" ;;;
  b <- series_eq String.eqb (wildtype_column sel) (wildtype_column mock) ;;
  assert (all b) "Inconsistent wildtype" ;;;
  match err with
  | None => Ok (sel, mock, None)
  | Some err =>
      assert (set_eqb (columns err) expectedcols) "Invalid columns for err" ;;;
      let err := sort_by_site err in
      b <- series_eq Z.eqb (site_column err) (site_column sel) ;;
      assert (all b) "Inconsistent sites" ;;;
      b <- series_eq String.eqb (wildtype_column err) (wildtype_column sel) ;;
      assert (all b) "Inconsistent sites" ;;;
      Ok (sel, mock, Some err)
  end.

(** Lines 60-103: the table [m] as the pseudocounts find it. *)
Definition prepare (sel mock : CountTable) (countcharacters : list string)
    (translate_to_aa : bool) (err : option CountTable) : result (list Row) :=
  me <- make_melted sel mock err ;;
  m <- match snd me with
       | Some e => error_correction (fst me) e
       | None => Ok (fst me)
       end ;;
  if translate_to_aa
  then assert (set_eqb countcharacters CODONS)
              "translate_to_aa specified, but not using codons" ;;;
       Ok (translate CODON_TO_AA m)
  else Ok m.

Definition computeMutDiffSel (sel mock : CountTable)
    (countcharacters : list string) (pseudocount : Q) (translate_to_aa : bool)
    (err : option CountTable) (mincount : Q) : result (list OutRow) :=
  checked <- check_tables sel mock countcharacters pseudocount err ;;
  let sel := fst (fst checked) in
  let mock := snd (fst checked) in
  let err := snd checked in
  m <- prepare sel mock countcharacters translate_to_aa err ;;
  Ok (log2_rows (enrichments pseudocount mincount m)).

End ComputeMutDiffSel.

(** ** [mutToSiteDiffSel] *)

(** A row of the table given to [mutToSiteDiffSel]. *)
Record DiffSelRow := mkDiffSelRow {
  d_site : Z;
  d_wildtype : string;
  d_mutation : string;
  d_mutdiffsel : float
}.

(** A row of the table it returns. *)
Record SiteRow := mkSiteRow {
  s_site : Z;
  abs_diffsel : float;
  positive_diffsel : float;
  negative_diffsel : float;
  max_diffsel : float;
  min_diffsel : float
}.

Definition same_entry (r1 r2 : DiffSelRow) : bool :=
  (d_site r1 =? d_site r2) && (d_mutation r1 =? d_mutation r2)%string.

Fixpoint has_duplicates (l : list DiffSelRow) : bool :=
  match l with
  | [] => false
  | r :: l' => existsb (same_entry r) l' || has_duplicates l'
  end.

(** The cell of the pivoted table at a site and a mutation: NaN when no
    row has them. *)
Definition cell (df : list DiffSelRow) (s : Z) (c : string) : float :=
  match find (fun r => (d_site r =? s) && (d_mutation r =? c)%string) df with
  | Some r => d_mutdiffsel r
  | None => NaN
  end.

(** [pivot(index='site', columns='mutation', values='mutdiffsel')]: one row
    per site and one column per mutation, both in ascending order; two
    rows for one cell are refused. *)
Definition pivot (df : list DiffSelRow) : result (list (Z * list float)) :=
  if has_duplicates df
  then Raise (ValueError "Index contains duplicate entries, cannot reshape")
  else
    let sites := sort_values Z.leb (unique Z.eqb (map d_site df)) in
    let mutations :=
      sort_values String.leb (unique String.eqb (map d_mutation df)) in
    Ok (map (fun s => (s, map (cell df s) mutations)) sites).

Definition fillna (v : float) (x : float) : float :=
  if isnan x then v else x.

(** [x[cond]]: NaN where the condition fails. *)
Definition masked (cond : float -> bool) (x : float) : float :=
  if cond x then x else NaN.

Definition mutToSiteDiffSel (mutdiffsel : list DiffSelRow)
  : result (list SiteRow) :=
  pivoted <- pivot mutdiffsel ;;
  Ok (map (fun row =>
        let x := map (fillna (Fin 0)) (snd row) in
        mkSiteRow (fst row)
          (series_sum (map fabs x))
          (series_sum (map (masked (fun v => fge v (Fin 0))) x))
          (series_sum (map (masked (fun v => fle v (Fin 0))) x))
          (series_max x)
          (series_min x))
      pivoted).

(** ** Well-formed count tables *)

(** No value occurs twice. *)
Fixpoint distinct {A} (eqb : A -> A -> bool) (l : list A) : bool :=
  match l with
  | [] => true
  | x :: l' => negb (existsb (eqb x) l') && distinct eqb l'
  end.

(** The total count of a row over the character columns. *)
Definition site_total (df : CountTable) (r : CountRow) : Z :=
  Zsum (map (cr_count r) (value_vars df)).

(** A count table as the data model has it: the expected columns, each
    once; one row per site; counts that are not negative. *)
Definition valid_table (countcharacters : list string) (df : CountTable) : bool :=
  set_eqb (columns df) ("site" :: "wildtype" :: countcharacters)
  && distinct String.eqb (columns df)
  && distinct Z.eqb (map cr_site (table_rows df))
  && forallb (fun r => forallb (fun c => 0 <=? cr_count r c) (value_vars df))
             (table_rows df).

Definition same_row_keys (r1 r2 : CountRow) : bool :=
  (cr_label r1 =? cr_label r2) && (cr_site r1 =? cr_site r2)
  && (cr_wildtype r1 =? cr_wildtype r2)%string.

(** Two tables are aligned when, sorted by site, they have the same index
    labels, the same sites and the same wildtypes, row by row. *)
Definition aligned (df1 df2 : CountTable) : bool :=
  list_eqb same_row_keys (table_rows (sort_by_site df1))
                         (table_rows (sort_by_site df2)).

(** Every site has a positive total count. *)
Definition positive_totals (df : CountTable) : bool :=
  forallb (fun r => 0 <? site_total df r) (table_rows df).

(** The row of a site. *)
Definition row_of_site (df : CountTable) (s : Z) : option CountRow :=
  find (fun r => cr_site r =? s) (table_rows df).

(** The count of a mutation at a site: the sum over the columns that
    [tr] sends to the mutation (one column when [tr] changes nothing). *)
Definition mutation_count (tr : string -> string) (df : CountTable)
    (s : Z) (a : string) : Z :=
  match row_of_site df s with
  | Some r =>
      Zsum (map (cr_count r) (filter (fun c => (tr c =? a)%string) (value_vars df)))
  | None => 0
  end.

(** The total count at a site. *)
Definition total_count (df : CountTable) (s : Z) : Z :=
  match row_of_site df s with
  | Some r => site_total df r
  | None => 0
  end.

(** * Definitions for the statements and their proofs *)

Definition sorted_rows (df : CountTable) : list CountRow :=
  sort_values site_leb (table_rows df).

Definition sorted_vars (df : CountTable) : list string :=
  sort_values String.leb (value_vars df).

Definition melt_cell (df : CountTable) (r : CountRow) (c : string) : MeltRow :=
  mkMeltRow (cr_site r) (cr_wildtype r) c (cr_count r c) (site_total df r).

(** Site after site in ascending order, and within a site the characters
    in ascending order. *)
Definition melted_table (df : CountTable) : list MeltRow :=
  flat_map (fun r => map (melt_cell df r) (sorted_vars df)) (sorted_rows df).

Record table_ok (countcharacters : list string) (df : CountTable) : Prop := {
  ok_columns : set_eqb (columns df) ("site" :: "wildtype" :: countcharacters) = true;
  ok_columns_unique : NoDup (columns df);
  ok_sites_unique : NoDup (map cr_site (table_rows df));
  ok_counts : forall r c, In r (table_rows df) -> In c (value_vars df) ->
                          0 <= cr_count r c
}.

Definition joined_cell (sel mock : CountTable) (p : CountRow * CountRow)
    (c : string) : Row :=
  mkRow (cr_site (fst p)) (cr_wildtype (fst p)) c
        (of_int (cr_count (fst p) c)) (of_int (site_total sel (fst p)))
        (of_int (cr_count (snd p) c)) (of_int (site_total mock (snd p))).

(** The table [m] of two aligned samples: site after site, and within a
    site character after character, the counts and totals of both. *)
Definition joined_table (sel mock : CountTable) : list Row :=
  flat_map (fun p => map (joined_cell sel mock p) (sorted_vars sel))
           (combine (sorted_rows sel) (sorted_rows mock)).

(** The zero-filled values of the pivoted table at a site. *)
Definition site_values (df : list DiffSelRow) (s : Z) : list float :=
  map (fillna (Fin 0))
      (map (cell df s)
           (sort_values String.leb (unique String.eqb (map d_mutation df)))).

(** How the three sums of a row stand to each other. *)
Definition sums_agree (a p n : float) : Prop :=
  match a, p, n with
  | Fin a, Fin p, Fin n => (a == p - n)%Q
  | PInf, PInf, Fin _ | PInf, PInf, NInf | PInf, Fin _, NInf => True
  | _, _, _ => False
  end.

Definition entry (r : DiffSelRow) : Z * string := (d_site r, d_mutation r).

(** A count: a rational that is not negative. *)
Definition nonneg (x : float) : Prop := exists q, x = Fin q /\ (0 <= q)%Q.

Definition positive (x : float) : Prop := exists q, x = Fin q /\ (0 < q)%Q.

(** [max(1, a / b)] on rationals. *)
Definition depth_ratio (a b : Q) : Q :=
  if Qle_bool 1 (a / b) then (a / b)%Q else 1%Q.

(** The term added to a count: [pseudocount * numpy.maximum(1, N1 / N2)]. *)
Definition pseudo_term (p : Q) (N1 N2 : float) : float :=
  fmul (Fin p) (fmaximum (Fin 1) (fdiv N1 N2)).

(** Not a number, plus infinity, or a positive rational. *)
Definition pos_or_special (x : float) : Prop :=
  x = NaN \/ x = PInf \/ positive x.

(** The enrichment of a row [r] against the wildtype row [w] of its site. *)
Definition row_enrichment (p mincount : Q) (r w : Row) : float :=
  enrichment mincount (add_pseudocounts p r, snd (add_pseudocounts p w)).

(** What the two text columns go through: the translation to amino acids
    when it is asked for. *)
Definition translation (CODON_TO_AA : list (string * string))
    (translate_to_aa : bool) : string -> string :=
  if translate_to_aa then replace CODON_TO_AA else fun c => c.

Definition prepared (CODON_TO_AA : list (string * string))
    (translate_to_aa : bool) (sel mock : CountTable) : list Row :=
  if translate_to_aa then translate CODON_TO_AA (joined_table sel mock)
  else joined_table sel mock.

(** What a row of the table holds, in terms of the rows [rs] and [rm] of
    its site in the two count tables. *)
Record row_counts (sel mock : CountTable) (tr : string -> string) (r : Row)
    (rs rm : CountRow) : Prop := {
  rc_sel_in : row_of_site sel (site r) = Some rs;
  rc_mock_in : row_of_site mock (site r) = Some rm;
  rc_wildtype : wildtype r = tr (cr_wildtype rs);
  rc_nsel : exists q, nsel r = Fin q
      /\ (q == inject_Z (mutation_count tr sel (site r) (mutation r)))%Q;
  rc_nmock : exists q, nmock r = Fin q
      /\ (q == inject_Z (mutation_count tr mock (site r) (mutation r)))%Q;
  rc_Nsel : Nsel r = of_int (total_count sel (site r));
  rc_Nmock : Nmock r = of_int (total_count mock (site r))
}.

(** A row with the columns of the two samples exchanged. *)
Definition swap_samples (r : Row) : Row :=
  mkRow (site r) (wildtype r) (mutation r) (nmock r) (Nmock r) (nsel r) (Nsel r).

(** Rows of the same site have the same totals. *)
Definition totals_by_site (m : list Row) : Prop :=
  forall x y, In x m -> In y m -> site x = site y ->
              Nsel x = Nsel y /\ Nmock x = Nmock y.

Definition swap_pseudo (x : PRow) : PRow :=
  (swap_samples (fst x), (snd (snd x), fst (snd x))).

Definition swap_merged (y : PRow * (float * float)) : PRow * (float * float) :=
  (swap_pseudo (fst y), (snd (snd y), fst (snd y))).

(** A row of the result with its value negated. *)
Definition negate (o : OutRow) : OutRow :=
  mkOutRow (o_site o) (o_wildtype o) (o_mutation o) (xopp (mutdiffsel o)).

(** The counts of a table: rationals that are not negative, the totals
    the same along a site. *)
Definition counts_nonneg (m : list Row) : Prop :=
  forall r, In r m ->
    nonneg (nsel r) /\ nonneg (nmock r) /\ nonneg (Nsel r) /\ nonneg (Nmock r).

(** The enrichment on real numbers: counts [qs], [qm] of the mutation,
    [vs], [vm] of the wildtype, and the factors [a], [b] of the
    pseudocount [p] in the two samples. *)
Definition Renrichment (p qs qm vs vm a b : R) : R :=
  ((qs + p * a) / (vs + p * a)) / ((qm + p * b) / (vm + p * b)).

Definition enrichment_value (p qs qm vs vm Ns Nm : Q) : Q :=
  ((qs + p * depth_ratio Ns Nm) / (vs + p * depth_ratio Ns Nm))
  / ((qm + p * depth_ratio Nm Ns) / (vm + p * depth_ratio Nm Ns)).

Definition Qsum (l : list Q) : Q := fold_right Qplus 0%Q l.

Definition finite (x : float) : Prop := exists q, x = Fin q.

Definition qval (x : float) : Q :=
  match x with
  | Fin q => q
  | _ => 0%Q
  end.

Definition finite_counts (m : list Row) : Prop :=
  forall r, In r m ->
    finite (nsel r) /\ finite (nmock r) /\ finite (Nsel r) /\ finite (Nmock r).

(** The corrected count in the words of the specification: the count over
    [epsilon] for the wildtype, and [max(0, N * (n / N - epsilon))] for
    the other characters. *)
Definition corrected_count_spec (is_wt : bool) (n N epsilon : float) : float :=
  if is_wt then fdiv n epsilon
  else fmaximum (Fin 0) (fmul N (fsub (fdiv n N) epsilon)).

(** A table laid out block after block: the rows of [t], one per
    character, each with its [epsilon]. *)
Definition blocks {K} (ts : list K) (cs : list string)
    (R : K -> string -> Row) (eps : K -> string -> float)
  : list (Row * float) :=
  flat_map (fun t => map (fun c => (R t c, eps t c)) cs) ts.

Definition corrected_cell {K} (name : sample) (R : K -> string -> Row)
    (eps : K -> string -> float) (t : K) (c : string) : float :=
  corrected (is_wildtype (R t c)) (ncol name (R t c)) (Ncol name (R t c))
            (eps t c).

Definition corrected_row {K} (cs : list string) (name : sample)
    (R : K -> string -> Row) (eps : K -> string -> float) (t : K) (c : string)
  : Row :=
  set_Ncol name (series_sum (map (corrected_cell name R eps t) cs))
    (set_ncol name (corrected_cell name R eps t c) (R t c)).

(** The rows of a site in the three tables. *)
Definition site_triples (sel mock err : CountTable)
  : list (CountRow * CountRow * CountRow) :=
  combine (combine (sorted_rows sel) (sorted_rows mock)) (sorted_rows err).

Definition triple_cell (sel mock : CountTable)
    (t : CountRow * CountRow * CountRow) (c : string) : Row :=
  joined_cell sel mock (fst t) c.

Definition triple_epsilon (err : CountTable)
    (t : CountRow * CountRow * CountRow) (c : string) : float :=
  fdiv (of_int (cr_count (snd t) c)) (of_int (site_total err (snd t))).

(** The table after the correction of both samples. *)
Definition corrected_table (sel mock err : CountTable) : list Row :=
  map fst
    (blocks (site_triples sel mock err) (sorted_vars sel)
       (corrected_row (sorted_vars sel) mock_sample
          (corrected_row (sorted_vars sel) sel_sample (triple_cell sel mock)
             (triple_epsilon err))
          (triple_epsilon err))
       (triple_epsilon err)).

(** The counts of a row, from the values of its character columns. *)
Definition counts (l : list (string * Z)) (c : string) : Z :=
  match find (fun x => (fst x =? c)%string) l with
  | Some x => snd x
  | None => 0
  end.

(** A count table from its rows (site, wildtype, counts in the order of
    the characters), with the index labels 0, 1, ... *)
Definition count_table (chars : list string)
    (rows : list (Z * string * list Z)) : CountTable :=
  mkCountTable ("site" :: "wildtype" :: chars)
    (map (fun x => mkCountRow (fst x) (fst (fst (snd x))) (snd (fst (snd x)))
                              (counts (combine chars (snd (snd x)))))
         (range_index rows)).

Definition nucleotides : list string := ["A"; "C"; "G"].

Definition sel_two_sites : CountTable :=
  count_table nucleotides [(2, "C", [5; 7; 2]); (1, "A", [10; 1; 3])].

Definition mock_two_sites : CountTable :=
  count_table nucleotides [(2, "C", [3; 9; 1]); (1, "A", [8; 2; 2])].

Definition err_two_sites : CountTable :=
  count_table nucleotides [(2, "C", [1; 20; 1]); (1, "A", [30; 1; 2])].

Definition sel_one_site : CountTable := count_table nucleotides [(1, "A", [1; 0; 3])].

Definition mock_one_site : CountTable := count_table nucleotides [(1, "A", [3; 1; 0])].

Definition mock_no_reads : CountTable := count_table nucleotides [(1, "A", [0; 0; 0])].

Definition err_no_wildtype : CountTable := count_table nucleotides [(1, "A", [0; 2; 1])].

(** A table of three codons, two of them for one amino acid. *)
Definition three_codons : list string := ["AAA"; "AAG"; "GAT"].

Definition three_codons_to_aa : list (string * string) :=
  [("AAA", "K"); ("AAG", "K"); ("GAT", "D")].

Definition sel_codons : CountTable :=
  count_table three_codons [(1, "AAA", [10; 4; 3]); (2, "GAT", [2; 1; 9])].

Definition mock_codons : CountTable :=
  count_table three_codons [(1, "AAA", [12; 2; 1]); (2, "GAT", [1; 3; 7])].

(** The rows of one site before the translation. *)
Definition codon_rows : list Row :=
  [ mkRow 1 "AAA" "AAA" (Fin 10) (Fin 17) (Fin 12) (Fin 15);
    mkRow 1 "AAA" "AAG" (Fin 4) (Fin 17) (Fin 2) (Fin 15);
    mkRow 1 "AAA" "GAT" (Fin 3) (Fin 17) (Fin 1) (Fin 15) ].

(** The tables of the alignment scenario: sites 1, 2, 3 against 1, 2, 4. *)
Definition sel_sites_123 : CountTable :=
  count_table nucleotides
    [(1, "A", [5; 1; 1]); (2, "C", [1; 5; 1]); (3, "G", [1; 1; 5])].

Definition mock_sites_124 : CountTable :=
  count_table nucleotides
    [(1, "A", [5; 1; 1]); (2, "C", [1; 5; 1]); (4, "G", [1; 1; 5])].

(** Two values for the mutation C at site 1. *)
Definition table_with_duplicate : list DiffSelRow :=
  [ mkDiffSelRow 1 "A" "C" (Fin (1#2)); mkDiffSelRow 1 "A" "G" (Fin 1);
    mkDiffSelRow 1 "A" "C" (Fin 2) ].

(** The doctest of [mutToSiteDiffSel]. *)
Definition doctest_table : list DiffSelRow :=
  [ mkDiffSelRow 1 "A" "A" NaN; mkDiffSelRow 2 "C" "A" (Fin (41#10));
    mkDiffSelRow 1 "A" "C" (Fin (-2#10)); mkDiffSelRow 2 "C" "C" NaN;
    mkDiffSelRow 1 "A" "G" (Fin (32#10)); mkDiffSelRow 2 "C" "G" (Fin (1#10));
    mkDiffSelRow 1 "A" "T" (Fin (-2#10)); mkDiffSelRow 2 "C" "T" (Fin 0) ].

(** The site, the wildtype and the mutation of a row of the result. *)
Definition out_key (o : OutRow) : Z * string * string :=
  (o_site o, o_wildtype o, o_mutation o).

(** The rows that [computeMutDiffSel] returns when it does not translate:
    site after site in ascending order, and character after character
    within a site; the sites whose wildtype is not a character of the
    table are left out. *)
Definition expected_keys (sel : CountTable) : list (Z * string * string) :=
  flat_map (fun r => map (fun c => (cr_site r, cr_wildtype r, c))
                         (sorted_vars sel))
           (filter (fun r => mem (cr_wildtype r) (value_vars sel))
                   (sorted_rows sel)).

(** Not below 0: a rational that is not negative, or plus infinity. *)
Definition not_below_zero (x : float) : Prop := fle (Fin 0) x = true.

Definition not_above_zero (x : float) : Prop := fle x (Fin 0) = true.

(** The site and the mutation of a row of [m]. *)
Definition site_mutation (r : Row) : Z * string := (site r, mutation r).

(** Two rows with the same keys and the same numbers. *)
Definition row_feq (r r' : Row) : Prop :=
  site r = site r' /\ wildtype r = wildtype r' /\ mutation r = mutation r'
  /\ feq (nsel r) (nsel r') /\ feq (Nsel r) (Nsel r')
  /\ feq (nmock r) (nmock r') /\ feq (Nmock r) (Nmock r').

(** Every read of the error control is the wildtype of its site, and
    every site has a read. *)
Definition error_free (err : CountTable) : bool :=
  forallb (fun r =>
      (0 <? site_total err r)
      && forallb (fun c =>
             cr_count r c
             =? (if (c =? cr_wildtype r)%string then site_total err r else 0))
           (value_vars err))
    (table_rows err).

(** A table without the column of G. *)
Definition sel_without_G : CountTable :=
  count_table ["A"; "C"] [(1, "A", [1; 0])].

(** An error control with another wildtype at site 1. *)
Definition err_other_wildtype : CountTable :=
  count_table nucleotides [(1, "C", [0; 2; 1])].

(** An error control all of whose reads are the wildtype. *)
Definition err_all_wildtype : CountTable :=
  count_table nucleotides [(2, "C", [0; 20; 0]); (1, "A", [30; 0; 0])].

(** The rows of a table in the reverse order, each with its label. *)
Definition reversed (df : CountTable) : CountTable :=
  mkCountTable (columns df) (rev (table_rows df)).

(** The table of [mock_two_sites] written site 1 first: the labels 0 and
    1 go to the other rows. *)
Definition mock_relabelled : CountTable :=
  count_table nucleotides [(1, "A", [8; 2; 2]); (2, "C", [3; 9; 1])].

(** A table in which site 1 has no defined value. *)
Definition table_undefined_site : list DiffSelRow :=
  [ mkDiffSelRow 1 "A" "A" NaN; mkDiffSelRow 1 "A" "C" NaN;
    mkDiffSelRow 2 "C" "A" (Fin 1); mkDiffSelRow 2 "C" "C" NaN ].

(** A row with the opposite value. *)
Definition negated_row (r : DiffSelRow) : DiffSelRow :=
  mkDiffSelRow (d_site r) (d_wildtype r) (d_mutation r) (fopp (d_mutdiffsel r)).

(** The table with every value negated, as swapping the two samples
    gives. *)
Definition negated (df : list DiffSelRow) : list DiffSelRow :=
  map negated_row df.

(** How the rows of the site tables of a table and of its negation stand
    to each other. *)
Definition mirrored (row row' : SiteRow) : Prop :=
  s_site row' = s_site row
  /\ feq (abs_diffsel row') (abs_diffsel row)
  /\ feq (positive_diffsel row') (fopp (negative_diffsel row))
  /\ feq (negative_diffsel row') (fopp (positive_diffsel row))
  /\ feq (max_diffsel row') (fopp (min_diffsel row))
  /\ feq (min_diffsel row') (fopp (max_diffsel row)).

(** * Properties *)

(** * Facts about the list operations *)

Section SortFacts.
Context {A : Type} (leb : A -> A -> bool).

Let le (x y : A) : Prop := leb x y = true.

Lemma insert_perm (x : A) (l : list A) : Permutation (insert leb x l) (x :: l).
Proof.
  induction l as [|y l IH]; simpl.
  - apply Permutation_refl.
  - destruct (leb x y).
    + apply Permutation_refl.
    + apply perm_trans with (y :: x :: l).
      * now apply perm_skip.
      * apply perm_swap.
Qed.

Lemma sort_values_perm (l : list A) : Permutation (sort_values leb l) l.
Proof.
  induction l as [|x l IH]; simpl.
  - apply perm_nil.
  - apply perm_trans with (x :: sort_values leb l).
    + apply insert_perm.
    + now apply perm_skip.
Qed.

Lemma In_sort_values (x : A) (l : list A) :
  In x (sort_values leb l) <-> In x l.
Proof.
  split; apply Permutation_in.
  - apply sort_values_perm.
  - apply Permutation_sym, sort_values_perm.
Qed.

Lemma sort_values_length (l : list A) :
  List.length (sort_values leb l) = List.length l.
Proof. apply Permutation_length, sort_values_perm. Qed.

Lemma sort_values_sorted_id (l : list A) :
  StronglySorted le l -> sort_values leb l = l.
Proof.
  induction 1 as [|x l Hs IH Hx]; simpl.
  - reflexivity.
  - rewrite IH. destruct l as [|y l]; simpl.
    + reflexivity.
    + inversion Hx as [|? ? Hxy _]; subst. unfold le in Hxy. now rewrite Hxy.
Qed.

Hypothesis leb_total : forall x y, leb x y = true \/ leb y x = true.
Hypothesis leb_trans :
  forall x y z, leb x y = true -> leb y z = true -> leb x z = true.

Lemma insert_sorted (x : A) (l : list A) :
  StronglySorted le l -> StronglySorted le (insert leb x l).
Proof.
  induction 1 as [|y l Hs IH Hy]; simpl.
  - constructor; constructor.
  - destruct (leb x y) eqn:Hxy.
    + constructor.
      * now constructor.
      * constructor; [exact Hxy|].
        eapply Forall_impl; [|exact Hy]. intros z Hz. eapply leb_trans; eauto.
    + constructor; [exact IH|].
      apply Forall_forall. intros z Hz.
      apply (Permutation_in _ (insert_perm x l)) in Hz.
      destruct Hz as [<-|Hz].
      * destruct (leb_total x y) as [H|H]; [congruence|exact H].
      * rewrite Forall_forall in Hy. now apply Hy.
Qed.

Lemma sort_values_sorted (l : list A) : StronglySorted le (sort_values leb l).
Proof.
  induction l as [|x l IH]; simpl.
  - constructor.
  - now apply insert_sorted.
Qed.

Lemma sort_values_idempotent (l : list A) :
  sort_values leb (sort_values leb l) = sort_values leb l.
Proof. apply sort_values_sorted_id, sort_values_sorted. Qed.

(** Two sorted lists with the same elements are the same list, when no two
    different elements are each below the other. *)
Lemma sorted_unique (l1 l2 : list A) :
  StronglySorted le l1 -> StronglySorted le l2 -> Permutation l1 l2 ->
  (forall x y, In x l1 -> In y l1 -> leb x y = true -> leb y x = true -> x = y) ->
  l1 = l2.
Proof.
  intros H1. revert l2.
  induction H1 as [|x l1 Hs1 IH Hx]; intros l2 H2 Hp Hanti.
  - apply Permutation_nil in Hp. now subst.
  - destruct l2 as [|y l2].
    + apply Permutation_sym, Permutation_nil in Hp. discriminate.
    + inversion H2 as [|? ? Hs2 Hy]; subst.
      assert (Hxy : x = y).
      { assert (Hin1 : In y (x :: l1))
          by (apply (Permutation_in _ (Permutation_sym Hp)); now left).
        assert (Hin2 : In x (y :: l2))
          by (apply (Permutation_in _ Hp); now left).
        destruct Hin1 as [E|Hin1]; [exact E|].
        destruct Hin2 as [E|Hin2]; [now symmetry|].
        rewrite Forall_forall in Hx, Hy.
        apply Hanti; [now left|now right|now apply Hx|now apply Hy]. }
      subst y. f_equal.
      apply IH; [exact Hs2|now apply Permutation_cons_inv in Hp|].
      intros a b Ha Hb. apply Hanti; now right.
Qed.

End SortFacts.

Lemma ascii_compare_refl (a : ascii) : Ascii.compare a a = Eq.
Proof. unfold Ascii.compare. apply N.compare_refl. Qed.

Lemma string_compare_refl (s : string) : String.compare s s = Eq.
Proof.
  induction s as [|a s IH]; simpl.
  - reflexivity.
  - now rewrite ascii_compare_refl.
Qed.

Lemma string_compare_eq (s1 s2 : string) : String.compare s1 s2 = Eq <-> s1 = s2.
Proof.
  split.
  - apply String.compare_eq_iff.
  - intros ->. apply string_compare_refl.
Qed.

Lemma string_compare_trans (c : comparison) (s1 s2 s3 : string) :
  String.compare s1 s2 = c -> String.compare s2 s3 = c ->
  String.compare s1 s3 = c.
Proof.
  revert s2 s3.
  induction s1 as [|a1 s1 IH]; intros [|a2 s2] [|a3 s3]; simpl; try congruence.
  unfold Ascii.compare.
  destruct (N.compare_spec (N_of_ascii a1) (N_of_ascii a2)) as [E12|L12|G12];
    destruct (N.compare_spec (N_of_ascii a2) (N_of_ascii a3)) as [E23|L23|G23];
    intros H1 H2; subst; try congruence.
  - rewrite E12, E23, N.compare_refl. eapply IH; eauto.
  - rewrite E12. now apply N.compare_lt_iff in L23 as ->.
  - rewrite E12. now apply N.compare_gt_iff in G23 as ->.
  - rewrite <- E23. now apply N.compare_lt_iff in L12 as ->.
  - assert (H : (N_of_ascii a1 < N_of_ascii a3)%N) by lia.
    now apply N.compare_lt_iff in H as ->.
  - rewrite <- E23. now apply N.compare_gt_iff in G12 as ->.
  - assert (H : (N_of_ascii a3 < N_of_ascii a1)%N) by lia.
    now apply N.compare_gt_iff in H as ->.
Qed.

Lemma string_leb_trans (s1 s2 s3 : string) :
  String.leb s1 s2 = true -> String.leb s2 s3 = true -> String.leb s1 s3 = true.
Proof.
  unfold String.leb.
  destruct (String.compare s1 s2) eqn:H12; try discriminate;
    destruct (String.compare s2 s3) eqn:H23; try discriminate; intros _ _.
  - apply string_compare_eq in H12, H23. subst. now rewrite string_compare_refl.
  - apply string_compare_eq in H12. subst. now rewrite H23.
  - apply string_compare_eq in H23. subst. now rewrite H12.
  - now rewrite (string_compare_trans Lt _ _ _ H12 H23).
Qed.

Lemma string_leb_refl (s : string) : String.leb s s = true.
Proof. unfold String.leb. now rewrite string_compare_refl. Qed.

(** ** Lists *)

Lemma StronglySorted_app {A} (R : A -> A -> Prop) (l1 l2 : list A) :
  StronglySorted R l1 -> StronglySorted R l2 ->
  (forall x y, In x l1 -> In y l2 -> R x y) ->
  StronglySorted R (l1 ++ l2).
Proof.
  induction 1 as [|x l1 Hs IH Hx]; intros H2 H12; simpl.
  - exact H2.
  - constructor.
    + apply IH; [exact H2|]. intros a b Ha Hb. apply H12; [now right|exact Hb].
    + apply Forall_app. split; [exact Hx|].
      apply Forall_forall. intros y Hy. apply H12; [now left|exact Hy].
Qed.

Lemma StronglySorted_map {A B} (R : B -> B -> Prop) (f : A -> B) (l : list A) :
  StronglySorted (fun x y => R (f x) (f y)) l -> StronglySorted R (map f l).
Proof.
  induction 1 as [|x l Hs IH Hx]; simpl; constructor.
  - exact IH.
  - apply Forall_forall. intros y Hy. apply in_map_iff in Hy as (a & <- & Ha).
    rewrite Forall_forall in Hx. now apply Hx.
Qed.

Lemma StronglySorted_flat_map {A B} (R : B -> B -> Prop) (g : A -> list B)
    (l : list A) :
  (forall a, In a l -> StronglySorted R (g a)) ->
  StronglySorted (fun a a' => forall b b', In b (g a) -> In b' (g a') -> R b b') l ->
  StronglySorted R (flat_map g l).
Proof.
  intros Hg Hl. induction Hl as [|x l Hs IH Hx]; simpl.
  - constructor.
  - apply StronglySorted_app.
    + apply Hg. now left.
    + apply IH. intros a Ha. apply Hg. now right.
    + intros b b' Hb Hb'. apply in_flat_map in Hb' as (a & Ha & Hb').
      rewrite Forall_forall in Hx. now apply (Hx a Ha).
Qed.

Lemma StronglySorted_weaken {A} (R S : A -> A -> Prop) (l : list A) :
  StronglySorted R l ->
  (forall x y, In x l -> In y l -> R x y -> S x y) ->
  StronglySorted S l.
Proof.
  induction 1 as [|x l Hs IH Hx]; intros HRS; constructor.
  - apply IH. intros a b Ha Hb. apply HRS; now right.
  - apply Forall_forall. intros y Hy. rewrite Forall_forall in Hx.
    apply HRS; [now left|now right|now apply Hx].
Qed.

Lemma NoDup_map_inj {A B} (f : A -> B) (l : list A) (a b : A) :
  NoDup (map f l) -> In a l -> In b l -> f a = f b -> a = b.
Proof.
  induction l as [|x l IH]; simpl; intros Hn Ha Hb Hf.
  - contradiction.
  - inversion Hn as [|? ? Hx Hn']; subst.
    destruct Ha as [<-|Ha], Hb as [<-|Hb].
    + reflexivity.
    + exfalso. apply Hx. rewrite Hf. now apply in_map.
    + exfalso. apply Hx. rewrite <- Hf. now apply in_map.
    + now apply IH.
Qed.

Lemma flat_map_swap {A B C} (f : A -> B -> C) (la : list A) (lb : list B) :
  Permutation (flat_map (fun b => map (fun a => f a b) la) lb)
              (flat_map (fun a => map (f a) lb) la).
Proof.
  induction la as [|a la IH]; simpl.
  - induction lb as [|b lb IHb]; simpl; [constructor|exact IHb].
  - apply perm_trans with
      (map (f a) lb ++ flat_map (fun b => map (fun a => f a b) la) lb).
    + clear IH. induction lb as [|b lb IHb]; simpl.
      * constructor.
      * constructor.
        apply perm_trans with
          (map (fun a0 => f a0 b) la
           ++ (map (f a) lb ++ flat_map (fun b0 => map (fun a0 => f a0 b0) la) lb)).
        -- now apply Permutation_app_head.
        -- rewrite !app_assoc. apply Permutation_app_tail, Permutation_app_comm.
    + now apply Permutation_app_head.
Qed.

Lemma flat_map_perm_ext {A B} (f g : A -> list B) (l : list A) :
  (forall a, In a l -> Permutation (f a) (g a)) ->
  Permutation (flat_map f l) (flat_map g l).
Proof.
  induction l as [|x l IH]; simpl; intros H.
  - constructor.
  - apply Permutation_app.
    + apply H. now left.
    + apply IH. intros a Ha. apply H. now right.
Qed.

Lemma filter_all {A} (p : A -> bool) (l : list A) :
  (forall x, In x l -> p x = true) -> filter p l = l.
Proof.
  induction l as [|x l IH]; simpl; intros H.
  - reflexivity.
  - rewrite (H x (or_introl eq_refl)). f_equal. apply IH. intros y Hy.
    apply H. now right.
Qed.

Lemma filter_none {A} (p : A -> bool) (l : list A) :
  (forall x, In x l -> p x = false) -> filter p l = [].
Proof.
  induction l as [|x l IH]; simpl; intros H.
  - reflexivity.
  - rewrite (H x (or_introl eq_refl)). apply IH. intros y Hy. apply H. now right.
Qed.

Lemma filter_flat_map {A B} (p : B -> bool) (g : A -> list B) (l : list A) :
  filter p (flat_map g l) = flat_map (fun a => filter p (g a)) l.
Proof.
  induction l as [|x l IH]; simpl.
  - reflexivity.
  - now rewrite filter_app, IH.
Qed.

(** The rows of one key in a table laid out key after key. *)
Lemma filter_key_flat_map {A B} (key : A -> Z) (keyB : B -> Z)
    (g : A -> list B) (l : list A) (r : A) :
  NoDup (map key l) -> In r l ->
  (forall a b, In a l -> In b (g a) -> keyB b = key a) ->
  filter (fun b => keyB b =? key r) (flat_map g l) = g r.
Proof.
  induction l as [|x l IH]; simpl; intros Hn Hr Hg.
  - contradiction.
  - inversion Hn as [|? ? Hx Hn']; subst. rewrite filter_app.
    destruct Hr as [->|Hr].
    + rewrite filter_all.
      * assert (E : filter (fun b => keyB b =? key r) (flat_map g l) = []).
        { apply filter_none. intros b Hb. apply in_flat_map in Hb as (a & Ha & Hb).
          rewrite (Hg a b (or_intror Ha) Hb). apply Z.eqb_neq. intros E.
          apply Hx. rewrite <- E. now apply in_map. }
        rewrite E. apply app_nil_r.
      * intros b Hb. rewrite (Hg r b (or_introl eq_refl) Hb). apply Z.eqb_refl.
    + rewrite filter_none.
      * simpl. apply IH; [exact Hn'|exact Hr|]. intros a b Ha. apply Hg. now right.
      * intros b Hb. rewrite (Hg x b (or_introl eq_refl) Hb). apply Z.eqb_neq.
        intros E. apply Hx. rewrite E. now apply in_map.
Qed.

Lemma map_flat_map {A B C} (h : B -> C) (g : A -> list B) (l : list A) :
  map h (flat_map g l) = flat_map (fun a => map h (g a)) l.
Proof.
  induction l as [|x l IH]; simpl.
  - reflexivity.
  - now rewrite map_app, IH.
Qed.

Lemma flat_map_ext_in {A B} (f g : A -> list B) (l : list A) :
  (forall a, In a l -> f a = g a) -> flat_map f l = flat_map g l.
Proof.
  induction l as [|x l IH]; simpl; intros H.
  - reflexivity.
  - rewrite (H x (or_introl eq_refl)). f_equal. apply IH. intros a Ha.
    apply H. now right.
Qed.

Lemma Zsum_perm (l1 l2 : list Z) : Permutation l1 l2 -> Zsum l1 = Zsum l2.
Proof.
  induction 1; simpl; unfold Zsum in *; simpl; lia.
Qed.

Lemma Zsum_nonneg (l : list Z) : (forall z, In z l -> 0 <= z) -> 0 <= Zsum l.
Proof.
  induction l as [|x l IH]; simpl; intros H.
  - lia.
  - assert (0 <= x) by (apply H; now left).
    assert (0 <= Zsum l) by (apply IH; intros z Hz; apply H; now right). lia.
Qed.

(** ** Distinct elements, as a boolean *)

Lemma list_eqb_eq {A} (eqb : A -> A -> bool) (l1 l2 : list A) :
  (forall x y, eqb x y = true <-> x = y) ->
  list_eqb eqb l1 l2 = true <-> l1 = l2.
Proof.
  intros Heq. revert l2.
  induction l1 as [|x l1 IH]; intros [|y l2]; simpl; split; try congruence.
  - intros H. apply andb_true_iff in H as [H1 H2].
    apply Heq in H1. apply IH in H2. now subst.
  - intros E. inversion E; subst. apply andb_true_iff. split.
    + now apply Heq.
    + now apply IH.
Qed.

Lemma distinct_NoDup {A} (eqb : A -> A -> bool) (l : list A) :
  (forall x y, eqb x y = true <-> x = y) ->
  distinct eqb l = true -> NoDup l.
Proof.
  intros Heq. induction l as [|x l IH]; simpl; intros H.
  - constructor.
  - apply andb_true_iff in H as [H1 H2]. constructor.
    + intros Hin. apply negb_true_iff in H1.
      assert (E : existsb (eqb x) l = true).
      { apply existsb_exists. exists x. split; [exact Hin|now apply Heq]. }
      congruence.
    + now apply IH.
Qed.

Lemma NoDup_filter {A} (p : A -> bool) (l : list A) :
  NoDup l -> NoDup (filter p l).
Proof.
  induction 1 as [|x l Hx Hn IH]; simpl.
  - constructor.
  - destruct (p x); [constructor|]; auto.
    intros Hin. apply filter_In in Hin. tauto.
Qed.

(** ** The melted table of a well-formed count table *)

Lemma site_mutation_leb_total (x y : MeltRow) :
  site_mutation_leb x y = true \/ site_mutation_leb y x = true.
Proof.
  unfold site_mutation_leb.
  destruct (Z.lt_total (mr_site x) (mr_site y)) as [H|[H|H]].
  - left. apply Z.ltb_lt in H. now rewrite H.
  - rewrite H, Z.eqb_refl, Z.ltb_irrefl. simpl.
    apply String.leb_total.
  - right. apply Z.ltb_lt in H. now rewrite H.
Qed.

Lemma site_mutation_leb_spec (x y : MeltRow) :
  site_mutation_leb x y = true <->
  mr_site x < mr_site y
  \/ (mr_site x = mr_site y /\ String.leb (mr_mutation x) (mr_mutation y) = true).
Proof.
  unfold site_mutation_leb.
  rewrite orb_true_iff, andb_true_iff, Z.ltb_lt, Z.eqb_eq. tauto.
Qed.

Lemma site_mutation_leb_trans (x y z : MeltRow) :
  site_mutation_leb x y = true -> site_mutation_leb y z = true ->
  site_mutation_leb x z = true.
Proof.
  rewrite !site_mutation_leb_spec.
  intros [H1|[H1 H1']] [H2|[H2 H2']].
  - left. lia.
  - left. lia.
  - left. lia.
  - right. split; [lia|]. eapply string_leb_trans; eauto.
Qed.

Lemma site_leb_total (x y : CountRow) :
  site_leb x y = true \/ site_leb y x = true.
Proof. unfold site_leb. rewrite !Z.leb_le. lia. Qed.

Lemma site_leb_trans (x y z : CountRow) :
  site_leb x y = true -> site_leb y z = true -> site_leb x z = true.
Proof. unfold site_leb. rewrite !Z.leb_le. lia. Qed.

Lemma sorted_rows_perm (df : CountTable) :
  Permutation (sorted_rows df) (table_rows df).
Proof. apply sort_values_perm. Qed.

Lemma sorted_vars_perm (df : CountTable) :
  Permutation (sorted_vars df) (value_vars df).
Proof. apply sort_values_perm. Qed.

Lemma sorted_rows_NoDup (df : CountTable) :
  NoDup (map cr_site (table_rows df)) -> NoDup (map cr_site (sorted_rows df)).
Proof.
  intros H. eapply Permutation_NoDup; [|exact H].
  apply Permutation_map, Permutation_sym, sorted_rows_perm.
Qed.

Lemma sorted_strict {A} (key : A -> Z) (l : list A) :
  StronglySorted (fun x y => key x <= key y) l -> NoDup (map key l) ->
  StronglySorted (fun x y => key x < key y) l.
Proof.
  induction 1 as [|x l Hs IH Hx]; simpl; intros Hn.
  - constructor.
  - inversion Hn as [|? ? Hnx Hn']; subst. constructor.
    + now apply IH.
    + apply Forall_forall. intros y Hy. rewrite Forall_forall in Hx.
      specialize (Hx y Hy).
      assert (key x <> key y).
      { intros E. apply Hnx. rewrite E. now apply in_map. }
      lia.
Qed.

Lemma sorted_rows_strict (df : CountTable) :
  NoDup (map cr_site (table_rows df)) ->
  StronglySorted (fun r1 r2 => cr_site r1 < cr_site r2) (sorted_rows df).
Proof.
  intros H. apply sorted_strict.
  - eapply StronglySorted_weaken.
    + apply (sort_values_sorted site_leb site_leb_total site_leb_trans).
    + intros x y _ _. unfold site_leb. apply Z.leb_le.
  - now apply sorted_rows_NoDup.
Qed.

Section MeltedClosedForm.
Variable df : CountTable.
Hypothesis sites_unique : NoDup (map cr_site (table_rows df)).

Let cell0 (r : CountRow) (c : string) : MeltRow :=
  mkMeltRow (cr_site r) (cr_wildtype r) c (cr_count r c) 0.

Lemma melt_perm :
  Permutation (melt df)
    (flat_map (fun r => map (cell0 r) (sorted_vars df)) (sorted_rows df)).
Proof.
  unfold melt.
  apply perm_trans with
    (flat_map (fun r => map (cell0 r) (value_vars df)) (table_rows df)).
  - apply (flat_map_swap cell0).
  - apply perm_trans with
      (flat_map (fun r => map (cell0 r) (sorted_vars df)) (table_rows df)).
    + apply flat_map_perm_ext. intros r _.
      apply Permutation_map, Permutation_sym, sorted_vars_perm.
    + apply Permutation_flat_map, Permutation_sym, sorted_rows_perm.
Qed.

Lemma melt_rows_sorted :
  StronglySorted (fun x y => site_mutation_leb x y = true)
    (flat_map (fun r => map (cell0 r) (sorted_vars df)) (sorted_rows df)).
Proof.
  apply StronglySorted_flat_map.
  - intros r _. apply StronglySorted_map.
    eapply StronglySorted_weaken.
    + apply (sort_values_sorted String.leb String.leb_total string_leb_trans).
    + intros c1 c2 _ _ H. apply site_mutation_leb_spec. right. now split.
  - eapply StronglySorted_weaken.
    + apply sorted_rows_strict, sites_unique.
    + intros r1 r2 _ _ H b b' Hb Hb'.
      apply in_map_iff in Hb as (c & <- & _).
      apply in_map_iff in Hb' as (c' & <- & _).
      apply site_mutation_leb_spec. now left.
Qed.

Lemma melt_sorted :
  sort_values site_mutation_leb (melt df)
  = flat_map (fun r => map (cell0 r) (sorted_vars df)) (sorted_rows df).
Proof.
  apply (sorted_unique site_mutation_leb).
  - apply sort_values_sorted.
    + apply site_mutation_leb_total.
    + apply site_mutation_leb_trans.
  - apply melt_rows_sorted.
  - eapply perm_trans; [apply sort_values_perm|apply melt_perm].
  - intros x y Hx Hy Hxy Hyx.
    apply In_sort_values in Hx, Hy.
    apply (Permutation_in _ melt_perm) in Hx, Hy.
    apply in_flat_map in Hx as (r1 & Hr1 & Hx), Hy as (r2 & Hr2 & Hy).
    apply in_map_iff in Hx as (c1 & <- & Hc1), Hy as (c2 & <- & Hc2).
    apply site_mutation_leb_spec in Hxy, Hyx. simpl in Hxy, Hyx.
    assert (E : cr_site r1 = cr_site r2) by lia.
    assert (r1 = r2).
    { eapply NoDup_map_inj; [apply sorted_rows_NoDup, sites_unique| | |exact E];
        assumption. }
    subst r2. f_equal.
    destruct Hxy as [?|[_ ?]]; [lia|]. destruct Hyx as [?|[_ ?]]; [lia|].
    now apply String.leb_antisym.
Qed.

Lemma melted_closed_form : melted df = melted_table df.
Proof.
  unfold melted, melted_table. rewrite melt_sorted.
  unfold with_N. rewrite map_flat_map. apply flat_map_ext_in. intros r Hr.
  rewrite map_map. apply map_ext. intros c. unfold melt_cell. simpl. f_equal.
  rewrite (filter_key_flat_map cr_site mr_site).
  - rewrite map_map. simpl. unfold site_total. apply Zsum_perm.
    apply Permutation_map, sorted_vars_perm.
  - apply sorted_rows_NoDup, sites_unique.
  - exact Hr.
  - intros a b _ Hb. apply in_map_iff in Hb as (c' & <- & _). reflexivity.
Qed.

End MeltedClosedForm.

(** ** Comparing columns *)

Lemma all_true (l : list bool) : all l = true <-> forall b, In b l -> b = true.
Proof. unfold all. rewrite forallb_forall. reflexivity. Qed.

Lemma series_eq_same {A} (eqb : A -> A -> bool) (s1 s2 : Series A) :
  (forall x, eqb x x = true) ->
  map fst s1 = map fst s2 -> map snd s1 = map snd s2 ->
  exists b, series_eq eqb s1 s2 = Ok b /\ all b = true.
Proof.
  intros Hrefl Hl Hv. unfold series_eq.
  assert (E : list_eqb Z.eqb (map fst s1) (map fst s2) = true).
  { apply list_eqb_eq; [apply Z.eqb_eq|exact Hl]. }
  rewrite E. eexists. split; [reflexivity|].
  apply all_true. intros b Hb. apply in_map_iff in Hb as (p & <- & Hp).
  assert (Es : s1 = s2).
  { clear - Hl Hv. revert s2 Hl Hv.
    induction s1 as [|[a x] s1 IH]; intros [|[b y] s2]; simpl; try congruence.
    intros Hl Hv. inversion Hl; inversion Hv; subst. f_equal. now apply IH. }
  subst s2. clear - Hp Hrefl.
  induction s1 as [|x s1 IH]; simpl in Hp.
  - contradiction.
  - destruct Hp as [<-|Hp]; simpl; auto.
Qed.

Lemma series_eq_all {A} (eqb : A -> A -> bool) (s1 s2 : Series A) (b : list bool) :
  (forall x y, eqb x y = true -> x = y) ->
  series_eq eqb s1 s2 = Ok b -> all b = true -> map snd s1 = map snd s2.
Proof.
  intros Heq. unfold series_eq.
  destruct (list_eqb Z.eqb (map fst s1) (map fst s2)) eqn:E; [|discriminate].
  intros H Hall. inversion H; subst. clear H.
  apply list_eqb_eq in E; [|apply Z.eqb_eq].
  revert s2 E Hall.
  induction s1 as [|[a x] s1 IH]; intros [|[a' y] s2]; simpl; try congruence.
  intros E Hall. inversion E; subst.
  apply andb_true_iff in Hall as [Hx Hs].
  f_equal; [now apply Heq|now apply IH].
Qed.

Lemma series_eq_result {A} (eqb : A -> A -> bool) (s1 s2 : Series A) :
  (exists b, series_eq eqb s1 s2 = Ok b)
  \/ series_eq eqb s1 s2
     = Raise (ValueError "Can only compare identically-labeled Series objects").
Proof.
  unfold series_eq. destruct (list_eqb _ _ _); eauto.
Qed.

Lemma map_fst_combine {A B} (l1 : list A) (l2 : list B) :
  List.length l1 = List.length l2 -> map fst (combine l1 l2) = l1.
Proof.
  revert l2. induction l1 as [|x l1 IH]; intros [|y l2]; simpl; try congruence.
  intros H. f_equal. apply IH. congruence.
Qed.

Lemma map_snd_combine {A B} (l1 : list A) (l2 : list B) :
  List.length l1 = List.length l2 -> map snd (combine l1 l2) = l2.
Proof.
  revert l2. induction l1 as [|x l1 IH]; intros [|y l2]; simpl; try congruence.
  intros H. f_equal. apply IH. congruence.
Qed.

Lemma range_index_fst {A} (l : list A) :
  map fst (range_index l) = map Z.of_nat (seq 0 (List.length l)).
Proof.
  unfold range_index. apply map_fst_combine. now rewrite length_map, length_seq.
Qed.

Lemma range_index_snd {A} (l : list A) : map snd (range_index l) = l.
Proof.
  unfold range_index. apply map_snd_combine. now rewrite length_map, length_seq.
Qed.

Lemma same_keys_same (m1 m2 : list MeltRow) :
  map mr_site m1 = map mr_site m2 ->
  map mr_wildtype m1 = map mr_wildtype m2 ->
  map mr_mutation m1 = map mr_mutation m2 ->
  same_keys m1 m2 = Ok true.
Proof.
  intros H1 H2 H3. unfold same_keys.
  destruct (series_eq_same Z.eqb (range_index (map mr_site m1))
              (range_index (map mr_site m2))) as (b1 & -> & Hb1).
  { apply Z.eqb_refl. }
  { rewrite !range_index_fst. now rewrite H1. }
  { now rewrite !range_index_snd. }
  destruct (series_eq_same String.eqb (range_index (map mr_wildtype m1))
              (range_index (map mr_wildtype m2))) as (b2 & -> & Hb2).
  { apply String.eqb_refl. }
  { rewrite !range_index_fst. now rewrite H2. }
  { now rewrite !range_index_snd. }
  destruct (series_eq_same String.eqb (range_index (map mr_mutation m1))
              (range_index (map mr_mutation m2))) as (b3 & -> & Hb3).
  { apply String.eqb_refl. }
  { rewrite !range_index_fst. now rewrite H3. }
  { now rewrite !range_index_snd. }
  simpl. now rewrite Hb1, Hb2, Hb3.
Qed.

(** ** Aligned tables *)

Lemma list_eqb_map {A B} (eqb : A -> A -> bool) (f : A -> B) (l1 l2 : list A) :
  (forall x y, eqb x y = true -> f x = f y) ->
  list_eqb eqb l1 l2 = true -> map f l1 = map f l2.
Proof.
  intros H. revert l2.
  induction l1 as [|x l1 IH]; intros [|y l2]; simpl; try congruence.
  intros E. apply andb_true_iff in E as [E1 E2]. f_equal; auto.
Qed.

Lemma same_row_keys_spec (r1 r2 : CountRow) :
  same_row_keys r1 r2 = true <->
  cr_label r1 = cr_label r2 /\ cr_site r1 = cr_site r2
  /\ cr_wildtype r1 = cr_wildtype r2.
Proof.
  unfold same_row_keys.
  rewrite !andb_true_iff, !Z.eqb_eq, String.eqb_eq. tauto.
Qed.

Lemma aligned_labels (df1 df2 : CountTable) :
  aligned df1 df2 = true ->
  map cr_label (sorted_rows df1) = map cr_label (sorted_rows df2).
Proof.
  apply list_eqb_map. intros x y H. now apply same_row_keys_spec in H.
Qed.

Lemma aligned_sites (df1 df2 : CountTable) :
  aligned df1 df2 = true ->
  map cr_site (sorted_rows df1) = map cr_site (sorted_rows df2).
Proof.
  apply list_eqb_map. intros x y H. now apply same_row_keys_spec in H.
Qed.

Lemma aligned_wildtypes (df1 df2 : CountTable) :
  aligned df1 df2 = true ->
  map cr_wildtype (sorted_rows df1) = map cr_wildtype (sorted_rows df2).
Proof.
  apply list_eqb_map. intros x y H. now apply same_row_keys_spec in H.
Qed.

Lemma aligned_sym (df1 df2 : CountTable) :
  aligned df1 df2 = true -> aligned df2 df1 = true.
Proof.
  unfold aligned.
  generalize (table_rows (sort_by_site df1)) (table_rows (sort_by_site df2)).
  induction l as [|x l IH]; intros [|y l']; simpl; try congruence.
  intros H. apply andb_true_iff in H as [H1 H2]. apply andb_true_iff. split.
  - apply same_row_keys_spec in H1. apply same_row_keys_spec. intuition congruence.
  - now apply IH.
Qed.

Lemma aligned_combine (df1 df2 : CountTable) (p : CountRow * CountRow) :
  aligned df1 df2 = true -> In p (combine (sorted_rows df1) (sorted_rows df2)) ->
  cr_label (fst p) = cr_label (snd p) /\ cr_site (fst p) = cr_site (snd p)
  /\ cr_wildtype (fst p) = cr_wildtype (snd p).
Proof.
  unfold aligned, sorted_rows. simpl.
  generalize (sort_values site_leb (table_rows df1))
             (sort_values site_leb (table_rows df2)).
  induction l as [|x l IH]; intros [|y l']; simpl; try congruence; try tauto.
  intros H. apply andb_true_iff in H as [H1 H2]. intros [<-|Hp].
  - now apply same_row_keys_spec.
  - now apply (IH l').
Qed.

Lemma aligned_length (df1 df2 : CountTable) :
  aligned df1 df2 = true ->
  List.length (sorted_rows df1) = List.length (sorted_rows df2).
Proof.
  intros H. apply aligned_sites in H.
  apply (f_equal (@List.length Z)) in H. now rewrite !length_map in H.
Qed.

(** ** Well-formed tables *)

Lemma mem_In (s : string) (l : list string) : mem s l = true <-> In s l.
Proof.
  unfold mem. rewrite existsb_exists. split.
  - intros (x & Hx & E). apply String.eqb_eq in E. now subst.
  - intros H. exists s. split; [exact H|apply String.eqb_refl].
Qed.

Lemma set_eqb_spec (l1 l2 : list string) :
  set_eqb l1 l2 = true <-> (forall s, In s l1 <-> In s l2).
Proof.
  unfold set_eqb. rewrite andb_true_iff, !forallb_forall. split.
  - intros [H1 H2] s. split; intros H.
    + apply mem_In. now apply H1.
    + apply mem_In. now apply H2.
  - intros H. split; intros s Hs; apply mem_In; now apply H.
Qed.

Lemma set_eqb_sym (l1 l2 : list string) : set_eqb l1 l2 = set_eqb l2 l1.
Proof. unfold set_eqb. apply andb_comm. Qed.

Lemma valid_table_ok (chars : list string) (df : CountTable) :
  valid_table chars df = true -> table_ok chars df.
Proof.
  unfold valid_table. rewrite !andb_true_iff. intros [[[H1 H2] H3] H4].
  split.
  - exact H1.
  - eapply distinct_NoDup; [apply String.eqb_eq|exact H2].
  - eapply distinct_NoDup; [apply Z.eqb_eq|exact H3].
  - intros r c Hr Hc. rewrite forallb_forall in H4. specialize (H4 r Hr).
    rewrite forallb_forall in H4. apply Z.leb_le. now apply H4.
Qed.

Lemma value_vars_unique (chars : list string) (df : CountTable) :
  table_ok chars df -> NoDup (value_vars df).
Proof. intros H. apply NoDup_filter, (ok_columns_unique _ _ H). Qed.

Lemma sorted_vars_eq (chars : list string) (df1 df2 : CountTable) :
  table_ok chars df1 -> table_ok chars df2 -> sorted_vars df1 = sorted_vars df2.
Proof.
  intros H1 H2. apply (sorted_unique String.leb).
  - apply sort_values_sorted; [apply String.leb_total|apply string_leb_trans].
  - apply sort_values_sorted; [apply String.leb_total|apply string_leb_trans].
  - eapply perm_trans; [apply sorted_vars_perm|].
    eapply perm_trans; [|apply Permutation_sym, sorted_vars_perm].
    apply NoDup_Permutation.
    + eapply value_vars_unique; eauto.
    + eapply value_vars_unique; eauto.
    + intros c. unfold value_vars. rewrite !filter_In.
      pose proof (proj1 (set_eqb_spec _ _) (ok_columns _ _ H1) c).
      pose proof (proj1 (set_eqb_spec _ _) (ok_columns _ _ H2) c).
      tauto.
  - intros x y _ _. apply String.leb_antisym.
Qed.

Lemma sort_by_site_rows (df : CountTable) :
  table_rows (sort_by_site df) = sorted_rows df.
Proof. reflexivity. Qed.

Lemma sorted_rows_sorted (df : CountTable) :
  sorted_rows (sort_by_site df) = sorted_rows df.
Proof.
  unfold sorted_rows. simpl.
  apply sort_values_idempotent; [apply site_leb_total|apply site_leb_trans].
Qed.

Lemma melted_sorted (chars : list string) (df : CountTable) :
  table_ok chars df -> melted (sort_by_site df) = melted_table df.
Proof.
  intros H. rewrite melted_closed_form.
  - unfold melted_table. rewrite sorted_rows_sorted. reflexivity.
  - apply sorted_rows_NoDup, (ok_sites_unique _ _ H).
Qed.

(** ** The checks pass on well-formed, aligned tables *)

Lemma site_column_fst (df : CountTable) :
  map fst (site_column df) = map cr_label (table_rows df).
Proof. unfold site_column. rewrite map_map. reflexivity. Qed.

Lemma site_column_snd (df : CountTable) :
  map snd (site_column df) = map cr_site (table_rows df).
Proof. unfold site_column. rewrite map_map. reflexivity. Qed.

Lemma wildtype_column_fst (df : CountTable) :
  map fst (wildtype_column df) = map cr_label (table_rows df).
Proof. unfold wildtype_column. rewrite map_map. reflexivity. Qed.

Lemma wildtype_column_snd (df : CountTable) :
  map snd (wildtype_column df) = map cr_wildtype (table_rows df).
Proof. unfold wildtype_column. rewrite map_map. reflexivity. Qed.

Lemma sites_aligned_ok (df1 df2 : CountTable) :
  aligned df1 df2 = true ->
  exists b, series_eq Z.eqb (site_column (sort_by_site df1))
                            (site_column (sort_by_site df2)) = Ok b
            /\ all b = true.
Proof.
  intros H. apply series_eq_same.
  - apply Z.eqb_refl.
  - rewrite !site_column_fst. now apply aligned_labels.
  - rewrite !site_column_snd. now apply aligned_sites.
Qed.

Lemma wildtypes_aligned_ok (df1 df2 : CountTable) :
  aligned df1 df2 = true ->
  exists b, series_eq String.eqb (wildtype_column (sort_by_site df1))
                                 (wildtype_column (sort_by_site df2)) = Ok b
            /\ all b = true.
Proof.
  intros H. apply series_eq_same.
  - apply String.eqb_refl.
  - rewrite !wildtype_column_fst. now apply aligned_labels.
  - rewrite !wildtype_column_snd. now apply aligned_wildtypes.
Qed.

Lemma check_tables_ok (sel mock : CountTable) (chars : list string) (p : Q) :
  Qltb 0 p = true -> table_ok chars sel -> table_ok chars mock ->
  aligned sel mock = true ->
  check_tables sel mock chars p None
  = Ok (sort_by_site sel, sort_by_site mock, None).
Proof.
  intros Hp Hs Hm Ha. unfold check_tables.
  rewrite Hp, (ok_columns _ _ Hs), (ok_columns _ _ Hm). cbn [assert bind].
  destruct (sites_aligned_ok _ _ Ha) as (b1 & -> & Hb1). cbn [bind]. rewrite Hb1. cbn [assert bind].
  destruct (wildtypes_aligned_ok _ _ Ha) as (b2 & -> & Hb2). cbn [bind]. rewrite Hb2. reflexivity.
Qed.

Lemma check_tables_err_ok (sel mock err : CountTable) (chars : list string) (p : Q) :
  Qltb 0 p = true -> table_ok chars sel -> table_ok chars mock ->
  table_ok chars err -> aligned sel mock = true -> aligned err sel = true ->
  check_tables sel mock chars p (Some err)
  = Ok (sort_by_site sel, sort_by_site mock, Some (sort_by_site err)).
Proof.
  intros Hp Hs Hm He Ha Hae. unfold check_tables.
  rewrite Hp, (ok_columns _ _ Hs), (ok_columns _ _ Hm). cbn [assert bind].
  destruct (sites_aligned_ok _ _ Ha) as (b1 & -> & Hb1). cbn [bind]. rewrite Hb1. cbn [assert bind].
  destruct (wildtypes_aligned_ok _ _ Ha) as (b2 & -> & Hb2). cbn [bind]. rewrite Hb2. cbn [assert bind].
  rewrite (ok_columns _ _ He). cbn [assert bind].
  destruct (sites_aligned_ok _ _ Hae) as (b3 & -> & Hb3). cbn [bind]. rewrite Hb3. cbn [assert bind].
  destruct (wildtypes_aligned_ok _ _ Hae) as (b4 & -> & Hb4). cbn [bind]. rewrite Hb4. reflexivity.
Qed.

(** ** The joined table *)

Lemma combine_app {A B} (l1 l1' : list A) (l2 l2' : list B) :
  List.length l1 = List.length l2 ->
  combine (l1 ++ l1') (l2 ++ l2') = combine l1 l2 ++ combine l1' l2'.
Proof.
  revert l2. induction l1 as [|x l1 IH]; intros [|y l2]; simpl; try congruence.
  intros H. f_equal. apply IH. congruence.
Qed.

Lemma combine_map {A B C D} (f : A -> C) (g : B -> D) (l1 : list A) (l2 : list B) :
  combine (map f l1) (map g l2)
  = map (fun p => (f (fst p), g (snd p))) (combine l1 l2).
Proof.
  revert l2. induction l1 as [|x l1 IH]; intros [|y l2]; simpl; try reflexivity.
  f_equal. apply IH.
Qed.

Lemma combine_same {A} (l : list A) : combine l l = map (fun x => (x, x)) l.
Proof. induction l as [|x l IH]; simpl; congruence. Qed.

Lemma combine_flat_map {A B C D1 D2} (f : A -> C -> D1) (g : B -> C -> D2)
    (cs : list C) (l1 : list A) (l2 : list B) :
  combine (flat_map (fun a => map (f a) cs) l1)
          (flat_map (fun b => map (g b) cs) l2)
  = flat_map (fun p => map (fun c => (f (fst p) c, g (snd p) c)) cs)
             (combine l1 l2).
Proof.
  revert l2. induction l1 as [|x l1 IH]; intros [|y l2]; simpl; try reflexivity.
  - apply combine_nil.
  - rewrite combine_app by (now rewrite !length_map). rewrite IH. f_equal.
    rewrite combine_map, combine_same, map_map. reflexivity.
Qed.

Lemma melted_keys_eq (chars : list string) (df1 df2 : CountTable) :
  table_ok chars df1 -> table_ok chars df2 -> aligned df1 df2 = true ->
  map mr_site (melted_table df1) = map mr_site (melted_table df2)
  /\ map mr_wildtype (melted_table df1) = map mr_wildtype (melted_table df2)
  /\ map mr_mutation (melted_table df1) = map mr_mutation (melted_table df2).
Proof.
  intros H1 H2 Ha. unfold melted_table.
  rewrite <- (sorted_vars_eq chars df1 df2 H1 H2).
  pose proof (aligned_sites _ _ Ha) as Es.
  pose proof (aligned_wildtypes _ _ Ha) as Ew.
  revert Es Ew.
  generalize (sorted_rows df1) (sorted_rows df2) (sorted_vars df1).
  induction l as [|x l IH]; intros [|y l'] cs; simpl; try congruence; auto.
  intros Es Ew. inversion Es; inversion Ew; subst.
  destruct (IH l' cs) as (E1 & E2 & E3); auto.
  rewrite !map_app, E1, E2, E3, !map_map. simpl.
  repeat split; f_equal; apply map_ext; intros c; congruence.
Qed.

Lemma make_melted_ok (chars : list string) (sel mock : CountTable) :
  table_ok chars sel -> table_ok chars mock -> aligned sel mock = true ->
  make_melted (sort_by_site sel) (sort_by_site mock) None
  = Ok (joined_table sel mock, None).
Proof.
  intros Hs Hm Ha. unfold make_melted.
  rewrite (melted_sorted chars sel Hs), (melted_sorted chars mock Hm).
  rewrite same_keys_same by reflexivity. cbn [assert bind].
  destruct (melted_keys_eq chars sel mock Hs Hm Ha) as (E1 & E2 & E3).
  rewrite same_keys_same by assumption. cbn [assert bind].
  f_equal. f_equal. unfold melted_table, joined_table.
  rewrite <- (sorted_vars_eq chars sel mock Hs Hm).
  rewrite combine_flat_map, map_flat_map. apply flat_map_ext_in. intros p _.
  rewrite map_map. reflexivity.
Qed.

(** * Site aggregation *)

Lemma Qle_bool_true (a b : Q) : Qle_bool a b = true <-> (a <= b)%Q.
Proof. apply Qle_bool_iff. Qed.

Lemma Qle_bool_false (a b : Q) : Qle_bool a b = false <-> (b < a)%Q.
Proof.
  rewrite <- not_true_iff_false, Qle_bool_iff. split; intros H.
  - now apply Qnot_le_lt.
  - now apply Qlt_not_le.
Qed.

Lemma Qltb_true (a b : Q) : Qltb a b = true <-> (a < b)%Q.
Proof. unfold Qltb. rewrite negb_true_iff. apply Qle_bool_false. Qed.

Lemma Qltb_false (a b : Q) : Qltb a b = false <-> (b <= a)%Q.
Proof. unfold Qltb. rewrite negb_false_iff. apply Qle_bool_true. Qed.

Lemma fillna_not_nan (x : float) : isnan (fillna (Fin 0) x) = false.
Proof. destruct x; reflexivity. Qed.

Lemma site_values_not_nan (df : list DiffSelRow) (s : Z) :
  Forall (fun v => isnan v = false) (site_values df s).
Proof.
  unfold site_values. apply Forall_forall. intros v Hv.
  apply in_map_iff in Hv as (x & <- & _). apply fillna_not_nan.
Qed.

Lemma series_sum_cons (v : float) (x : list float) :
  series_sum (v :: x) = if isnan v then series_sum x else fadd v (series_sum x).
Proof. reflexivity. Qed.

Lemma series_sum_nil : series_sum [] = Fin 0.
Proof. reflexivity. Qed.

(** Summing the values a mask keeps is summing the values that pass the
    test. *)
Lemma sum_masked (cond : float -> bool) (x : list float) :
  Forall (fun v => isnan v = false) x ->
  series_sum (map (masked cond) x) = series_sum (filter cond x).
Proof.
  induction 1 as [|v x Hv Hx IH]; cbn [map filter].
  - reflexivity.
  - unfold masked at 1. destruct (cond v); rewrite !series_sum_cons.
    + now rewrite Hv, IH.
    + exact IH.
Qed.

Lemma sums_agree_feq (a p n : float) : sums_agree a p n -> feq a (fsub p n).
Proof.
  destruct a, p, n; simpl; tauto.
Qed.

Lemma row_sums_agree (x : list float) :
  Forall (fun v => isnan v = false) x ->
  sums_agree (series_sum (map fabs x))
             (series_sum (map (masked (fun v => fge v (Fin 0))) x))
             (series_sum (map (masked (fun v => fle v (Fin 0))) x)).
Proof.
  induction 1 as [|v x Hv Hx IH]; cbn [map].
  - simpl. ring.
  - rewrite !series_sum_cons. revert IH.
    generalize (series_sum (map fabs x))
               (series_sum (map (masked (fun v => fge v (Fin 0))) x))
               (series_sum (map (masked (fun v => fle v (Fin 0))) x)).
    intros a p n IH. destruct v as [q| | |]; try discriminate; cbn [fabs isnan].
    + unfold masked, fge, fle.
      destruct (Qle_bool 0 q) eqn:H0q, (Qle_bool q 0) eqn:Hq0; simpl;
        destruct a, p, n; simpl in *; try tauto;
        try apply Qle_bool_true in H0q; try apply Qle_bool_true in Hq0;
        try apply Qle_bool_false in H0q; try apply Qle_bool_false in Hq0.
      * assert (E : (q == 0)%Q) by lra. rewrite E, IH. simpl. ring.
      * rewrite Qabs_pos by exact H0q. rewrite IH. ring.
      * rewrite Qabs_neg by exact Hq0. rewrite IH. ring.
      * lra.
    + destruct a, p, n; simpl in *; tauto.
    + destruct a, p, n; simpl in *; tauto.
Qed.

Lemma mutToSiteDiffSel_rows (df : list DiffSelRow) (out : list SiteRow)
    (row : SiteRow) :
  mutToSiteDiffSel df = Ok out -> In row out ->
  let x := site_values df (s_site row) in
  row = mkSiteRow (s_site row)
          (series_sum (map fabs x))
          (series_sum (map (masked (fun v => fge v (Fin 0))) x))
          (series_sum (map (masked (fun v => fle v (Fin 0))) x))
          (series_max x) (series_min x).
Proof.
  unfold mutToSiteDiffSel, pivot. destruct (has_duplicates df); [discriminate|].
  cbn [bind]. intros H Hin. inversion H; subst. clear H.
  apply in_map_iff in Hin as (r & <- & Hr).
  apply in_map_iff in Hr as (s & <- & _). reflexivity.
Qed.

(** C6.  For every table that [mutToSiteDiffSel] accepts, and every row
    of its result: [positive_diffsel] is the sum of the values of the site
    that are [>= 0], [negative_diffsel] the sum of those that are [<= 0],
    the undefined values counting as 0 (a value 0 is in both sums), and
    [abs_diffsel] equals [positive_diffsel - negative_diffsel]. *)
Theorem abs_is_positive_minus_negative (df : list DiffSelRow)
    (out : list SiteRow) (row : SiteRow) :
  mutToSiteDiffSel df = Ok out -> In row out ->
  let x := site_values df (s_site row) in
  positive_diffsel row = series_sum (filter (fun v => fge v (Fin 0)) x)
  /\ negative_diffsel row = series_sum (filter (fun v => fle v (Fin 0)) x)
  /\ feq (abs_diffsel row)
         (fsub (positive_diffsel row) (negative_diffsel row)).
Proof.
  intros H Hin x. pose proof (mutToSiteDiffSel_rows df out row H Hin) as E.
  cbv zeta in E. fold x in E.
  pose proof (site_values_not_nan df (s_site row)) as Hx. fold x in Hx.
  rewrite E. cbn [positive_diffsel negative_diffsel abs_diffsel].
  repeat split.
  - now apply sum_masked.
  - now apply sum_masked.
  - apply sums_agree_feq, row_sums_agree, Hx.
Qed.

(** * Duplicate entries *)

Lemma same_entry_spec (r1 r2 : DiffSelRow) :
  same_entry r1 r2 = true <-> entry r1 = entry r2.
Proof.
  unfold same_entry, entry. rewrite andb_true_iff, Z.eqb_eq, String.eqb_eq.
  split; [intros [-> ->]; reflexivity|intros E; inversion E; auto].
Qed.

Lemma has_duplicates_false (df : list DiffSelRow) :
  has_duplicates df = false <-> NoDup (map entry df).
Proof.
  induction df as [|r df IH]; simpl.
  - split; [constructor|reflexivity].
  - rewrite orb_false_iff, IH, NoDup_cons_iff. split.
    + intros [H1 H2]. split; [|exact H2]. intros Hin.
      apply in_map_iff in Hin as (r' & E & Hr').
      assert (existsb (same_entry r) df = true); [|congruence].
      apply existsb_exists. exists r'. split; [exact Hr'|].
      now apply same_entry_spec.
    + intros [H1 H2]. split; [|exact H2].
      apply not_true_iff_false. intros H. apply H1.
      apply existsb_exists in H as (r' & Hr' & E).
      apply same_entry_spec in E. rewrite E. now apply in_map.
Qed.

(** C10.  [mutToSiteDiffSel] refuses a table that has two rows with the
    same site and the same mutation: the pivot raises the [ValueError] of
    pandas, and nothing is summed or dropped.  A table in which every
    (site, mutation) pair occurs once is accepted. *)
Theorem pivot_refuses_duplicates (df : list DiffSelRow) :
  ((exists l1 r1 l2 r2 l3,
       df = l1 ++ r1 :: l2 ++ r2 :: l3
       /\ d_site r1 = d_site r2 /\ d_mutation r1 = d_mutation r2)
   -> mutToSiteDiffSel df
      = Raise (ValueError "Index contains duplicate entries, cannot reshape"))
  /\ (NoDup (map entry df) -> exists out, mutToSiteDiffSel df = Ok out).
Proof.
  split.
  - intros (l1 & r1 & l2 & r2 & l3 & -> & Hs & Hm).
    unfold mutToSiteDiffSel, pivot.
    destruct (has_duplicates (l1 ++ r1 :: l2 ++ r2 :: l3)) eqn:E; [reflexivity|].
    exfalso. apply has_duplicates_false in E.
    rewrite map_app in E. cbn [map] in E. apply NoDup_remove_2 in E. apply E.
    apply in_or_app. right. rewrite map_app. apply in_or_app. right.
    left. unfold entry. congruence.
  - intros H. apply has_duplicates_false in H.
    unfold mutToSiteDiffSel, pivot. rewrite H. cbn [bind]. eexists. reflexivity.
Qed.

(** * The checks on the arguments *)

Section Checks.
Variable CODONS : list string.
Variable CODON_TO_AA : list (string * string).

Lemma computeMutDiffSel_returns (sel mock : CountTable) (chars : list string)
    (p : Q) (tr : bool) (err : option CountTable) (mincount : Q)
    (checked : CountTable * CountTable * option CountTable) (m : list Row) :
  check_tables sel mock chars p err = Ok checked ->
  prepare CODONS CODON_TO_AA (fst (fst checked)) (snd (fst checked)) chars tr
          (snd checked) = Ok m ->
  computeMutDiffSel CODONS CODON_TO_AA sel mock chars p tr err mincount
  = Ok (log2_rows (enrichments p mincount m)).
Proof.
  intros H1 H2. unfold computeMutDiffSel. rewrite H1. cbn [bind].
  rewrite H2. reflexivity.
Qed.

Lemma computeMutDiffSel_raises (sel mock : CountTable) (chars : list string)
    (p : Q) (tr : bool) (err : option CountTable) (mincount : Q) (e : exception) :
  check_tables sel mock chars p err = Raise e ->
  computeMutDiffSel CODONS CODON_TO_AA sel mock chars p tr err mincount = Raise e.
Proof. intros H. unfold computeMutDiffSel. now rewrite H. Qed.

(** What a passed check says about the two tables. *)
Lemma check_tables_inv (sel mock : CountTable) (chars : list string) (p : Q)
    (err : option CountTable)
    (checked : CountTable * CountTable * option CountTable) :
  check_tables sel mock chars p err = Ok checked ->
  Qltb 0 p = true
  /\ map cr_site (sorted_rows sel) = map cr_site (sorted_rows mock)
  /\ map cr_wildtype (sorted_rows sel) = map cr_wildtype (sorted_rows mock).
Proof.
  unfold check_tables.
  destruct (Qltb 0 p); [|discriminate]. cbn [assert bind].
  destruct (set_eqb (columns sel) _); [|discriminate]. cbn [assert bind].
  destruct (set_eqb (columns mock) _); [|discriminate]. cbn [assert bind].
  destruct (series_eq Z.eqb _ _) as [b1|] eqn:E1; [|discriminate]. cbn [bind].
  destruct (all b1) eqn:Hb1; [|discriminate]. cbn [assert bind].
  destruct (series_eq String.eqb _ _) as [b2|] eqn:E2; [|discriminate].
  cbn [bind].
  destruct (all b2) eqn:Hb2; [|discriminate]. intros _.
  apply series_eq_all in E1; [|apply Z.eqb_eq|exact Hb1].
  apply series_eq_all in E2; [|apply String.eqb_eq|exact Hb2].
  rewrite !site_column_snd in E1. rewrite !wildtype_column_snd in E2. auto.
Qed.

Lemma in_combine_map {A B C} (f : A -> B) (g : A -> C) (l : list A) (b : B) (c : C) :
  In (b, c) (combine (map f l) (map g l)) <->
  exists a, In a l /\ f a = b /\ g a = c.
Proof.
  induction l as [|x l IH]; simpl.
  - split; [tauto|intros (a & [] & _)].
  - rewrite IH. split.
    + intros [E|(a & Ha & E)].
      * inversion E; subst. exists x. auto.
      * exists a. auto.
    + intros (a & [<-|Ha] & <- & <-); [now left|right; eauto].
Qed.

(** With one row per site in [sel], a site that has different wildtypes in
    the two tables shows in the sorted columns. *)
Lemma wildtype_conflict (sel mock : CountTable) (rs rm : CountRow) :
  NoDup (map cr_site (table_rows sel)) ->
  In rs (table_rows sel) -> In rm (table_rows mock) ->
  cr_site rs = cr_site rm -> cr_wildtype rs <> cr_wildtype rm ->
  map cr_site (sorted_rows sel) <> map cr_site (sorted_rows mock)
  \/ map cr_wildtype (sorted_rows sel) <> map cr_wildtype (sorted_rows mock).
Proof.
  intros Hn Hrs Hrm Es Hw.
  destruct (list_eq_dec Z.eq_dec (map cr_site (sorted_rows sel))
                        (map cr_site (sorted_rows mock))) as [E1|N1];
    [|now left].
  right. intros E2. apply Hw.
  assert (Hm : In (cr_site rm, cr_wildtype rm)
                  (combine (map cr_site (sorted_rows mock))
                           (map cr_wildtype (sorted_rows mock)))).
  { apply in_combine_map. exists rm. split; [|auto].
    apply (Permutation_in _ (Permutation_sym (sorted_rows_perm mock))), Hrm. }
  rewrite <- E1, <- E2 in Hm. apply in_combine_map in Hm as (r' & Hr' & E & E').
  assert (r' = rs).
  { eapply NoDup_map_inj; [apply sorted_rows_NoDup, Hn|exact Hr'| |congruence].
    apply (Permutation_in _ (Permutation_sym (sorted_rows_perm sel))), Hrs. }
  subst r'. exact E'.
Qed.

(** C8.  When the sites of [sel] and [mock], sorted by site, are not the
    same sequence, or their wildtypes are not, or a site they share has
    two wildtypes (the sites of [sel] being unique), [computeMutDiffSel]
    raises, and it is [check_tables], which runs before any count is
    read, that raises.  With a positive pseudocount and the expected
    columns, the error is the assertion on the sites, the assertion on
    the wildtypes, or the refusal of pandas to compare two series whose
    labels differ. *)
Theorem misaligned_tables_raise (sel mock : CountTable) (chars : list string)
    (p : Q) (tr : bool) (err : option CountTable) (mincount : Q) :
  map cr_site (sorted_rows sel) <> map cr_site (sorted_rows mock)
  \/ map cr_wildtype (sorted_rows sel) <> map cr_wildtype (sorted_rows mock)
  \/ (NoDup (map cr_site (table_rows sel))
      /\ exists rs rm, In rs (table_rows sel) /\ In rm (table_rows mock)
           /\ cr_site rs = cr_site rm /\ cr_wildtype rs <> cr_wildtype rm) ->
  exists e,
    check_tables sel mock chars p err = Raise e
    /\ computeMutDiffSel CODONS CODON_TO_AA sel mock chars p tr err mincount
       = Raise e
    /\ ((0 < p)%Q ->
        set_eqb (columns sel) ("site" :: "wildtype" :: chars) = true ->
        set_eqb (columns mock) ("site" :: "wildtype" :: chars) = true ->
        e = AssertionError "Inconsistent sites"
        \/ e = AssertionError "Inconsistent wildtype"
        \/ e = ValueError "Can only compare identically-labeled Series objects").
Proof.
  intros H.
  assert (H' : map cr_site (sorted_rows sel) <> map cr_site (sorted_rows mock)
     \/ map cr_wildtype (sorted_rows sel) <> map cr_wildtype (sorted_rows mock)).
  { destruct H as [H|[H|(Hn & rs & rm & Hrs & Hrm & Es & Hw)]]; auto.
    eapply wildtype_conflict; eauto. }
  destruct (check_tables sel mock chars p err) as [c|e] eqn:E.
  - apply check_tables_inv in E as (_ & E1 & E2). tauto.
  - exists e. split; [reflexivity|]. split; [now apply computeMutDiffSel_raises|].
    intros Hp Hcs Hcm. apply Qltb_true in Hp. unfold check_tables in E.
    rewrite Hp, Hcs, Hcm in E. cbn [assert bind] in E.
    destruct (series_eq Z.eqb _ _) as [b1|e1] eqn:E1.
    2:{ cbn [bind] in E. unfold series_eq in E1.
        destruct (list_eqb Z.eqb _ _); [discriminate|]. right. right. congruence. }
    cbn [bind] in E. destruct (all b1) eqn:Hb1; cbn [assert bind] in E;
      [|left; congruence].
    destruct (series_eq String.eqb _ _) as [b2|e2] eqn:E2.
    2:{ cbn [bind] in E. unfold series_eq in E2.
        destruct (list_eqb Z.eqb _ _); [discriminate|]. right. right. congruence. }
    cbn [bind] in E. destruct (all b2) eqn:Hb2; cbn [assert bind] in E;
      [|right; left; congruence].
    exfalso.
    apply series_eq_all in E1; [|apply Z.eqb_eq|exact Hb1].
    apply series_eq_all in E2; [|apply String.eqb_eq|exact Hb2].
    rewrite !site_column_snd in E1. rewrite !wildtype_column_snd in E2. tauto.
Qed.

(** C9, as the code has it.  [mincount] is not validated: whether
    [computeMutDiffSel] raises, and with which error, is the same for any
    two values of [mincount], negative or fractional ones included.  A
    pseudocount that is not positive does fail the assertion of line 43. *)
Theorem mincount_is_not_checked (sel mock : CountTable) (chars : list string)
    (p : Q) (tr : bool) (err : option CountTable) (mincount mincount' : Q) :
  (forall e,
      computeMutDiffSel CODONS CODON_TO_AA sel mock chars p tr err mincount
      = Raise e
      <-> computeMutDiffSel CODONS CODON_TO_AA sel mock chars p tr err mincount'
          = Raise e)
  /\ ((p <= 0)%Q ->
      computeMutDiffSel CODONS CODON_TO_AA sel mock chars p tr err mincount
      = Raise (AssertionError "")).
Proof.
  split.
  - intros e. unfold computeMutDiffSel.
    destruct (check_tables sel mock chars p err) as [c|e1]; cbn [bind];
      [|tauto].
    destruct (prepare _ _ _ _ _ _ _) as [m|e2]; cbn [bind]; [|tauto].
    split; discriminate.
  - intros Hp. apply computeMutDiffSel_raises. unfold check_tables.
    apply Qltb_false in Hp. now rewrite Hp.
Qed.

(** The assertion of line 82 holds whatever the counts are. *)
Lemma wildtype_assertion_passes (m : list (Row * (float * float))) :
  all_frame (wildtype_rows_gt_0 m) = true.
Proof. reflexivity. Qed.

Lemma error_correction_returns (m : list Row) (e : ErrColumns) :
  error_correction m e
  = Ok (map fst (correct_sample mock_sample (correct_sample sel_sample
          (combine m (map (fun x => fdiv (fst x) (snd x)) e))))).
Proof. reflexivity. Qed.

End Checks.

(** * Pseudocounts and enrichment *)

Lemma Qeq_bool_false_pos (q : Q) : (0 < q)%Q -> Qeq_bool q 0 = false.
Proof.
  intros H. apply not_true_iff_false. intros E. apply Qeq_bool_iff in E. lra.
Qed.

Lemma of_int_nonneg (z : Z) : 0 <= z -> nonneg (of_int z).
Proof.
  intros H. exists (inject_Z z). split; [reflexivity|].
  change 0%Q with (inject_Z 0). now rewrite <- Zle_Qle.
Qed.

Lemma of_int_positive (z : Z) : 0 < z -> positive (of_int z).
Proof.
  intros H. exists (inject_Z z). split; [reflexivity|].
  change 0%Q with (inject_Z 0). now rewrite <- Zlt_Qlt.
Qed.

Lemma depth_ratio_ge_1 (a b : Q) : (1 <= depth_ratio a b)%Q.
Proof.
  unfold depth_ratio. destruct (Qle_bool 1 (a / b)) eqn:E.
  - now apply Qle_bool_true.
  - lra.
Qed.

Lemma pseudo_term_positive (p a b : Q) :
  (0 < b)%Q ->
  pseudo_term p (Fin a) (Fin b) = Fin (p * depth_ratio a b).
Proof.
  intros Hb. unfold pseudo_term, depth_ratio. simpl.
  rewrite (Qeq_bool_false_pos b Hb). simpl.
  destruct (Qle_bool 1 (a / b)); reflexivity.
Qed.

Lemma pseudo_term_cases (p : Q) (N1 N2 : float) :
  (0 < p)%Q -> nonneg N1 -> nonneg N2 -> pos_or_special (pseudo_term p N1 N2).
Proof.
  intros Hp (a & -> & Ha) (b & -> & Hb).
  destruct (Qlt_le_dec 0 b) as [Hb'|Hb'].
  - rewrite pseudo_term_positive by exact Hb'. right. right.
    eexists. split; [reflexivity|].
    pose proof (depth_ratio_ge_1 a b). nra.
  - unfold pseudo_term. simpl.
    assert (E : Qeq_bool b 0 = true) by (apply Qeq_bool_iff; lra).
    rewrite E. unfold scale_inf.
    destruct (Qltb 0 a) eqn:H0a; simpl.
    + unfold scale_inf. apply Qltb_true in Hp. rewrite Hp. right. now left.
    + assert (Ea : Qltb a 0 = false) by (now apply Qltb_false).
      rewrite Ea. now left.
Qed.

(** One side of the enrichment: a count with its pseudocount over the
    wildtype's count with the same pseudocount. *)
Lemma side_cases (n w t : float) :
  nonneg n -> nonneg w -> pos_or_special t ->
  fdiv (fadd n t) (fadd w t) = NaN \/ positive (fdiv (fadd n t) (fadd w t)).
Proof.
  intros (a & -> & Ha) (b & -> & Hb) [->|[->|(c & -> & Hc)]]; simpl; auto.
  right. rewrite Qeq_bool_false_pos by lra. eexists. split; [reflexivity|].
  apply Qlt_shift_div_l; lra.
Qed.

Lemma side_positive (a b c : Q) :
  (0 <= a)%Q -> (0 <= b)%Q -> (0 < c)%Q ->
  fdiv (fadd (Fin a) (Fin c)) (fadd (Fin b) (Fin c)) = Fin ((a + c) / (b + c))
  /\ (0 < (a + c) / (b + c))%Q.
Proof.
  intros Ha Hb Hc. simpl. rewrite Qeq_bool_false_pos by lra. split; [reflexivity|].
  apply Qlt_shift_div_l; lra.
Qed.

Lemma fdiv_positive (a b : Q) :
  (0 < a)%Q -> (0 < b)%Q -> fdiv (Fin a) (Fin b) = Fin (a / b) /\ (0 < a / b)%Q.
Proof.
  intros Ha Hb. simpl. rewrite Qeq_bool_false_pos by lra. split; [reflexivity|].
  apply Qlt_shift_div_l; lra.
Qed.

(** ** The logarithm *)

Lemma xlog2_positive (q : Q) : (0 < q)%Q -> xlog2 (Fin q) = RFin (log2 (Q2R q)).
Proof. intros H. simpl. apply Qltb_true in H. now rewrite H. Qed.

Lemma ln_2_pos : (0 < ln 2)%R.
Proof. rewrite <- ln_1. apply ln_increasing; lra. Qed.

Lemma log2_inv (x : R) : (0 < x)%R -> log2 (/ x) = (- log2 x)%R.
Proof.
  intros H. unfold log2. rewrite ln_Rinv by exact H.
  pose proof ln_2_pos. field. lra.
Qed.

Lemma log2_le (x y : R) : (0 < x)%R -> (x <= y)%R -> (log2 x <= log2 y)%R.
Proof.
  intros Hx [Hlt|E]; [|subst; lra]. unfold log2.
  pose proof ln_2_pos as H2. pose proof (ln_increasing x y Hx Hlt).
  apply Rmult_le_compat_r; [|lra]. left. now apply Rinv_0_lt_compat.
Qed.

Lemma log2_1 : log2 1 = 0%R.
Proof. unfold log2. rewrite ln_1. pose proof ln_2_pos. field. lra. Qed.

Lemma Q2R_pos (q : Q) : (0 < q)%Q -> (0 < Q2R q)%R.
Proof. intros H. apply Qlt_Rlt in H. now rewrite RMicromega.Q2R_0 in H. Qed.

(** Exchanging the two sides of an enrichment negates its logarithm. *)
Lemma xlog2_swap (A B : float) :
  A = NaN \/ positive A -> B = NaN \/ positive B ->
  xlog2 (fdiv B A) = xopp (xlog2 (fdiv A B)).
Proof.
  intros [->|(a & -> & Ha)] [->|(b & -> & Hb)]; try reflexivity.
  destruct (fdiv_positive a b Ha Hb) as [-> Hab].
  destruct (fdiv_positive b a Hb Ha) as [-> Hba].
  rewrite !xlog2_positive by assumption. simpl. f_equal.
  rewrite <- log2_inv by now apply Q2R_pos.
  f_equal. rewrite <- Q2R_inv by lra. apply Qeq_eqR. field. lra.
Qed.

(** ** The rows of the enrichment table *)

Lemma In_enrichments (p mincount : Q) (m : list Row) (x : Row * float) :
  In x (enrichments p mincount m) <->
  exists r w, In r m /\ In w m /\ is_wildtype w = true /\ site w = site r
    /\ x = (r, enrichment mincount
                 (add_pseudocounts p r, snd (add_pseudocounts p w))).
Proof.
  unfold enrichments, merge_wildtype. rewrite in_map_iff. split.
  - intros (y & <- & Hy). apply in_flat_map in Hy as (pr & Hpr & Hy).
    apply in_map_iff in Hy as (pw & <- & Hpw).
    apply filter_In in Hpw as (Hpw & Es). apply filter_In in Hpw as (Hpw & Hwt).
    apply in_map_iff in Hpr as (r & <- & Hr).
    apply in_map_iff in Hpw as (w & <- & Hw).
    exists r, w. apply Z.eqb_eq in Es. simpl in *. auto.
  - intros (r & w & Hr & Hw & Hwt & Es & ->).
    exists (add_pseudocounts p r, snd (add_pseudocounts p w)).
    split; [reflexivity|]. apply in_flat_map.
    exists (add_pseudocounts p r). split; [now apply in_map|].
    apply in_map_iff. exists (add_pseudocounts p w). split; [reflexivity|].
    apply filter_In. split.
    + apply filter_In. split; [now apply in_map|exact Hwt].
    + simpl. now apply Z.eqb_eq.
Qed.

Lemma In_log2_rows (p mincount : Q) (m : list Row) (o : OutRow) :
  In o (log2_rows (enrichments p mincount m)) <->
  exists r w, In r m /\ In w m /\ is_wildtype w = true /\ site w = site r
    /\ o = mkOutRow (site r) (wildtype r) (mutation r)
                    (xlog2 (row_enrichment p mincount r w)).
Proof.
  unfold log2_rows. rewrite in_map_iff. split.
  - intros (x & <- & Hx). apply In_enrichments in Hx as (r & w & ? & ? & ? & ? & ->).
    exists r, w. simpl. auto.
  - intros (r & w & Hr & Hw & Hwt & Es & ->).
    exists (r, row_enrichment p mincount r w). split; [reflexivity|].
    apply In_enrichments. exists r, w. auto.
Qed.

Lemma row_enrichment_masked (p mincount : Q) (r w : Row) :
  not_masked mincount r = false -> row_enrichment p mincount r w = NaN.
Proof. intros H. unfold row_enrichment, enrichment. simpl. now rewrite H. Qed.

Lemma row_enrichment_unmasked (p mincount : Q) (r w : Row) :
  not_masked mincount r = true ->
  row_enrichment p mincount r w
  = fdiv (fdiv (fadd (nsel r) (pseudo_term p (Nsel r) (Nmock r)))
               (fadd (nsel w) (pseudo_term p (Nsel w) (Nmock w))))
         (fdiv (fadd (nmock r) (pseudo_term p (Nmock r) (Nsel r)))
               (fadd (nmock w) (pseudo_term p (Nmock w) (Nsel w)))).
Proof. intros H. unfold row_enrichment, enrichment. simpl. now rewrite H. Qed.

(** * The table the pseudocounts are added to *)

Lemma prepare_ok (CODONS : list string) (CODON_TO_AA : list (string * string))
    (chars : list string) (sel mock : CountTable) (tr : bool) :
  table_ok chars sel -> table_ok chars mock -> aligned sel mock = true ->
  (tr = true -> set_eqb chars CODONS = true) ->
  prepare CODONS CODON_TO_AA (sort_by_site sel) (sort_by_site mock) chars tr None
  = Ok (prepared CODON_TO_AA tr sel mock).
Proof.
  intros Hs Hm Ha Hc. unfold prepare.
  rewrite (make_melted_ok chars sel mock Hs Hm Ha). cbn [bind snd fst].
  destruct tr; [|reflexivity]. rewrite (Hc eq_refl). reflexivity.
Qed.

(** ** Rows of the joined table *)

Lemma in_combine_sorted (sel mock : CountTable) (p : CountRow * CountRow) :
  In p (combine (sorted_rows sel) (sorted_rows mock)) ->
  In (fst p) (table_rows sel) /\ In (snd p) (table_rows mock).
Proof.
  destruct p as [rs rm]. intros H. split.
  - apply in_combine_l in H. apply (Permutation_in _ (sorted_rows_perm sel)), H.
  - apply in_combine_r in H. apply (Permutation_in _ (sorted_rows_perm mock)), H.
Qed.

Lemma In_joined_table (sel mock : CountTable) (r : Row) :
  In r (joined_table sel mock) <->
  exists p c, In p (combine (sorted_rows sel) (sorted_rows mock))
              /\ In c (sorted_vars sel) /\ r = joined_cell sel mock p c.
Proof.
  unfold joined_table. rewrite in_flat_map. split.
  - intros (p & Hp & Hr). apply in_map_iff in Hr as (c & <- & Hc). eauto.
  - intros (p & c & Hp & Hc & ->). exists p. split; [exact Hp|].
    now apply in_map.
Qed.

Lemma pairs_sites_unique (chars : list string) (sel mock : CountTable) :
  table_ok chars sel -> aligned sel mock = true ->
  NoDup (map (fun p : CountRow * CountRow => cr_site (fst p))
             (combine (sorted_rows sel) (sorted_rows mock))).
Proof.
  intros Hs Ha.
  rewrite <- (map_map fst cr_site).
  rewrite map_fst_combine by now apply aligned_length.
  apply sorted_rows_NoDup, (ok_sites_unique _ _ Hs).
Qed.

Lemma find_unique {A} (key : A -> Z) (l : list A) (r : A) :
  NoDup (map key l) -> In r l -> find (fun x => key x =? key r) l = Some r.
Proof.
  induction l as [|x l IH]; simpl; intros Hn Hr.
  - contradiction.
  - inversion Hn as [|? ? Hx Hn']; subst. destruct Hr as [->|Hr].
    + now rewrite Z.eqb_refl.
    + destruct (key x =? key r) eqn:E.
      * apply Z.eqb_eq in E. exfalso. apply Hx. rewrite E. now apply in_map.
      * now apply IH.
Qed.

Lemma row_of_site_unique (chars : list string) (df : CountTable) (r : CountRow) :
  table_ok chars df -> In r (table_rows df) ->
  row_of_site df (cr_site r) = Some r.
Proof.
  intros H Hr. unfold row_of_site. apply find_unique; [|exact Hr].
  apply (ok_sites_unique _ _ H).
Qed.

Lemma Permutation_filter {A} (f : A -> bool) (l1 l2 : list A) :
  Permutation l1 l2 -> Permutation (filter f l1) (filter f l2).
Proof.
  induction 1 as [|x l1 l2 Hp IH|x y l|l1 l2 l3 H1 IH1 H2 IH2]; simpl.
  - constructor.
  - destruct (f x); [now constructor|exact IH].
  - destruct (f x), (f y); try apply Permutation_refl. apply perm_swap.
  - eapply perm_trans; eauto.
Qed.

Lemma series_sum_of_int (f : string -> Z) (cs : list string) :
  exists q, series_sum (map (fun c => of_int (f c)) cs) = Fin q
            /\ (q == inject_Z (Zsum (map f cs)))%Q.
Proof.
  induction cs as [|c cs (q & E & Hq)]; cbn [map].
  - exists 0%Q. split; reflexivity.
  - rewrite series_sum_cons, E. simpl. eexists. split; [reflexivity|].
    rewrite Hq, inject_Z_plus. reflexivity.
Qed.

Lemma Zsum_filter_eq (f : string -> Z) (l : list string) (c : string) :
  NoDup l -> In c l ->
  Zsum (map f (filter (fun c' => (c' =? c)%string) l)) = f c.
Proof.
  induction l as [|x l IH]; simpl; intros Hn Hc.
  - contradiction.
  - inversion Hn as [|? ? Hx Hn']; subst. destruct Hc as [->|Hc].
    + rewrite String.eqb_refl. simpl. rewrite filter_none; [simpl; lia|].
      intros y Hy. apply String.eqb_neq. intros ->. contradiction.
    + destruct (String.eqb_spec x c) as [->|N]; [contradiction|]. now apply IH.
Qed.

(** ** Groups of the translated table *)

Lemma string_compare_eqb (a b : string) :
  match String.compare a b with Eq => true | _ => false end = (a =? b)%string.
Proof.
  destruct (String.eqb_spec a b) as [->|N].
  - now rewrite string_compare_refl.
  - destruct (String.compare a b) eqn:E; try reflexivity.
    apply String.compare_eq_iff in E. contradiction.
Qed.

Lemma float_compare_refl (x : float) : isnan x = false -> float_compare x x = Eq.
Proof.
  destruct x; simpl; try reflexivity; try discriminate.
  intros _. apply Qeq_alt. reflexivity.
Qed.

Lemma lex_eq (c1 c2 : comparison) : lex c1 c2 = Eq <-> c1 = Eq /\ c2 = Eq.
Proof. destruct c1, c2; simpl; intuition discriminate. Qed.

Lemma same_group_site (x y : Row) : same_group x y = true -> site x = site y.
Proof.
  unfold same_group, group_compare.
  destruct (site x ?= site y) eqn:E; simpl; try discriminate.
  intros _. now apply Z.compare_eq.
Qed.

Lemma same_group_block (x y : Row) :
  site x = site y -> wildtype x = wildtype y ->
  Nsel x = Nsel y -> Nmock x = Nmock y ->
  isnan (Nsel x) = false -> isnan (Nmock x) = false ->
  same_group x y = (mutation x =? mutation y)%string.
Proof.
  intros E1 E2 E3 E4 H3 H4. unfold same_group, group_compare.
  rewrite E1, E2, <- E3, <- E4, Z.compare_refl, string_compare_refl.
  rewrite !float_compare_refl by assumption. simpl.
  rewrite <- string_compare_eqb.
  destruct (String.compare (mutation x) (mutation y)); reflexivity.
Qed.

Lemma filter_map_comm {A B} (f : A -> B) (p : B -> bool) (l : list A) :
  filter p (map f l) = map f (filter (fun x => p (f x)) l).
Proof.
  induction l as [|x l IH]; simpl.
  - reflexivity.
  - destruct (p (f x)); simpl; now rewrite IH.
Qed.

Lemma filter_narrow {A} (p q : A -> bool) (l : list A) :
  (forall x, p x = true -> q x = true) -> filter p l = filter p (filter q l).
Proof.
  intros H. induction l as [|x l IH]; simpl.
  - reflexivity.
  - destruct (p x) eqn:Px.
    + rewrite (H x Px). simpl. now rewrite Px, IH.
    + destruct (q x); simpl; [rewrite Px|]; exact IH.
Qed.

Lemma In_unique {A} (eqb : A -> A -> bool) (l : list A) (x : A) :
  In x (unique eqb l) -> In x l.
Proof.
  revert x. induction l as [|y l IH]; simpl; intros x.
  - tauto.
  - intros [->|H]; [now left|]. right. apply IH. apply filter_In in H. tauto.
Qed.

Lemma In_groupby_sum (m : list Row) (x : Row) :
  In x (groupby_sum m) ->
  let rows := filter (fun r => negb (isnan (Nsel r)) && negb (isnan (Nmock r))) m in
  exists k, In k rows
    /\ x = mkRow (site k) (wildtype k) (mutation k)
                 (series_sum (map nsel (filter (same_group k) rows))) (Nsel k)
                 (series_sum (map nmock (filter (same_group k) rows))) (Nmock k).
Proof.
  unfold groupby_sum. intros H. apply in_map_iff in H as (k & <- & Hk).
  apply In_sort_values, In_unique in Hk. exists k. split; [exact Hk|reflexivity].
Qed.

Section Prepared.
Variable CODON_TO_AA : list (string * string).
Variable chars : list string.
Variables sel mock : CountTable.
Hypothesis sel_ok : table_ok chars sel.
Hypothesis mock_ok : table_ok chars mock.
Hypothesis tables_aligned : aligned sel mock = true.

Let T := replace CODON_TO_AA.
Let J := joined_table sel mock.

Lemma translated_rows_kept :
  filter (fun r => negb (isnan (Nsel r)) && negb (isnan (Nmock r)))
         (map (translate_row CODON_TO_AA) J)
  = map (translate_row CODON_TO_AA) J.
Proof.
  apply filter_all. intros x Hx. apply in_map_iff in Hx as (r & <- & Hr).
  apply In_joined_table in Hr as (p & c & _ & _ & ->). reflexivity.
Qed.

(** The rows that fall in the group of a cell: the cells of the same site
    whose character has the same translation. *)
Lemma group_of_cell (p0 : CountRow * CountRow) (c0 : string) :
  In p0 (combine (sorted_rows sel) (sorted_rows mock)) ->
  filter (same_group (translate_row CODON_TO_AA (joined_cell sel mock p0 c0)))
         (map (translate_row CODON_TO_AA) J)
  = map (translate_row CODON_TO_AA)
        (map (joined_cell sel mock p0)
             (filter (fun c => (T c0 =? T c)%string) (sorted_vars sel))).
Proof.
  intros Hp0. rewrite filter_map_comm. f_equal.
  set (k := translate_row CODON_TO_AA (joined_cell sel mock p0 c0)).
  rewrite (filter_narrow _ (fun x => site x =? cr_site (fst p0))).
  - unfold J, joined_table.
    rewrite (filter_key_flat_map (fun p : CountRow * CountRow => cr_site (fst p)) site).
    + rewrite filter_map_comm. f_equal. apply filter_ext. intros c.
      unfold k. apply same_group_block; reflexivity.
    + eapply pairs_sites_unique; eauto.
    + exact Hp0.
    + intros a b _ Hb. apply in_map_iff in Hb as (c & <- & _). reflexivity.
  - intros x Hx. apply same_group_site in Hx. simpl in Hx. apply Z.eqb_eq.
    now symmetry.
Qed.

End Prepared.

Section PreparedRows.
Variable CODON_TO_AA : list (string * string).
Variable chars : list string.
Variables sel mock : CountTable.
Hypothesis sel_ok : table_ok chars sel.
Hypothesis mock_ok : table_ok chars mock.
Hypothesis tables_aligned : aligned sel mock = true.

Lemma in_sorted_vars (df : CountTable) (c : string) :
  In c (sorted_vars df) <-> In c (value_vars df).
Proof. apply In_sort_values. Qed.

Lemma Zsum_filter_sorted (df : CountTable) (f : string -> Z) (g : string -> bool) :
  Zsum (map f (filter g (sorted_vars df)))
  = Zsum (map f (filter g (value_vars df))).
Proof.
  apply Zsum_perm, Permutation_map, Permutation_filter, sorted_vars_perm.
Qed.

Lemma joined_cell_counts (p : CountRow * CountRow) (c : string) :
  In p (combine (sorted_rows sel) (sorted_rows mock)) ->
  In c (sorted_vars sel) ->
  row_counts sel mock (fun c => c) (joined_cell sel mock p c) (fst p) (snd p).
Proof.
  intros Hp Hc.
  destruct (in_combine_sorted _ _ _ Hp) as [Hrs Hrm].
  destruct (aligned_combine _ _ _ tables_aligned Hp) as (_ & Es & Ew).
  pose proof (row_of_site_unique chars sel _ sel_ok Hrs) as Fs.
  pose proof (row_of_site_unique chars mock _ mock_ok Hrm) as Fm.
  rewrite <- Es in Fm.
  assert (Hc' : In c (sorted_vars mock))
    by (now rewrite <- (sorted_vars_eq chars sel mock)).
  apply in_sorted_vars in Hc, Hc'.
  split; simpl; auto.
  - eexists. split; [reflexivity|]. unfold mutation_count. rewrite Fs.
    rewrite Zsum_filter_eq; [reflexivity| |exact Hc].
    apply (value_vars_unique _ _ sel_ok).
  - eexists. split; [reflexivity|]. unfold mutation_count. rewrite Fm.
    rewrite Zsum_filter_eq; [reflexivity| |exact Hc'].
    apply (value_vars_unique _ _ mock_ok).
  - unfold total_count. now rewrite Fs.
  - unfold total_count. now rewrite Fm.
Qed.

Lemma group_count (df : CountTable) (r : CountRow) (c0 : string) (s : Z) :
  row_of_site df s = Some r ->
  Zsum (map (cr_count r)
         (filter (fun c => (replace CODON_TO_AA c0 =? replace CODON_TO_AA c)%string)
                 (sorted_vars df)))
  = mutation_count (replace CODON_TO_AA) df s (replace CODON_TO_AA c0).
Proof.
  intros E. unfold mutation_count. rewrite E, Zsum_filter_sorted.
  f_equal. f_equal. apply filter_ext. intros c. apply String.eqb_sym.
Qed.

Lemma translated_cell_counts (r : Row) :
  In r (translate CODON_TO_AA (joined_table sel mock)) ->
  exists rs rm, row_counts sel mock (replace CODON_TO_AA) r rs rm.
Proof.
  intros Hr. unfold translate in Hr. apply In_groupby_sum in Hr.
  cbv zeta in Hr. rewrite translated_rows_kept in Hr.
  destruct Hr as (k & Hk & ->).
  apply in_map_iff in Hk as (j & <- & Hj).
  apply In_joined_table in Hj as (p & c0 & Hp & Hc0 & ->).
  rewrite (group_of_cell CODON_TO_AA chars sel mock sel_ok tables_aligned p c0 Hp).
  destruct (in_combine_sorted _ _ _ Hp) as [Hrs Hrm].
  destruct (aligned_combine _ _ _ tables_aligned Hp) as (_ & Es & Ew).
  pose proof (row_of_site_unique chars sel _ sel_ok Hrs) as Fs.
  pose proof (row_of_site_unique chars mock _ mock_ok Hrm) as Fm.
  rewrite <- Es in Fm.
  exists (fst p), (snd p). split; simpl; auto.
  - rewrite !map_map. simpl.
    destruct (series_sum_of_int (cr_count (fst p))
                (filter (fun c => (replace CODON_TO_AA c0 =? replace CODON_TO_AA c)%string)
                        (sorted_vars sel))) as (q & -> & Hq).
    exists q. split; [reflexivity|].
    now rewrite (group_count sel (fst p) c0 _ Fs) in Hq.
  - rewrite !map_map. simpl.
    destruct (series_sum_of_int (cr_count (snd p))
                (filter (fun c => (replace CODON_TO_AA c0 =? replace CODON_TO_AA c)%string)
                        (sorted_vars sel))) as (q & -> & Hq).
    exists q. split; [reflexivity|].
    rewrite (sorted_vars_eq chars sel mock sel_ok mock_ok) in Hq.
    now rewrite (group_count mock (snd p) c0 _ Fm) in Hq.
  - unfold total_count. now rewrite Fs.
  - unfold total_count. now rewrite Fm.
Qed.

Lemma prepared_rows (tr : bool) (r : Row) :
  In r (prepared CODON_TO_AA tr sel mock) ->
  exists rs rm, row_counts sel mock (translation CODON_TO_AA tr) r rs rm.
Proof.
  destruct tr; simpl.
  - apply translated_cell_counts.
  - intros Hr. apply In_joined_table in Hr as (p & c & Hp & Hc & ->).
    exists (fst p), (snd p). now apply joined_cell_counts.
Qed.

Lemma mutation_count_nonneg (tr : string -> string) (df : CountTable)
    (s : Z) (a : string) :
  table_ok chars df -> 0 <= mutation_count tr df s a.
Proof.
  intros Hdf. unfold mutation_count, row_of_site.
  destruct (find _ _) as [r|] eqn:E; [|lia].
  apply find_some in E as [Hr _]. apply Zsum_nonneg. intros z Hz.
  apply in_map_iff in Hz as (c & <- & Hc). apply filter_In in Hc as [Hc _].
  now apply (ok_counts _ _ Hdf).
Qed.

Lemma total_count_nonneg (df : CountTable) (s : Z) :
  table_ok chars df -> 0 <= total_count df s.
Proof.
  intros Hdf. unfold total_count, row_of_site.
  destruct (find _ _) as [r|] eqn:E; [|lia].
  apply find_some in E as [Hr _]. apply Zsum_nonneg. intros z Hz.
  apply in_map_iff in Hz as (c & <- & Hc).
  now apply (ok_counts _ _ Hdf).
Qed.

Lemma total_count_positive (df : CountTable) (r : CountRow) (s : Z) :
  positive_totals df = true -> row_of_site df s = Some r -> 0 < total_count df s.
Proof.
  intros Hp E. unfold total_count. rewrite E.
  unfold positive_totals in Hp. rewrite forallb_forall in Hp.
  apply Z.ltb_lt, Hp. unfold row_of_site in E. now apply find_some in E.
Qed.

End PreparedRows.

Section Defined.
Variable CODONS : list string.
Variable CODON_TO_AA : list (string * string).

Lemma computeMutDiffSel_prepared (sel mock : CountTable) (chars : list string)
    (p : Q) (tr : bool) (mincount : Q) :
  valid_table chars sel = true -> valid_table chars mock = true ->
  aligned sel mock = true -> (0 < p)%Q ->
  (tr = true -> set_eqb chars CODONS = true) ->
  computeMutDiffSel CODONS CODON_TO_AA sel mock chars p tr None mincount
  = Ok (log2_rows (enrichments p mincount (prepared CODON_TO_AA tr sel mock))).
Proof.
  intros Hs Hm Ha Hp Hc.
  apply valid_table_ok in Hs, Hm. apply Qltb_true in Hp.
  eapply computeMutDiffSel_returns.
  - now apply check_tables_ok.
  - cbn [fst snd]. now apply prepare_ok.
Qed.

(** The mask of lines 119-120 on a row of the table, in terms of the
    counts of the two tables. *)
Lemma not_masked_counts (chars : list string) (sel mock : CountTable)
    (tr : string -> string) (mincount : Q) (r : Row) (rs rm : CountRow) :
  row_counts sel mock tr r rs rm ->
  not_masked mincount r = false <->
  mutation r = wildtype r
  \/ ((inject_Z (mutation_count tr sel (site r) (mutation r)) < mincount)%Q
      /\ (inject_Z (mutation_count tr mock (site r) (mutation r)) < mincount)%Q).
Proof.
  intros Hr. destruct (rc_nsel _ _ _ _ _ _ Hr) as (qs & Es & Hqs).
  destruct (rc_nmock _ _ _ _ _ _ Hr) as (qm & Em & Hqm).
  unfold not_masked, is_wildtype, fge. rewrite Es, Em. simpl.
  rewrite andb_false_iff, negb_false_iff, orb_false_iff, String.eqb_eq.
  rewrite !Qle_bool_false, Hqs, Hqm. reflexivity.
Qed.

Lemma row_enrichment_positive (chars : list string) (sel mock : CountTable)
    (tr : string -> string) (p mincount : Q) (r w : Row)
    (rs rm ws wm : CountRow) :
  table_ok chars sel -> table_ok chars mock ->
  positive_totals sel = true -> positive_totals mock = true -> (0 < p)%Q ->
  row_counts sel mock tr r rs rm -> row_counts sel mock tr w ws wm ->
  site w = site r -> not_masked mincount r = true ->
  positive (row_enrichment p mincount r w).
Proof.
  intros Hs Hm Ps Pm Hp Hr Hw Esite Hmask.
  rewrite row_enrichment_unmasked by exact Hmask.
  destruct (rc_nsel _ _ _ _ _ _ Hr) as (qs & Es & Hqs).
  destruct (rc_nmock _ _ _ _ _ _ Hr) as (qm & Em & Hqm).
  destruct (rc_nsel _ _ _ _ _ _ Hw) as (vs & Evs & Hvs).
  destruct (rc_nmock _ _ _ _ _ _ Hw) as (vm & Evm & Hvm).
  rewrite (rc_Nsel _ _ _ _ _ _ Hw), (rc_Nmock _ _ _ _ _ _ Hw), Esite.
  rewrite (rc_Nsel _ _ _ _ _ _ Hr), (rc_Nmock _ _ _ _ _ _ Hr).
  rewrite Es, Em, Evs, Evm.
  pose proof (total_count_positive sel rs (site r) Ps (rc_sel_in _ _ _ _ _ _ Hr)) as Ts.
  pose proof (total_count_positive mock rm (site r) Pm (rc_mock_in _ _ _ _ _ _ Hr)) as Tm.
  destruct (of_int_positive _ Ts) as (Ns & ENs & HNs).
  destruct (of_int_positive _ Tm) as (Nm & ENm & HNm).
  rewrite ENs, ENm. rewrite !pseudo_term_positive by assumption.
  pose proof (depth_ratio_ge_1 Ns Nm) as D1.
  pose proof (depth_ratio_ge_1 Nm Ns) as D2.
  assert (0 <= qs)%Q.
  { rewrite Hqs. change 0%Q with (inject_Z 0). rewrite <- Zle_Qle.
    now apply (mutation_count_nonneg chars). }
  assert (0 <= qm)%Q.
  { rewrite Hqm. change 0%Q with (inject_Z 0). rewrite <- Zle_Qle.
    now apply (mutation_count_nonneg chars). }
  assert (0 <= vs)%Q.
  { rewrite Hvs. change 0%Q with (inject_Z 0). rewrite <- Zle_Qle.
    now apply (mutation_count_nonneg chars). }
  assert (0 <= vm)%Q.
  { rewrite Hvm. change 0%Q with (inject_Z 0). rewrite <- Zle_Qle.
    now apply (mutation_count_nonneg chars). }
  assert (0 < p * depth_ratio Ns Nm)%Q by nra.
  assert (0 < p * depth_ratio Nm Ns)%Q by nra.
  destruct (side_positive qs vs (p * depth_ratio Ns Nm)) as [-> P1]; try assumption.
  destruct (side_positive qm vm (p * depth_ratio Nm Ns)) as [-> P2]; try assumption.
  destruct (fdiv_positive _ _ P1 P2) as [-> P3].
  eexists. split; [reflexivity|exact P3].
Qed.

(** C1, as the code has it.  Take valid aligned tables in which every
    site has a positive total count in both samples, a positive
    pseudocount, and no error-control table.  Then [computeMutDiffSel]
    returns a table, and [mutdiffsel] is NaN exactly on the rows whose
    mutation is the wildtype or whose counts are both below [mincount];
    on every other row it is a finite real number.  Under
    [translate_to_aa] the count of an amino acid is the sum of the counts
    of its codons. *)
Theorem mutdiffsel_defined_unless_masked (sel mock : CountTable)
    (chars : list string) (p : Q) (tr : bool) (mincount : Q) :
  valid_table chars sel = true -> valid_table chars mock = true ->
  aligned sel mock = true ->
  positive_totals sel = true -> positive_totals mock = true ->
  (0 < p)%Q -> (tr = true -> set_eqb chars CODONS = true) ->
  exists out,
    computeMutDiffSel CODONS CODON_TO_AA sel mock chars p tr None mincount
    = Ok out
    /\ forall o, In o out ->
         let count_of df :=
           inject_Z (mutation_count (translation CODON_TO_AA tr) df
                                    (o_site o) (o_mutation o)) in
         let is_masked :=
           o_mutation o = o_wildtype o
           \/ ((count_of sel < mincount)%Q /\ (count_of mock < mincount)%Q) in
         (mutdiffsel o = RNaN <-> is_masked)
         /\ (~ is_masked -> exists x : R, mutdiffsel o = RFin x).
Proof.
  intros Hs Hm Ha Ps Pm Hp Hc. eexists. split.
  { now apply computeMutDiffSel_prepared. }
  intros o Ho. apply In_log2_rows in Ho as (r & w & Hr & Hw & Hwt & Es & ->).
  cbn [o_site o_mutation o_wildtype mutdiffsel].
  apply valid_table_ok in Hs, Hm.
  destruct (prepared_rows CODON_TO_AA chars sel mock Hs Hm Ha tr r Hr)
    as (rs & rm & Cr).
  destruct (prepared_rows CODON_TO_AA chars sel mock Hs Hm Ha tr w Hw)
    as (ws & wm & Cw).
  pose proof (not_masked_counts chars sel mock _ mincount r rs rm Cr) as Hmask.
  destruct (not_masked mincount r) eqn:E.
  - destruct (row_enrichment_positive chars sel mock _ p mincount r w
                rs rm ws wm Hs Hm Ps Pm Hp Cr Cw Es E) as (q & Eq & Hq).
    rewrite Eq, (xlog2_positive q Hq).
    assert (Hn : ~ (mutation r = wildtype r
       \/ (inject_Z (mutation_count (translation CODON_TO_AA tr) sel (site r)
                                    (mutation r)) < mincount)%Q
          /\ (inject_Z (mutation_count (translation CODON_TO_AA tr) mock (site r)
                                       (mutation r)) < mincount)%Q)).
    { intros H. apply Hmask in H. discriminate. }
    split.
    + split; [discriminate|]. intros H. contradiction.
    + intros _. eexists. reflexivity.
  - assert (Hy := proj1 Hmask eq_refl).
    rewrite (row_enrichment_masked p mincount r w E). simpl. split.
    + tauto.
    + intros H. contradiction.
Qed.

End Defined.

(** * Exchanging the two samples *)

Lemma combine_swap {A B} (l1 : list A) (l2 : list B) :
  combine l2 l1 = map (fun p => (snd p, fst p)) (combine l1 l2).
Proof.
  revert l2. induction l1 as [|x l1 IH]; intros [|y l2]; simpl; try reflexivity.
  now rewrite IH.
Qed.

Lemma flat_map_map {A B C} (f : A -> B) (g : B -> list C) (l : list A) :
  flat_map g (map f l) = flat_map (fun x => g (f x)) l.
Proof.
  induction l as [|x l IH]; simpl; [reflexivity|now rewrite IH].
Qed.

Lemma joined_table_swap (chars : list string) (sel mock : CountTable) :
  table_ok chars sel -> table_ok chars mock -> aligned sel mock = true ->
  joined_table mock sel = map swap_samples (joined_table sel mock).
Proof.
  intros Hs Hm Ha. unfold joined_table.
  rewrite (combine_swap (sorted_rows sel) (sorted_rows mock)).
  rewrite flat_map_map, map_flat_map.
  rewrite <- (sorted_vars_eq chars sel mock Hs Hm).
  apply flat_map_ext_in. intros p Hp. rewrite map_map. apply map_ext. intros c.
  destruct (aligned_combine _ _ _ Ha Hp) as (_ & Es & Ew).
  unfold joined_cell, swap_samples. simpl. now rewrite Es, Ew.
Qed.

(** ** Grouping commutes with the exchange *)

Lemma same_group_swap (x y : Row) :
  same_group (swap_samples x) (swap_samples y) = same_group x y.
Proof.
  unfold same_group, group_compare. simpl.
  destruct (site x ?= site y), (wildtype x ?= wildtype y)%string,
    (mutation x ?= mutation y)%string, (float_compare (Nsel x) (Nsel y)),
    (float_compare (Nmock x) (Nmock y)); reflexivity.
Qed.

Lemma group_leb_swap (m : list Row) (x y : Row) :
  totals_by_site m -> In x m -> In y m ->
  isnan (Nsel x) = false -> isnan (Nmock x) = false ->
  group_leb (swap_samples x) (swap_samples y) = group_leb x y.
Proof.
  intros Hm Hx Hy N1 N2. unfold group_leb, group_compare. simpl.
  destruct (site x ?= site y) eqn:E; try reflexivity.
  apply Z.compare_eq in E. destruct (Hm x y Hx Hy E) as [E1 E2].
  rewrite <- E1, <- E2, !float_compare_refl by assumption.
  destruct (wildtype x ?= wildtype y)%string, (mutation x ?= mutation y)%string;
    reflexivity.
Qed.

Lemma unique_map {A B} (eqa : A -> A -> bool) (eqb : B -> B -> bool)
    (f : A -> B) (l : list A) :
  (forall x y, eqb (f x) (f y) = eqa x y) ->
  unique eqb (map f l) = map f (unique eqa l).
Proof.
  intros H. induction l as [|x l IH]; simpl.
  - reflexivity.
  - rewrite IH, filter_map_comm. f_equal. f_equal. apply filter_ext.
    intros y. now rewrite H.
Qed.

Lemma insert_map {A B} (lea : A -> A -> bool) (leb : B -> B -> bool)
    (f : A -> B) (x : A) (l : list A) :
  (forall y, In y l -> leb (f x) (f y) = lea x y) ->
  insert leb (f x) (map f l) = map f (insert lea x l).
Proof.
  induction l as [|y l IH]; simpl; intros H.
  - reflexivity.
  - rewrite (H y (or_introl eq_refl)). destruct (lea x y); simpl.
    + reflexivity.
    + f_equal. apply IH. intros z Hz. apply H. now right.
Qed.

Lemma sort_values_map {A B} (lea : A -> A -> bool) (leb : B -> B -> bool)
    (f : A -> B) (l : list A) :
  (forall x y, In x l -> In y l -> leb (f x) (f y) = lea x y) ->
  sort_values leb (map f l) = map f (sort_values lea l).
Proof.
  induction l as [|x l IH]; simpl; intros H.
  - reflexivity.
  - rewrite IH by (intros a b Ha Hb; apply H; now right).
    apply insert_map. intros y Hy. apply In_sort_values in Hy.
    apply H; [now left|now right].
Qed.

Lemma groupby_sum_swap (m : list Row) :
  totals_by_site m ->
  groupby_sum (map swap_samples m) = map swap_samples (groupby_sum m).
Proof.
  intros Hm. unfold groupby_sum.
  set (keep := fun r => negb (isnan (Nsel r)) && negb (isnan (Nmock r))).
  assert (Er : filter keep (map swap_samples m) = map swap_samples (filter keep m)).
  { rewrite filter_map_comm. f_equal. apply filter_ext. intros r.
    unfold keep. simpl. apply andb_comm. }
  rewrite Er.
  rewrite (unique_map same_group same_group) by apply same_group_swap.
  rewrite (sort_values_map group_leb group_leb).
  - rewrite !map_map. apply map_ext. intros k.
    rewrite filter_map_comm, !map_map.
    rewrite (filter_ext _ (same_group k)) by (intros y; apply same_group_swap).
    reflexivity.
  - intros x y Hx Hy. apply In_unique, filter_In in Hx as [Hx Kx].
    apply In_unique, filter_In in Hy as [Hy _].
    unfold keep in Kx. apply andb_true_iff in Kx as [K1 K2].
    apply negb_true_iff in K1, K2. now apply (group_leb_swap m).
Qed.

Lemma translate_row_swap (CODON_TO_AA : list (string * string)) (r : Row) :
  translate_row CODON_TO_AA (swap_samples r)
  = swap_samples (translate_row CODON_TO_AA r).
Proof. reflexivity. Qed.

Lemma joined_totals_by_site (CODON_TO_AA : list (string * string))
    (chars : list string) (sel mock : CountTable) (tr : bool) :
  table_ok chars sel -> table_ok chars mock -> aligned sel mock = true ->
  totals_by_site
    (map (fun r => if tr then translate_row CODON_TO_AA r else r)
         (joined_table sel mock)).
Proof.
  intros Hs Hm Ha x y Hx Hy E.
  apply in_map_iff in Hx as (x' & <- & Hx), Hy as (y' & <- & Hy).
  pose proof (prepared_rows CODON_TO_AA chars sel mock Hs Hm Ha false x' Hx)
    as (? & ? & Cx).
  pose proof (prepared_rows CODON_TO_AA chars sel mock Hs Hm Ha false y' Hy)
    as (? & ? & Cy).
  assert (E' : site x' = site y') by (destruct tr; exact E).
  assert (Nsel x' = Nsel y' /\ Nmock x' = Nmock y') as [E1 E2].
  { rewrite (rc_Nsel _ _ _ _ _ _ Cx), (rc_Nsel _ _ _ _ _ _ Cy).
    rewrite (rc_Nmock _ _ _ _ _ _ Cx), (rc_Nmock _ _ _ _ _ _ Cy).
    now rewrite E'. }
  destruct tr; simpl; auto.
Qed.

Lemma prepared_swap (CODON_TO_AA : list (string * string))
    (chars : list string) (sel mock : CountTable) (tr : bool) :
  table_ok chars sel -> table_ok chars mock -> aligned sel mock = true ->
  prepared CODON_TO_AA tr mock sel
  = map swap_samples (prepared CODON_TO_AA tr sel mock).
Proof.
  intros Hs Hm Ha. unfold prepared.
  rewrite (joined_table_swap chars sel mock Hs Hm Ha).
  destruct tr; [|reflexivity]. unfold translate.
  rewrite map_map.
  rewrite (map_ext _ (fun r => swap_samples (translate_row CODON_TO_AA r)))
    by (intros r; apply translate_row_swap).
  rewrite <- (map_map (translate_row CODON_TO_AA) swap_samples).
  apply groupby_sum_swap.
  apply (joined_totals_by_site CODON_TO_AA chars sel mock true Hs Hm Ha).
Qed.

(** ** The enrichment under the exchange *)

Lemma In_merge_wildtype (p : Q) (m : list Row) (y : PRow * (float * float)) :
  In y (merge_wildtype (map (add_pseudocounts p) m)) <->
  exists r w, In r m /\ In w m /\ is_wildtype w = true /\ site w = site r
    /\ y = (add_pseudocounts p r, snd (add_pseudocounts p w)).
Proof.
  unfold merge_wildtype. split.
  - intros Hy. apply in_flat_map in Hy as (pr & Hpr & Hy).
    apply in_map_iff in Hy as (pw & <- & Hpw).
    apply filter_In in Hpw as (Hpw & Es). apply filter_In in Hpw as (Hpw & Hwt).
    apply in_map_iff in Hpr as (r & <- & Hr).
    apply in_map_iff in Hpw as (w & <- & Hw).
    exists r, w. apply Z.eqb_eq in Es. simpl in *. auto.
  - intros (r & w & Hr & Hw & Hwt & Es & ->). apply in_flat_map.
    exists (add_pseudocounts p r). split; [now apply in_map|].
    apply in_map_iff. exists (add_pseudocounts p w). split; [reflexivity|].
    apply filter_In. split.
    + apply filter_In. split; [now apply in_map|exact Hwt].
    + simpl. now apply Z.eqb_eq.
Qed.

Lemma merge_wildtype_swap (l : list PRow) :
  merge_wildtype (map swap_pseudo l) = map swap_merged (merge_wildtype l).
Proof.
  unfold merge_wildtype. rewrite flat_map_map, map_flat_map.
  apply flat_map_ext_in. intros x _.
  rewrite (filter_map_comm swap_pseudo (fun w => is_wildtype (fst w))).
  rewrite (filter_map_comm swap_pseudo), !map_map. reflexivity.
Qed.

Lemma not_masked_swap (mincount : Q) (r : Row) :
  not_masked mincount (swap_samples r) = not_masked mincount r.
Proof. unfold not_masked. simpl. now rewrite orb_comm. Qed.

Lemma enrichment_swap (p mincount : Q) (m : list Row) (r w : Row) :
  (0 < p)%Q -> counts_nonneg m -> totals_by_site m ->
  In r m -> In w m -> site w = site r ->
  xlog2 (enrichment mincount
           (swap_merged (add_pseudocounts p r, snd (add_pseudocounts p w))))
  = xopp (xlog2 (row_enrichment p mincount r w)).
Proof.
  intros Hp Hc Ht Hr Hw Es.
  unfold enrichment at 1. unfold add_pseudocounts.
  cbv zeta. cbn [swap_merged swap_pseudo fst snd].
  rewrite not_masked_swap.
  destruct (not_masked mincount r) eqn:E.
  - rewrite (row_enrichment_unmasked p mincount r w E).
    fold (pseudo_term p (Nsel r) (Nmock r)).
    fold (pseudo_term p (Nmock r) (Nsel r)). fold (pseudo_term p (Nsel w) (Nmock w)).
    fold (pseudo_term p (Nmock w) (Nsel w)).
    destruct (Ht w r Hw Hr Es) as [E1 E2]. rewrite E1, E2.
    destruct (Hc r Hr) as (H1 & H2 & H3 & H4).
    destruct (Hc w Hw) as (H5 & H6 & _ & _).
    apply xlog2_swap.
    + apply side_cases; auto. now apply pseudo_term_cases.
    + apply side_cases; auto. now apply pseudo_term_cases.
  - now rewrite (row_enrichment_masked p mincount r w E).
Qed.

Lemma log2_rows_swap (p mincount : Q) (m : list Row) :
  (0 < p)%Q -> counts_nonneg m -> totals_by_site m ->
  log2_rows (enrichments p mincount (map swap_samples m))
  = map negate (log2_rows (enrichments p mincount m)).
Proof.
  intros Hp Hc Ht. unfold log2_rows, enrichments.
  rewrite (map_map swap_samples (add_pseudocounts p)).
  rewrite (map_ext (fun x => add_pseudocounts p (swap_samples x))
                   (fun x => swap_pseudo (add_pseudocounts p x)))
    by reflexivity.
  rewrite <- (map_map (add_pseudocounts p) swap_pseudo).
  rewrite merge_wildtype_swap, !map_map. apply map_ext_in. intros y Hy.
  apply In_merge_wildtype in Hy as (r & w & Hr & Hw & _ & Es & ->).
  unfold negate. cbn [fst snd o_site o_wildtype o_mutation mutdiffsel].
  f_equal. now apply (enrichment_swap p mincount m).
Qed.

Lemma prepared_counts_nonneg (CODON_TO_AA : list (string * string))
    (chars : list string) (sel mock : CountTable) (tr : bool) :
  table_ok chars sel -> table_ok chars mock -> aligned sel mock = true ->
  counts_nonneg (prepared CODON_TO_AA tr sel mock).
Proof.
  intros Hs Hm Ha r Hr.
  destruct (prepared_rows CODON_TO_AA chars sel mock Hs Hm Ha tr r Hr)
    as (rs & rm & Cr).
  destruct (rc_nsel _ _ _ _ _ _ Cr) as (qs & Es & Hqs).
  destruct (rc_nmock _ _ _ _ _ _ Cr) as (qm & Em & Hqm).
  repeat split.
  - exists qs. split; [exact Es|]. rewrite Hqs. change 0%Q with (inject_Z 0).
    rewrite <- Zle_Qle. now apply (mutation_count_nonneg chars).
  - exists qm. split; [exact Em|]. rewrite Hqm. change 0%Q with (inject_Z 0).
    rewrite <- Zle_Qle. now apply (mutation_count_nonneg chars).
  - rewrite (rc_Nsel _ _ _ _ _ _ Cr). apply of_int_nonneg.
    now apply (total_count_nonneg chars).
  - rewrite (rc_Nmock _ _ _ _ _ _ Cr). apply of_int_nonneg.
    now apply (total_count_nonneg chars).
Qed.

Lemma prepared_totals_by_site (CODON_TO_AA : list (string * string))
    (chars : list string) (sel mock : CountTable) (tr : bool) :
  table_ok chars sel -> table_ok chars mock -> aligned sel mock = true ->
  totals_by_site (prepared CODON_TO_AA tr sel mock).
Proof.
  intros Hs Hm Ha x y Hx Hy E.
  destruct (prepared_rows CODON_TO_AA chars sel mock Hs Hm Ha tr x Hx)
    as (? & ? & Cx).
  destruct (prepared_rows CODON_TO_AA chars sel mock Hs Hm Ha tr y Hy)
    as (? & ? & Cy).
  rewrite (rc_Nsel _ _ _ _ _ _ Cx), (rc_Nsel _ _ _ _ _ _ Cy).
  rewrite (rc_Nmock _ _ _ _ _ _ Cx), (rc_Nmock _ _ _ _ _ _ Cy).
  now rewrite E.
Qed.

Section Symmetry.
Variable CODONS : list string.
Variable CODON_TO_AA : list (string * string).

(** C3.  Swapping [sel] and [mock] negates the result.  With valid
    aligned tables, a positive pseudocount and no error-control table,
    both calls return; their tables have the same rows in the same order,
    and each [mutdiffsel] of the one is the opposite of that of the other
    (on a masked row both are NaN). *)
Theorem swapping_samples_negates (sel mock : CountTable) (chars : list string)
    (p : Q) (tr : bool) (mincount : Q) :
  valid_table chars sel = true -> valid_table chars mock = true ->
  aligned sel mock = true -> (0 < p)%Q ->
  (tr = true -> set_eqb chars CODONS = true) ->
  exists out out',
    computeMutDiffSel CODONS CODON_TO_AA sel mock chars p tr None mincount
    = Ok out
    /\ computeMutDiffSel CODONS CODON_TO_AA mock sel chars p tr None mincount
       = Ok out'
    /\ Forall2 (fun o o' =>
          o_site o' = o_site o /\ o_wildtype o' = o_wildtype o
          /\ o_mutation o' = o_mutation o
          /\ mutdiffsel o' = xopp (mutdiffsel o))
        out out'.
Proof.
  intros Hs Hm Ha Hp Hc. do 2 eexists. split; [|split].
  - now apply computeMutDiffSel_prepared.
  - apply computeMutDiffSel_prepared; auto. now apply aligned_sym.
  - apply valid_table_ok in Hs, Hm.
    rewrite (prepared_swap CODON_TO_AA chars sel mock tr Hs Hm Ha).
    rewrite log2_rows_swap; auto.
    + generalize (log2_rows (enrichments p mincount
                              (prepared CODON_TO_AA tr sel mock))).
      induction l as [|o l IH]; simpl; constructor; auto.
    + now apply (prepared_counts_nonneg CODON_TO_AA chars).
    + now apply (prepared_totals_by_site CODON_TO_AA chars).
Qed.

End Symmetry.

(** * The pseudocount and the size of the result *)

Section RealEnrichment.
Local Open Scope R_scope.

Lemma frac_le (n1 d1 n2 d2 : R) :
  0 < d1 -> 0 < d2 -> n1 * d2 <= n2 * d1 -> n1 / d1 <= n2 / d2.
Proof.
  intros H1 H2 H. apply (Rmult_le_reg_r (d1 * d2)); [now apply Rmult_lt_0_compat|].
  replace (n1 / d1 * (d1 * d2)) with (n1 * d2) by (field; lra).
  replace (n2 / d2 * (d1 * d2)) with (n2 * d1) by (field; lra).
  exact H.
Qed.

Lemma Renrichment_factors (p qs qm vs vm a b : R) :
  0 <= qs -> 0 <= qm -> 0 <= vs -> 0 <= vm -> 0 < a -> 0 < b -> 0 < p ->
  Renrichment p qs qm vs vm a b
  = ((qs + p * a) / (qm + p * b)) * ((vm + p * b) / (vs + p * a)).
Proof.
  intros. unfold Renrichment.
  assert (0 < p * a) by now apply Rmult_lt_0_compat.
  assert (0 < p * b) by now apply Rmult_lt_0_compat.
  field. repeat split; lra.
Qed.

Lemma Renrichment_pos (p qs qm vs vm a b : R) :
  0 <= qs -> 0 <= qm -> 0 <= vs -> 0 <= vm -> 0 < a -> 0 < b -> 0 < p ->
  0 < Renrichment p qs qm vs vm a b.
Proof.
  intros. rewrite Renrichment_factors by assumption.
  assert (0 < p * a) by now apply Rmult_lt_0_compat.
  assert (0 < p * b) by now apply Rmult_lt_0_compat.
  apply Rmult_lt_0_compat; apply Rdiv_lt_0_compat; lra.
Qed.

Lemma Renrichment_swap (p qs qm vs vm a b : R) :
  0 <= qs -> 0 <= qm -> 0 <= vs -> 0 <= vm -> 0 < a -> 0 < b -> 0 < p ->
  Renrichment p qm qs vm vs b a = / Renrichment p qs qm vs vm a b.
Proof.
  intros. unfold Renrichment.
  assert (0 < p * a) by now apply Rmult_lt_0_compat.
  assert (0 < p * b) by now apply Rmult_lt_0_compat.
  field. repeat split; lra.
Qed.

(** When the mutation gains on the selected side and the wildtype on the
    mock side, the enrichment is above 1 and comes down as the pseudocount
    goes up. *)
Lemma cross_le (x y p1 p2 c d : R) :
  0 < p1 -> p1 < p2 -> y * c <= x * d ->
  (x + p2 * c) * (y + p1 * d) <= (x + p1 * c) * (y + p2 * d).
Proof.
  intros Hp1 Hp12 H.
  assert (E : (x + p1 * c) * (y + p2 * d) - (x + p2 * c) * (y + p1 * d)
              = (p2 - p1) * (x * d - y * c)) by ring.
  assert (0 <= (p2 - p1) * (x * d - y * c)).
  { apply Rmult_le_pos; lra. }
  lra.
Qed.

Lemma above_one (qs qm vs vm a b p : R) :
  0 <= qs -> 0 <= qm -> 0 <= vs -> 0 <= vm -> 0 < a -> 0 < b -> 0 < p ->
  qm * a <= qs * b -> vs * b <= vm * a ->
  (qm + p * b) * (vs + p * a) <= (qs + p * a) * (vm + p * b).
Proof.
  intros Hqs Hqm Hvs Hvm Ha Hb Hp HF HG.
  assert (H1 : qm * a * (vs * b) <= qs * b * (vm * a)).
  { apply Rmult_le_compat; try assumption; apply Rmult_le_pos; lra. }
  assert (H2 : qm * vs <= qs * vm).
  { apply (Rmult_le_reg_r (a * b)).
    - now apply Rmult_lt_0_compat.
    - replace (qm * vs * (a * b)) with (qm * a * (vs * b)) by ring.
      replace (qs * vm * (a * b)) with (qs * b * (vm * a)) by ring.
      exact H1. }
  assert (H3 : 0 <= p * (qs * b - qm * a)) by (apply Rmult_le_pos; lra).
  assert (H4 : 0 <= p * (vm * a - vs * b)) by (apply Rmult_le_pos; lra).
  assert (E : (qs + p * a) * (vm + p * b) - (qm + p * b) * (vs + p * a)
              = (qs * vm - qm * vs) + p * (qs * b - qm * a)
                + p * (vm * a - vs * b)) by ring.
  lra.
Qed.

(** When the mutation gains on the selected side and the wildtype on the
    mock side, the enrichment is above 1 and comes down as the pseudocount
    goes up. *)
Lemma Renrichment_shrinks (p1 p2 qs qm vs vm a b : R) :
  0 <= qs -> 0 <= qm -> 0 <= vs -> 0 <= vm -> 0 < a -> 0 < b ->
  0 < p1 -> p1 < p2 ->
  qm * a <= qs * b -> vs * b <= vm * a ->
  1 <= Renrichment p2 qs qm vs vm a b
  /\ Renrichment p2 qs qm vs vm a b <= Renrichment p1 qs qm vs vm a b.
Proof.
  intros Hqs Hqm Hvs Hvm Ha Hb Hp1 Hp12 HF HG.
  assert (Hp2 : 0 < p2) by lra.
  rewrite !Renrichment_factors by assumption.
  assert (0 < p1 * a) by now apply Rmult_lt_0_compat.
  assert (0 < p1 * b) by now apply Rmult_lt_0_compat.
  assert (0 < p2 * a) by now apply Rmult_lt_0_compat.
  assert (0 < p2 * b) by now apply Rmult_lt_0_compat.
  split.
  - replace ((qs + p2 * a) / (qm + p2 * b) * ((vm + p2 * b) / (vs + p2 * a)))
      with (((qs + p2 * a) * (vm + p2 * b)) / ((qm + p2 * b) * (vs + p2 * a)))
      by (field; split; lra).
    replace 1 with (1 / 1) at 1 by field.
    apply frac_le; [lra|apply Rmult_lt_0_compat; lra|].
    rewrite Rmult_1_l, Rmult_1_r. now apply above_one.
  - apply Rmult_le_compat.
    + apply Rlt_le, Rdiv_lt_0_compat; lra.
    + apply Rlt_le, Rdiv_lt_0_compat; lra.
    + apply frac_le; [lra|lra|]. now apply cross_le.
    + apply frac_le; [lra|lra|]. now apply cross_le.
Qed.

Lemma log2_pos (x : R) : 1 < x -> 0 < log2 x.
Proof.
  intros H. unfold log2. pose proof ln_2_pos.
  assert (0 < ln x) by (rewrite <- ln_1; apply ln_increasing; lra).
  now apply Rdiv_lt_0_compat.
Qed.

(** The size of the logarithm comes down with the enrichment above 1. *)
Lemma Rabs_log2_le (x y : R) : 1 <= x -> x <= y -> Rabs (log2 x) <= Rabs (log2 y).
Proof.
  intros H1 H2.
  assert (0 <= log2 x) by (rewrite <- log2_1; apply log2_le; lra).
  assert (log2 x <= log2 y) by (apply log2_le; lra).
  rewrite !Rabs_pos_eq; lra.
Qed.

Lemma Rabs_log2_inv (x : R) : 0 < x -> Rabs (log2 (/ x)) = Rabs (log2 x).
Proof. intros H. rewrite log2_inv by exact H. apply Rabs_Ropp. Qed.

Lemma Rabs_log2_Renrichment (p1 p2 qs qm vs vm a b : R) :
  0 <= qs -> 0 <= qm -> 0 <= vs -> 0 <= vm -> 0 < a -> 0 < b ->
  0 < p1 -> p1 < p2 ->
  (qm * a <= qs * b /\ vs * b <= vm * a)
  \/ (qs * b <= qm * a /\ vm * a <= vs * b) ->
  Rabs (log2 (Renrichment p2 qs qm vs vm a b))
  <= Rabs (log2 (Renrichment p1 qs qm vs vm a b)).
Proof.
  intros Hqs Hqm Hvs Hvm Ha Hb Hp1 Hp12 [[HF HG]|[HF HG]].
  - destruct (Renrichment_shrinks p1 p2 qs qm vs vm a b) as [H1 H2]; auto.
    now apply Rabs_log2_le.
  - destruct (Renrichment_shrinks p1 p2 qm qs vm vs b a) as [H1 H2]; auto.
    assert (Hp2 : 0 < p2) by lra.
    rewrite (Renrichment_swap p2 qs qm vs vm a b) in H1, H2 by assumption.
    rewrite (Renrichment_swap p1 qs qm vs vm a b) in H2 by assumption.
    rewrite <- (Rabs_log2_inv (Renrichment p2 qs qm vs vm a b))
      by now apply Renrichment_pos.
    rewrite <- (Rabs_log2_inv (Renrichment p1 qs qm vs vm a b))
      by now apply Renrichment_pos.
    now apply Rabs_log2_le.
Qed.

End RealEnrichment.

(** ** The enrichment as a rational, and as a real number *)

Lemma Q2R_inject_Z (z : Z) : Q2R (inject_Z z) = IZR z.
Proof. unfold Q2R, inject_Z. simpl. field. Qed.

Lemma Qdiv_ge_1 (a b : Q) : (0 < b)%Q -> (1 <= a / b)%Q -> (b <= a)%Q.
Proof.
  intros Hb H. assert (E : (a / b * b == a)%Q) by (field; lra).
  assert (H0 : (1 * b <= a / b * b)%Q) by (apply Qmult_le_compat_r; lra).
  rewrite E in H0. lra.
Qed.

Lemma Qdiv_lt_1 (a b : Q) : (0 < b)%Q -> (a / b < 1)%Q -> (a < b)%Q.
Proof.
  intros Hb H. assert (E : (a / b * b == a)%Q) by (field; lra).
  assert (H0 : (a / b * b < 1 * b)%Q) by (apply Qmult_lt_compat_r; lra).
  rewrite E in H0. lra.
Qed.

(** The two factors stand to each other as the two totals. *)
Lemma depth_ratio_cross (a b : Q) :
  (0 < a)%Q -> (0 < b)%Q ->
  (depth_ratio a b * b == depth_ratio b a * a)%Q.
Proof.
  intros Ha Hb. unfold depth_ratio.
  destruct (Qle_bool 1 (a / b)) eqn:E1, (Qle_bool 1 (b / a)) eqn:E2.
  - apply Qle_bool_true in E1, E2.
    apply Qdiv_ge_1 in E1, E2; try assumption.
    assert (E : (a == b)%Q) by lra.
    assert (L : (a / b * b == a)%Q) by (field; lra).
    assert (R : (b / a * a == b)%Q) by (field; lra).
    now rewrite L, R.
  - field. lra.
  - field. lra.
  - apply Qle_bool_false in E1, E2.
    apply Qdiv_lt_1 in E1, E2; try assumption. lra.
Qed.

Lemma Q2R_enrichment_value (p qs qm vs vm Ns Nm : Q) :
  (0 < p)%Q -> (0 <= qs)%Q -> (0 <= qm)%Q -> (0 <= vs)%Q -> (0 <= vm)%Q ->
  Q2R (enrichment_value p qs qm vs vm Ns Nm)
  = Renrichment (Q2R p) (Q2R qs) (Q2R qm) (Q2R vs) (Q2R vm)
                (Q2R (depth_ratio Ns Nm)) (Q2R (depth_ratio Nm Ns)).
Proof.
  intros Hp Hqs Hqm Hvs Hvm. unfold enrichment_value, Renrichment.
  pose proof (depth_ratio_ge_1 Ns Nm) as D1.
  pose proof (depth_ratio_ge_1 Nm Ns) as D2.
  assert (0 < p * depth_ratio Ns Nm)%Q by nra.
  assert (0 < p * depth_ratio Nm Ns)%Q by nra.
  assert (0 < (qm + p * depth_ratio Nm Ns) / (vm + p * depth_ratio Nm Ns))%Q
    by (apply Qlt_shift_div_l; lra).
  rewrite !Q2R_div by lra.
  rewrite !Q2R_plus, !Q2R_mult. reflexivity.
Qed.

Lemma nonneg_of_count (q : Q) (z : Z) :
  (q == inject_Z z)%Q -> 0 <= z -> (0 <= q)%Q.
Proof.
  intros E H. rewrite E. change 0%Q with (inject_Z 0). now rewrite <- Zle_Qle.
Qed.

(** The enrichment of an unmasked row where both totals are positive. *)
Lemma row_enrichment_value (chars : list string) (sel mock : CountTable)
    (tr : string -> string) (p mincount : Q) (r w : Row)
    (rs rm ws wm : CountRow) :
  table_ok chars sel -> table_ok chars mock ->
  positive_totals sel = true -> positive_totals mock = true -> (0 < p)%Q ->
  row_counts sel mock tr r rs rm -> row_counts sel mock tr w ws wm ->
  site w = site r -> not_masked mincount r = true ->
  exists qs qm vs vm,
    (qs == inject_Z (mutation_count tr sel (site r) (mutation r)))%Q
    /\ (qm == inject_Z (mutation_count tr mock (site r) (mutation r)))%Q
    /\ (vs == inject_Z (mutation_count tr sel (site r) (mutation w)))%Q
    /\ (vm == inject_Z (mutation_count tr mock (site r) (mutation w)))%Q
    /\ row_enrichment p mincount r w
       = Fin (enrichment_value p qs qm vs vm
                (inject_Z (total_count sel (site r)))
                (inject_Z (total_count mock (site r))))
    /\ (0 < enrichment_value p qs qm vs vm
              (inject_Z (total_count sel (site r)))
              (inject_Z (total_count mock (site r))))%Q.
Proof.
  intros Hs Hm Ps Pm Hp Hr Hw Esite Hmask.
  rewrite row_enrichment_unmasked by exact Hmask.
  destruct (rc_nsel _ _ _ _ _ _ Hr) as (qs & Es & Hqs).
  destruct (rc_nmock _ _ _ _ _ _ Hr) as (qm & Em & Hqm).
  destruct (rc_nsel _ _ _ _ _ _ Hw) as (vs & Evs & Hvs).
  destruct (rc_nmock _ _ _ _ _ _ Hw) as (vm & Evm & Hvm).
  rewrite Esite in Hvs, Hvm.
  rewrite (rc_Nsel _ _ _ _ _ _ Hw), (rc_Nmock _ _ _ _ _ _ Hw), Esite.
  rewrite (rc_Nsel _ _ _ _ _ _ Hr), (rc_Nmock _ _ _ _ _ _ Hr).
  rewrite Es, Em, Evs, Evm.
  pose proof (total_count_positive sel rs (site r) Ps (rc_sel_in _ _ _ _ _ _ Hr)) as Ts.
  pose proof (total_count_positive mock rm (site r) Pm (rc_mock_in _ _ _ _ _ _ Hr)) as Tm.
  destruct (of_int_positive _ Ts) as (Ns & ENs & HNs).
  destruct (of_int_positive _ Tm) as (Nm & ENm & HNm).
  unfold of_int in ENs, ENm. inversion ENs; inversion ENm; subst Ns Nm.
  unfold of_int. rewrite !pseudo_term_positive by assumption.
  pose proof (depth_ratio_ge_1 (inject_Z (total_count sel (site r)))
                (inject_Z (total_count mock (site r)))) as D1.
  pose proof (depth_ratio_ge_1 (inject_Z (total_count mock (site r)))
                (inject_Z (total_count sel (site r)))) as D2.
  pose proof (nonneg_of_count _ _ Hqs (mutation_count_nonneg chars _ _ _ _ Hs)).
  pose proof (nonneg_of_count _ _ Hqm (mutation_count_nonneg chars _ _ _ _ Hm)).
  pose proof (nonneg_of_count _ _ Hvs (mutation_count_nonneg chars _ _ _ _ Hs)).
  pose proof (nonneg_of_count _ _ Hvm (mutation_count_nonneg chars _ _ _ _ Hm)).
  set (a := depth_ratio (inject_Z (total_count sel (site r)))
                        (inject_Z (total_count mock (site r)))) in *.
  set (b := depth_ratio (inject_Z (total_count mock (site r)))
                        (inject_Z (total_count sel (site r)))) in *.
  assert (0 < p * a)%Q by nra.
  assert (0 < p * b)%Q by nra.
  destruct (side_positive qs vs (p * a)) as [-> P1]; try assumption.
  destruct (side_positive qm vm (p * b)) as [-> P2]; try assumption.
  destruct (fdiv_positive _ _ P1 P2) as [-> P3].
  exists qs, qm, vs, vm. repeat split; auto.
Qed.

Lemma wildtype_row_mutation (chars : list string) (sel mock : CountTable)
    (tr : string -> string) (r w : Row) (rs rm ws wm : CountRow) :
  row_counts sel mock tr r rs rm -> row_counts sel mock tr w ws wm ->
  site w = site r -> is_wildtype w = true -> mutation w = wildtype r.
Proof.
  intros Hr Hw Es Hwt. unfold is_wildtype in Hwt. apply String.eqb_eq in Hwt.
  rewrite Hwt, (rc_wildtype _ _ _ _ _ _ Hw), (rc_wildtype _ _ _ _ _ _ Hr).
  pose proof (rc_sel_in _ _ _ _ _ _ Hw) as E1.
  pose proof (rc_sel_in _ _ _ _ _ _ Hr) as E2.
  rewrite Es, E2 in E1. now inversion E1.
Qed.

Lemma IZR_cross (n1 N1 n2 N2 : Z) :
  n1 * N1 <= n2 * N2 -> (IZR n1 * IZR N1 <= IZR n2 * IZR N2)%R.
Proof. intros H. rewrite <- !mult_IZR. now apply IZR_le. Qed.

(** From a comparison of frequencies to a comparison of the counts scaled
    by the factors of the pseudocount. *)
Lemma scaled_le (n1 n2 a b Ns Nm : R) :
  (0 < Ns)%R -> (0 < Nm)%R -> (0 < b)%R -> (a * Nm = b * Ns)%R ->
  (n1 * Ns <= n2 * Nm)%R -> (n1 * a <= n2 * b)%R.
Proof.
  intros HNs HNm Hb E H.
  apply (Rmult_le_reg_r Nm); [exact HNm|].
  replace (n1 * a * Nm)%R with (b * (n1 * Ns))%R
    by (rewrite Rmult_assoc, E; ring).
  replace (n2 * b * Nm)%R with (b * (n2 * Nm))%R by ring.
  apply Rmult_le_compat_l; lra.
Qed.

Section Shrink.
Variable CODONS : list string.
Variable CODON_TO_AA : list (string * string).

(** C4, as the code has it.  Take two pseudocounts [0 < p1 < p2] and a
    row that is not masked.  When the frequency of the mutation and the
    frequency of the wildtype move in opposite directions between the
    mock and the selected sample (the mutation no rarer and the wildtype
    no more frequent in [sel] than in [mock], or the converse), the
    absolute value of [mutdiffsel] with [p2] is at most the one with
    [p1]. *)
Theorem pseudocount_shrinks_opposed_shifts (sel mock : CountTable)
    (chars : list string) (p1 p2 : Q) (tr : bool) (mincount : Q) :
  valid_table chars sel = true -> valid_table chars mock = true ->
  aligned sel mock = true ->
  positive_totals sel = true -> positive_totals mock = true ->
  (0 < p1)%Q -> (p1 < p2)%Q -> (tr = true -> set_eqb chars CODONS = true) ->
  exists out1 out2,
    computeMutDiffSel CODONS CODON_TO_AA sel mock chars p1 tr None mincount
    = Ok out1
    /\ computeMutDiffSel CODONS CODON_TO_AA sel mock chars p2 tr None mincount
       = Ok out2
    /\ forall o1 o2,
         In o1 out1 -> In o2 out2 ->
         o_site o2 = o_site o1 -> o_mutation o2 = o_mutation o1 ->
         let count df c :=
           mutation_count (translation CODON_TO_AA tr) df (o_site o1) c in
         let total df := total_count df (o_site o1) in
         let mut := o_mutation o1 in
         let wt := o_wildtype o1 in
         mut <> wt ->
         (mincount <= inject_Z (count sel mut)
          \/ mincount <= inject_Z (count mock mut))%Q ->
         (count mock mut * total sel <= count sel mut * total mock
          /\ count sel wt * total mock <= count mock wt * total sel)
         \/ (count sel mut * total mock <= count mock mut * total sel
             /\ count mock wt * total sel <= count sel wt * total mock) ->
         exists x1 x2 : R,
           mutdiffsel o1 = RFin x1 /\ mutdiffsel o2 = RFin x2
           /\ (Rabs x2 <= Rabs x1)%R.
Proof.
  intros Hs Hm Ha Ps Pm Hp1 Hp12 Hc.
  assert (Hp2 : (0 < p2)%Q) by lra.
  do 2 eexists. split; [|split].
  { now apply computeMutDiffSel_prepared. }
  { now apply computeMutDiffSel_prepared. }
  apply valid_table_ok in Hs, Hm.
  intros o1 o2 Ho1 Ho2 Esite Emut count total mut wt Hne Hmin Hopp.
  apply In_log2_rows in Ho1 as (r1 & w1 & Hr1 & Hw1 & Hwt1 & Es1 & ->).
  apply In_log2_rows in Ho2 as (r2 & w2 & Hr2 & Hw2 & Hwt2 & Es2 & ->).
  cbn [o_site o_mutation o_wildtype mutdiffsel] in *.
  set (T := translation CODON_TO_AA tr) in *.
  destruct (prepared_rows CODON_TO_AA chars sel mock Hs Hm Ha tr r1 Hr1)
    as (rs1 & rm1 & Cr1).
  destruct (prepared_rows CODON_TO_AA chars sel mock Hs Hm Ha tr w1 Hw1)
    as (ws1 & wm1 & Cw1).
  destruct (prepared_rows CODON_TO_AA chars sel mock Hs Hm Ha tr r2 Hr2)
    as (rs2 & rm2 & Cr2).
  destruct (prepared_rows CODON_TO_AA chars sel mock Hs Hm Ha tr w2 Hw2)
    as (ws2 & wm2 & Cw2).
  fold T in Cr1, Cw1, Cr2, Cw2.
  (* the four rows are at the same site; the two wildtype rows are the
     row of the wildtype *)
  pose proof (wildtype_row_mutation chars sel mock T r1 w1 _ _ _ _ Cr1 Cw1 Es1 Hwt1)
    as Ew1.
  pose proof (wildtype_row_mutation chars sel mock T r2 w2 _ _ _ _ Cr2 Cw2 Es2 Hwt2)
    as Ew2.
  assert (Ewt : wildtype r2 = wildtype r1).
  { rewrite (rc_wildtype _ _ _ _ _ _ Cr2), (rc_wildtype _ _ _ _ _ _ Cr1).
    pose proof (rc_sel_in _ _ _ _ _ _ Cr2) as E2.
    pose proof (rc_sel_in _ _ _ _ _ _ Cr1) as E1.
    rewrite Esite, E1 in E2. now inversion E2. }
  (* neither row is masked *)
  assert (M1 : not_masked mincount r1 = true).
  { destruct (not_masked mincount r1) eqn:F; [reflexivity|exfalso].
    apply (not_masked_counts chars sel mock T mincount r1 rs1 rm1 Cr1) in F.
    destruct F as [F|[F1 F2]]; [now apply Hne|].
    unfold count, mut in Hmin. destruct Hmin; lra. }
  assert (M2 : not_masked mincount r2 = true).
  { destruct (not_masked mincount r2) eqn:F; [reflexivity|exfalso].
    apply (not_masked_counts chars sel mock T mincount r2 rs2 rm2 Cr2) in F.
    rewrite Esite, Emut, Ewt in F.
    destruct F as [F|[F1 F2]]; [now apply Hne|].
    unfold count, mut in Hmin. destruct Hmin; lra. }
  destruct (row_enrichment_value chars sel mock T p1 mincount r1 w1 _ _ _ _
              Hs Hm Ps Pm Hp1 Cr1 Cw1 Es1 M1)
    as (qs1 & qm1 & vs1 & vm1 & Hqs1 & Hqm1 & Hvs1 & Hvm1 & E1 & P1).
  destruct (row_enrichment_value chars sel mock T p2 mincount r2 w2 _ _ _ _
              Hs Hm Ps Pm Hp2 Cr2 Cw2 Es2 M2)
    as (qs2 & qm2 & vs2 & vm2 & Hqs2 & Hqm2 & Hvs2 & Hvm2 & E2 & P2).
  rewrite Ew1 in Hvs1, Hvm1. rewrite Ew2, Ewt, Esite in Hvs2, Hvm2.
  rewrite Esite, Emut in Hqs2, Hqm2. rewrite Esite in E2, P2.
  fold (count sel mut) in Hqs1, Hqs2. fold (count mock mut) in Hqm1, Hqm2.
  fold (count sel wt) in Hvs1, Hvs2. fold (count mock wt) in Hvm1, Hvm2.
  fold (total sel) in E1, E2, P1, P2. fold (total mock) in E1, E2, P1, P2.
  rewrite E1, E2, !xlog2_positive by assumption.
  do 2 eexists. split; [reflexivity|]. split; [reflexivity|].
  (* to the real numbers *)
  assert (Cs : 0 <= count sel mut) by (apply (mutation_count_nonneg chars); auto).
  assert (Cm : 0 <= count mock mut) by (apply (mutation_count_nonneg chars); auto).
  assert (Ws : 0 <= count sel wt) by (apply (mutation_count_nonneg chars); auto).
  assert (Wm : 0 <= count mock wt) by (apply (mutation_count_nonneg chars); auto).
  assert (Ts : 0 < total sel)
    by (eapply total_count_positive; [exact Ps|apply (rc_sel_in _ _ _ _ _ _ Cr1)]).
  assert (Tm : 0 < total mock)
    by (eapply total_count_positive; [exact Pm|apply (rc_mock_in _ _ _ _ _ _ Cr1)]).
  rewrite !Q2R_enrichment_value;
    try assumption; try (eapply nonneg_of_count; eassumption).
  rewrite (Qeq_eqR _ _ Hqs1), (Qeq_eqR _ _ Hqm1), (Qeq_eqR _ _ Hvs1),
    (Qeq_eqR _ _ Hvm1), (Qeq_eqR _ _ Hqs2), (Qeq_eqR _ _ Hqm2),
    (Qeq_eqR _ _ Hvs2), (Qeq_eqR _ _ Hvm2), !Q2R_inject_Z.
  set (a := Q2R (depth_ratio (inject_Z (total sel)) (inject_Z (total mock)))).
  set (b := Q2R (depth_ratio (inject_Z (total mock)) (inject_Z (total sel)))).
  assert (Ha1 : (1 <= a)%R).
  { unfold a. rewrite <- RMicromega.Q2R_1. apply Qle_Rle, depth_ratio_ge_1. }
  assert (Hb1 : (1 <= b)%R).
  { unfold b. rewrite <- RMicromega.Q2R_1. apply Qle_Rle, depth_ratio_ge_1. }
  assert (Eab : (a * IZR (total mock) = b * IZR (total sel))%R).
  { unfold a, b. rewrite <- !Q2R_inject_Z, <- !Q2R_mult. apply Qeq_eqR.
    apply depth_ratio_cross; change 0%Q with (inject_Z 0);
      now rewrite <- Zlt_Qlt. }
  assert (Eba : (b * IZR (total sel) = a * IZR (total mock))%R) by now symmetry.
  apply IZR_lt in Ts, Tm. apply IZR_le in Cs, Cm, Ws, Wm.
  apply Rabs_log2_Renrichment; try assumption; try lra.
  - now apply Q2R_pos.
  - now apply Qlt_Rlt.
  - destruct Hopp as [[H1 H2]|[H1 H2]]; [left|right]; split.
    + apply (scaled_le _ _ a b (IZR (total sel)) (IZR (total mock)));
        try assumption; try lra. now apply IZR_cross.
    + apply (scaled_le _ _ b a (IZR (total mock)) (IZR (total sel)));
        try assumption; try lra. now apply IZR_cross.
    + apply (scaled_le _ _ b a (IZR (total mock)) (IZR (total sel)));
        try assumption; try lra. now apply IZR_cross.
    + apply (scaled_le _ _ a b (IZR (total sel)) (IZR (total mock)));
        try assumption; try lra. now apply IZR_cross.
Qed.

End Shrink.

(** * Translation keeps the counts of a site *)

(** ** Sums of rationals *)

Lemma Qsum_ext {A} (f g : A -> Q) (l : list A) :
  (forall x, In x l -> (f x == g x)%Q) ->
  (Qsum (map f l) == Qsum (map g l))%Q.
Proof.
  induction l as [|x l IH]; simpl; intros H.
  - reflexivity.
  - rewrite (H x (or_introl eq_refl)), IH; [reflexivity|].
    intros y Hy. apply H. now right.
Qed.

Lemma Qsum_perm (l1 l2 : list Q) :
  Permutation l1 l2 -> (Qsum l1 == Qsum l2)%Q.
Proof.
  induction 1 as [|x l1 l2 Hp IH|x y l|l1 l2 l3 H1 IH1 H2 IH2]; simpl.
  - reflexivity.
  - now rewrite IH.
  - ring.
  - now rewrite IH1.
Qed.

Lemma Qsum_zero {A} (f : A -> Q) (l : list A) :
  (forall x, In x l -> (f x == 0)%Q) -> (Qsum (map f l) == 0)%Q.
Proof.
  induction l as [|x l IH]; simpl; intros H.
  - reflexivity.
  - rewrite (H x (or_introl eq_refl)), IH; [ring|].
    intros y Hy. apply H. now right.
Qed.

Lemma Qsum_filter {A} (g : A -> Q) (p : A -> bool) (l : list A) :
  (Qsum (map g (filter p l))
   == Qsum (map (fun x => if p x then g x else 0) l))%Q.
Proof.
  induction l as [|x l IH]; simpl.
  - reflexivity.
  - destruct (p x); simpl; rewrite IH; ring.
Qed.

Lemma Qsum_plus {A} (f g : A -> Q) (l : list A) :
  (Qsum (map (fun x => f x + g x) l) == Qsum (map f l) + Qsum (map g l))%Q.
Proof.
  induction l as [|x l IH]; simpl.
  - ring.
  - rewrite IH. ring.
Qed.

Lemma Qsum_exchange {A B} (h : A -> B -> Q) (la : list A) (lb : list B) :
  (Qsum (map (fun a => Qsum (map (h a) lb)) la)
   == Qsum (map (fun b => Qsum (map (fun a => h a b) la)) lb))%Q.
Proof.
  induction la as [|a la IH]; simpl.
  - symmetry. apply Qsum_zero. reflexivity.
  - rewrite IH. symmetry. apply (Qsum_plus (h a)).
Qed.

(** ** One representative per class *)

Section Classes.
Context {A : Type} (eqb : A -> A -> bool) (l : list A).
Hypothesis eqb_refl : forall x, In x l -> eqb x x = true.
Hypothesis eqb_sym : forall x y, eqb x y = eqb y x.
Hypothesis eqb_trans :
  forall x y z, eqb x y = true -> eqb y z = true -> eqb x z = true.

Lemma unique_covers (x : A) :
  In x l -> exists k, In k (unique eqb l) /\ eqb k x = true.
Proof.
  revert eqb_refl. induction l as [|y l' IH]; simpl; intros Hrefl Hx.
  - contradiction.
  - destruct Hx as [->|Hx].
    + exists x. split; [now left|]. apply Hrefl. now left.
    + destruct IH as (k & Hk & Ek); auto.
      destruct (eqb y k) eqn:Eyk.
      * exists y. split; [now left|]. eapply eqb_trans; eauto.
      * exists k. split; [|exact Ek]. right. apply filter_In.
        split; [exact Hk|]. now rewrite Eyk.
Qed.

Lemma unique_count (x : A) (c : Q) :
  In x l ->
  (Qsum (map (fun k => if eqb k x then c else 0) (unique eqb l)) == c)%Q.
Proof.
  revert eqb_refl. induction l as [|y l' IH]; simpl; intros Hrefl Hx.
  - contradiction.
  - rewrite Qsum_filter. destruct (eqb y x) eqn:Eyx.
    + rewrite Qsum_zero; [ring|]. intros k _.
      destruct (eqb y k) eqn:Eyk; simpl; [reflexivity|].
      destruct (eqb k x) eqn:Ekx; [|reflexivity].
      rewrite eqb_sym in Ekx. rewrite (eqb_trans y x k Eyx Ekx) in Eyk.
      discriminate.
    + destruct Hx as [->|Hx].
      { rewrite Hrefl in Eyx by now left. discriminate. }
      rewrite Qplus_0_l.
      transitivity (Qsum (map (fun k => if eqb k x then c else 0%Q) (unique eqb l')));
        [|apply IH; auto].
      apply Qsum_ext. intros k _.
      destruct (eqb k x) eqn:Ekx; [|destruct (negb (eqb y k)); reflexivity].
      destruct (eqb y k) eqn:Eyk; [|reflexivity].
      rewrite (eqb_trans y k x Eyk Ekx) in Eyx. discriminate.
Qed.

(** The sums over the classes that pass a test add up to the sum over the
    elements that pass it. *)
Lemma class_sums (g : A -> Q) (P : A -> bool) (U : list A) :
  (forall x y, eqb x y = true -> P x = P y) ->
  Permutation U (unique eqb l) ->
  (Qsum (map (fun k => Qsum (map g (filter (eqb k) l))) (filter P U))
   == Qsum (map g (filter P l)))%Q.
Proof.
  intros HP HU.
  rewrite (Qsum_filter (fun k => Qsum (map g (filter (eqb k) l))) P U).
  rewrite (Qsum_perm _ _ (Permutation_map _ HU)).
  rewrite (Qsum_ext _ (fun k => Qsum (map (fun x =>
             if eqb k x then (if P x then g x else 0%Q) else 0%Q) l))).
  - rewrite Qsum_exchange, (Qsum_filter g P l).
    apply Qsum_ext. intros x Hx. now apply unique_count.
  - intros k _. destruct (P k) eqn:Pk.
    + rewrite Qsum_filter. apply Qsum_ext. intros x _.
      destruct (eqb k x) eqn:E; [|reflexivity].
      now rewrite <- (HP k x E), Pk.
    + symmetry. apply Qsum_zero. intros x _.
      destruct (eqb k x) eqn:E; [|reflexivity].
      now rewrite <- (HP k x E), Pk.
Qed.

End Classes.

(** ** Finite counts *)

Lemma series_sum_finite {A} (f : A -> float) (l : list A) :
  (forall x, In x l -> finite (f x)) ->
  series_sum (map f l) = Fin (Qsum (map (fun x => qval (f x)) l)).
Proof.
  induction l as [|x l IH]; cbn [map]; intros H.
  - reflexivity.
  - rewrite series_sum_cons, IH by (intros y Hy; apply H; now right).
    destruct (H x (or_introl eq_refl)) as (q & ->). reflexivity.
Qed.

(** ** The groups *)

Lemma Z_compare_eqb (a b : Z) :
  match a ?= b with Eq => true | _ => false end = (a =? b).
Proof.
  destruct (Z.eqb_spec a b) as [->|N].
  - now rewrite Z.compare_refl.
  - destruct (a ?= b) eqn:E; try reflexivity. apply Z.compare_eq in E. contradiction.
Qed.

Lemma float_compare_eqb (x y : float) :
  match float_compare x y with Eq => true | _ => false end = feqb x y.
Proof.
  destruct x as [a| | |], y as [b| | |]; simpl; try reflexivity.
  destruct (Qeq_bool a b) eqn:E.
  - apply Qeq_bool_iff, Qeq_alt in E. now rewrite E.
  - destruct (a ?= b)%Q eqn:E'; try reflexivity.
    apply Qeq_alt, Qeq_bool_iff in E'. congruence.
Qed.

(** Two rows are in the same group when they agree on the five keys. *)
Lemma same_group_keys (x y : Row) :
  same_group x y
  = (site x =? site y) && (wildtype x =? wildtype y)%string
    && (mutation x =? mutation y)%string
    && feqb (Nsel x) (Nsel y) && feqb (Nmock x) (Nmock y).
Proof.
  unfold same_group, group_compare.
  rewrite <- Z_compare_eqb, <- !string_compare_eqb, <- !float_compare_eqb.
  destruct (site x ?= site y), (wildtype x ?= wildtype y)%string,
    (mutation x ?= mutation y)%string, (float_compare (Nsel x) (Nsel y)),
    (float_compare (Nmock x) (Nmock y)); reflexivity.
Qed.

Lemma feqb_sym (x y : float) : feqb x y = feqb y x.
Proof.
  destruct x as [a| | |], y as [b| | |]; simpl; try reflexivity.
  destruct (Qeq_bool a b) eqn:E, (Qeq_bool b a) eqn:E'; try reflexivity.
  - apply Qeq_bool_iff in E. symmetry in E. apply Qeq_bool_iff in E. congruence.
  - apply Qeq_bool_iff in E'. symmetry in E'. apply Qeq_bool_iff in E'. congruence.
Qed.

Lemma feqb_trans (x y z : float) :
  feqb x y = true -> feqb y z = true -> feqb x z = true.
Proof.
  destruct x as [a| | |], y as [b| | |], z as [c| | |]; simpl; try congruence.
  rewrite !Qeq_bool_iff. intros H1 H2. now rewrite H1.
Qed.

Lemma feqb_refl (x : float) : finite x -> feqb x x = true.
Proof. intros (q & ->). simpl. apply Qeq_bool_iff. reflexivity. Qed.

Lemma same_group_sym (x y : Row) : same_group x y = same_group y x.
Proof.
  rewrite !same_group_keys.
  now rewrite Z.eqb_sym, (String.eqb_sym (wildtype x)),
    (String.eqb_sym (mutation x)), (feqb_sym (Nsel x)), (feqb_sym (Nmock x)).
Qed.

Lemma same_group_trans (x y z : Row) :
  same_group x y = true -> same_group y z = true -> same_group x z = true.
Proof.
  rewrite !same_group_keys, !andb_true_iff, !Z.eqb_eq, !String.eqb_eq.
  intros ((((E1 & E2) & E3) & E4) & E5) ((((F1 & F2) & F3) & F4) & F5).
  repeat split; try congruence; eapply feqb_trans; eauto.
Qed.

Lemma same_group_refl (x : Row) :
  finite (Nsel x) -> finite (Nmock x) -> same_group x x = true.
Proof.
  intros H1 H2. rewrite same_group_keys, Z.eqb_refl, !String.eqb_refl.
  now rewrite !feqb_refl.
Qed.

Section Translation.
Variable CODON_TO_AA : list (string * string).
Variable m : list Row.
Hypothesis m_finite : finite_counts m.

Let T := replace CODON_TO_AA.
Let rows := map (translate_row CODON_TO_AA) m.

Lemma rows_finite : finite_counts rows.
Proof.
  intros x Hx. apply in_map_iff in Hx as (r & <- & Hr).
  cbn [translate_row nsel nmock Nsel Nmock]. exact (m_finite r Hr).
Qed.

Lemma rows_kept :
  filter (fun r => negb (isnan (Nsel r)) && negb (isnan (Nmock r))) rows = rows.
Proof.
  apply filter_all. intros x Hx.
  destruct (rows_finite x Hx) as (_ & _ & (a & ->) & (b & ->)). reflexivity.
Qed.

Lemma translate_rows :
  translate CODON_TO_AA m
  = map (fun k =>
      mkRow (site k) (wildtype k) (mutation k)
            (series_sum (map nsel (filter (same_group k) rows))) (Nsel k)
            (series_sum (map nmock (filter (same_group k) rows))) (Nmock k))
        (sort_values group_leb (unique same_group rows)).
Proof. unfold translate, groupby_sum. fold rows. now rewrite rows_kept. Qed.

Lemma group_in_m (k : Row) (col : Row -> float) :
  (forall r, col (translate_row CODON_TO_AA r) = col r) ->
  map col (filter (same_group k) rows)
  = map col (filter (fun r => same_group k (translate_row CODON_TO_AA r)) m).
Proof.
  intros Hcol. unfold rows. rewrite filter_map_comm, map_map.
  apply map_ext. exact Hcol.
Qed.

Lemma site_sums (col : Row -> float) (s : Z) :
  (forall r, col (translate_row CODON_TO_AA r) = col r) ->
  (forall r, In r m -> finite (col r)) ->
  feq (series_sum
         (map (fun k => series_sum (map col (filter (same_group k) rows)))
              (filter (fun k => site k =? s)
                      (sort_values group_leb (unique same_group rows)))))
      (series_sum (map col (filter (fun r => site r =? s) m))).
Proof.
  intros Hcol Hfin.
  assert (Hrows : forall x, In x rows -> finite (col x)).
  { intros x Hx. apply in_map_iff in Hx as (r & <- & Hr). rewrite Hcol. auto. }
  rewrite (series_sum_finite (fun k => series_sum (map col (filter (same_group k) rows)))).
  2:{ intros k _. rewrite series_sum_finite; [eexists; reflexivity|].
      intros x Hx. apply filter_In in Hx as [Hx _]. auto. }
  rewrite (series_sum_finite col).
  2:{ intros x Hx. apply filter_In in Hx as [Hx _]. auto. }
  simpl.
  rewrite (Qsum_ext _ (fun k => Qsum (map (fun x => qval (col x))
                                          (filter (same_group k) rows)))).
  2:{ intros k _. rewrite series_sum_finite; [reflexivity|].
      intros x Hx. apply filter_In in Hx as [Hx _]. auto. }
  rewrite (class_sums same_group rows).
  - unfold rows. rewrite filter_map_comm, map_map. apply Qsum_ext.
    intros r _. now rewrite Hcol.
  - intros x Hx. destruct (rows_finite x Hx) as (_ & _ & H1 & H2).
    now apply same_group_refl.
  - apply same_group_sym.
  - apply same_group_trans.
  - intros x y E. apply same_group_site in E. now rewrite E.
  - apply sort_values_perm.
Qed.

End Translation.

(** C5.  The translation to amino acids keeps the counts of every site:
    the sum of [nsel] (of [nmock]) over the rows of a site is the same
    after the translation as before.  The count of a row after the
    translation is the sum over the rows that [groupby] puts in its
    group: same site, same translated wildtype and mutation, same totals.
    A synonymous change is in the result as a row whose mutation is its
    wildtype. *)
Theorem translation_conserves_site_counts
    (CODON_TO_AA : list (string * string)) (m : list Row) :
  finite_counts m ->
  let aa := replace CODON_TO_AA in
  let translated := translate CODON_TO_AA m in
  (forall s,
      feq (series_sum (map nsel (filter (fun x => site x =? s) translated)))
          (series_sum (map nsel (filter (fun r => site r =? s) m)))
      /\ feq (series_sum (map nmock (filter (fun x => site x =? s) translated)))
             (series_sum (map nmock (filter (fun r => site r =? s) m))))
  /\ (forall x, In x translated ->
        let group :=
          filter (fun r =>
              (site x =? site r) && (wildtype x =? aa (wildtype r))%string
              && (mutation x =? aa (mutation r))%string
              && feqb (Nsel x) (Nsel r) && feqb (Nmock x) (Nmock r)) m in
        nsel x = series_sum (map nsel group)
        /\ nmock x = series_sum (map nmock group))
  /\ (forall r, In r m -> aa (mutation r) = aa (wildtype r) ->
        exists x, In x translated /\ site x = site r
                  /\ wildtype x = aa (wildtype r) /\ mutation x = wildtype x).
Proof.
  intros Hm aa translated. unfold translated.
  rewrite (translate_rows CODON_TO_AA m Hm).
  set (rows := map (translate_row CODON_TO_AA) m).
  set (keys := sort_values group_leb (unique same_group rows)).
  split; [|split].
  - intros s. rewrite filter_map_comm. cbn [site].
    rewrite !map_map. cbn [nsel nmock]. split.
    + apply (site_sums CODON_TO_AA m Hm nsel s); [reflexivity|].
      intros r Hr. now apply Hm.
    + apply (site_sums CODON_TO_AA m Hm nmock s); [reflexivity|].
      intros r Hr. now apply Hm.
  - intros x Hx. apply in_map_iff in Hx as (k & <- & _).
    cbn [nsel nmock site wildtype mutation Nsel Nmock].
    unfold rows. split.
    + rewrite (group_in_m CODON_TO_AA m k nsel) by reflexivity.
      f_equal. f_equal. apply filter_ext. intros r.
      rewrite same_group_keys. reflexivity.
    + rewrite (group_in_m CODON_TO_AA m k nmock) by reflexivity.
      f_equal. f_equal. apply filter_ext. intros r.
      rewrite same_group_keys. reflexivity.
  - intros r Hr Esyn.
    assert (Hin : In (translate_row CODON_TO_AA r) rows) by now apply in_map.
    destruct (unique_covers same_group rows) with (x := translate_row CODON_TO_AA r)
      as (k & Hk & Ek); auto.
    + intros x Hx. destruct (rows_finite CODON_TO_AA m Hm x Hx) as (_ & _ & H1 & H2).
      now apply same_group_refl.
    + apply same_group_trans.
    + rewrite same_group_keys, !andb_true_iff, Z.eqb_eq, !String.eqb_eq in Ek.
      destruct Ek as ((((E1 & E2) & E3) & _) & _). simpl in E1, E2, E3.
      eexists. split.
      * apply in_map_iff. exists k. split; [reflexivity|].
        now apply In_sort_values.
      * simpl. fold aa in E2, E3. repeat split; congruence.
Qed.

(** * Error correction *)

Lemma corrected_is_spec (is_wt : bool) (n N epsilon : float) :
  corrected is_wt n N epsilon = corrected_count_spec is_wt n N epsilon.
Proof. destruct is_wt; reflexivity. Qed.

Lemma site_set_ncol (name : sample) (v : float) (r : Row) :
  site (set_ncol name v r) = site r.
Proof. destruct name; reflexivity. Qed.

Lemma site_set_Ncol (name : sample) (v : float) (r : Row) :
  site (set_Ncol name v r) = site r.
Proof. destruct name; reflexivity. Qed.

Lemma ncol_set_ncol (name : sample) (v : float) (r : Row) :
  ncol name (set_ncol name v r) = v.
Proof. destruct name; reflexivity. Qed.

Section Blocks.
Context {K : Type} (key : K -> Z) (ts : list K) (cs : list string).
Hypothesis keys_unique : NoDup (map key ts).

Lemma correct_sample_blocks (name : sample) (R : K -> string -> Row)
    (eps : K -> string -> float) :
  (forall t c, site (R t c) = key t) ->
  correct_sample name (blocks ts cs R eps)
  = blocks ts cs (corrected_row cs name R eps) eps.
Proof.
  intros Hsite. unfold correct_sample, blocks. cbv zeta.
  rewrite !map_flat_map. apply flat_map_ext_in. intros t Ht.
  rewrite !map_map. apply map_ext. intros c. cbn [fst snd]. f_equal.
  unfold corrected_row. f_equal. unfold site_sum.
  rewrite (filter_ext _ (fun r' => site r' =? key t))
    by (intros r'; now rewrite site_set_ncol, Hsite).
  rewrite (filter_key_flat_map key site).
  - rewrite !map_map. apply f_equal. apply map_ext. intros c'. cbn [fst snd].
    apply ncol_set_ncol.
  - exact keys_unique.
  - exact Ht.
  - intros a b _ Hb. rewrite !map_map in Hb.
    apply in_map_iff in Hb as (c' & <- & _). cbn [fst snd].
    now rewrite site_set_ncol, Hsite.
Qed.

Lemma corrected_row_site (name : sample) (R : K -> string -> Row)
    (eps : K -> string -> float) :
  (forall t c, site (R t c) = key t) ->
  forall t c, site (corrected_row cs name R eps t c) = key t.
Proof.
  intros H t c. unfold corrected_row. now rewrite site_set_Ncol, site_set_ncol.
Qed.

End Blocks.

Lemma in_combine3 {A B C} (l1 : list A) (l2 : list B) (l3 : list C)
    (t : A * B * C) :
  In t (combine (combine l1 l2) l3) ->
  In (fst t) (combine l1 l2) /\ In (fst (fst t), snd t) (combine l1 l3).
Proof.
  revert l2 l3. induction l1 as [|x l1 IH]; intros [|y l2] [|z l3]; simpl;
    try tauto.
  intros [<-|H]; [simpl; auto|]. destruct (IH l2 l3 H). auto.
Qed.

Section ErrorCorrection.
Variable CODONS : list string.
Variable CODON_TO_AA : list (string * string).
Variable chars : list string.
Variables sel mock err : CountTable.
Hypothesis sel_ok : table_ok chars sel.
Hypothesis mock_ok : table_ok chars mock.
Hypothesis err_ok : table_ok chars err.
Hypothesis sel_mock_aligned : aligned sel mock = true.
Hypothesis err_sel_aligned : aligned err sel = true.

Let triples := site_triples sel mock err.
Let key (t : CountRow * CountRow * CountRow) : Z := cr_site (fst (fst t)).
Let cell := triple_cell sel mock.
Let eps := triple_epsilon err.

Lemma triples_keys_unique : NoDup (map key triples).
Proof.
  unfold key, triples, site_triples.
  rewrite <- (map_map fst (fun p : CountRow * CountRow => cr_site (fst p))).
  rewrite map_fst_combine.
  - eapply pairs_sites_unique; eauto.
  - rewrite length_combine, <- (aligned_length sel mock sel_mock_aligned).
    rewrite Nat.min_id. symmetry. now apply aligned_length.
Qed.

Lemma make_melted_err_ok :
  make_melted (sort_by_site sel) (sort_by_site mock) (Some (sort_by_site err))
  = Ok (joined_table sel mock,
        Some (map (fun r => (of_int (mr_n r), of_int (mr_N r)))
                  (melted_table err))).
Proof.
  unfold make_melted.
  rewrite (melted_sorted chars sel sel_ok), (melted_sorted chars mock mock_ok),
    (melted_sorted chars err err_ok).
  rewrite same_keys_same by reflexivity. cbn [assert bind].
  destruct (melted_keys_eq chars sel mock sel_ok mock_ok sel_mock_aligned)
    as (E1 & E2 & E3).
  rewrite same_keys_same by assumption. cbn [assert bind].
  destruct (melted_keys_eq chars sel err sel_ok err_ok
              (aligned_sym _ _ err_sel_aligned)) as (F1 & F2 & F3).
  rewrite same_keys_same by assumption. cbn [assert bind].
  f_equal. f_equal. unfold melted_table, joined_table.
  rewrite <- (sorted_vars_eq chars sel mock sel_ok mock_ok).
  rewrite combine_flat_map, map_flat_map. apply flat_map_ext_in. intros p _.
  rewrite map_map. reflexivity.
Qed.

Lemma with_epsilon :
  combine (joined_table sel mock)
    (map (fun x => fdiv (fst x) (snd x))
         (map (fun r => (of_int (mr_n r), of_int (mr_N r))) (melted_table err)))
  = blocks triples (sorted_vars sel) cell eps.
Proof.
  unfold joined_table, melted_table, blocks, triples, site_triples, cell, eps,
    triple_cell, triple_epsilon.
  rewrite <- (sorted_vars_eq chars sel err sel_ok err_ok).
  rewrite map_map, map_flat_map.
  rewrite (flat_map_ext_in
             (fun a => map (fun r => fdiv (fst (of_int (mr_n r), of_int (mr_N r)))
                                          (snd (of_int (mr_n r), of_int (mr_N r))))
                           (map (melt_cell err a) (sorted_vars sel)))
             (fun a => map (fun c => fdiv (of_int (cr_count a c))
                                          (of_int (site_total err a)))
                           (sorted_vars sel)))
    by (intros a _; rewrite map_map; reflexivity).
  rewrite combine_flat_map. reflexivity.
Qed.

Lemma prepare_err_ok :
  prepare CODONS CODON_TO_AA (sort_by_site sel) (sort_by_site mock) chars false
          (Some (sort_by_site err))
  = Ok (corrected_table sel mock err).
Proof.
  unfold prepare. rewrite make_melted_err_ok. cbn [bind fst snd].
  rewrite error_correction_returns, with_epsilon. cbn [bind].
  rewrite (correct_sample_blocks key) by (apply triples_keys_unique || reflexivity).
  rewrite (correct_sample_blocks key).
  - reflexivity.
  - apply triples_keys_unique.
  - apply corrected_row_site. reflexivity.
Qed.

Lemma In_corrected_table (x : Row) :
  In x (corrected_table sel mock err) <->
  exists t c, In t triples /\ In c (sorted_vars sel)
    /\ x = corrected_row (sorted_vars sel) mock_sample
             (corrected_row (sorted_vars sel) sel_sample cell eps) eps t c.
Proof.
  unfold corrected_table, blocks. rewrite map_flat_map, in_flat_map. split.
  - intros (t & Ht & Hx). rewrite map_map in Hx.
    apply in_map_iff in Hx as (c & <- & Hc). eauto.
  - intros (t & c & Ht & Hc & ->). exists t. split; [exact Ht|].
    rewrite map_map. apply in_map_iff. exists c. split; [reflexivity|exact Hc].
Qed.

Lemma triple_rows (t : CountRow * CountRow * CountRow) :
  In t triples ->
  row_of_site sel (key t) = Some (fst (fst t))
  /\ row_of_site mock (key t) = Some (snd (fst t))
  /\ row_of_site err (key t) = Some (snd t).
Proof.
  intros Ht. apply in_combine3 in Ht as [H1 H2].
  destruct (in_combine_sorted _ _ _ H1) as [Hs Hm].
  destruct (in_combine_sorted _ _ _ H2) as [_ He]. cbn [fst snd] in He.
  destruct (aligned_combine _ _ _ sel_mock_aligned H1) as (_ & E1 & _).
  destruct (aligned_combine _ _ _ (aligned_sym _ _ err_sel_aligned) H2)
    as (_ & E2 & _).
  cbn [fst snd] in E2. unfold key. repeat split.
  - now apply (row_of_site_unique chars).
  - rewrite E1. now apply (row_of_site_unique chars).
  - rewrite E2. now apply (row_of_site_unique chars).
Qed.

End ErrorCorrection.

Section Correction.
Variable CODONS : list string.
Variable CODON_TO_AA : list (string * string).

(** C2.  With an error-control table and valid aligned tables, the table
    [m] after the correction has one row for every site and character.
    With [epsilon] the count of the character over the total of the site
    in [err], the count of a sample is: for the wildtype, the count over
    [epsilon]; for any other character, [max(0, N * (n / N - epsilon))],
    [n] and [N] being the count and the total of the site before the
    correction.  The total of the site becomes the sum of the corrected
    counts over the characters. *)
Theorem error_correction_formula (sel mock err : CountTable)
    (chars : list string) (p : Q) :
  valid_table chars sel = true -> valid_table chars mock = true ->
  valid_table chars err = true ->
  aligned sel mock = true -> aligned err sel = true -> (0 < p)%Q ->
  exists m,
    (checked <- check_tables sel mock chars p (Some err) ;;
     prepare CODONS CODON_TO_AA (fst (fst checked)) (snd (fst checked)) chars
             false (snd checked)) = Ok m
    /\ (forall rs c, In rs (table_rows sel) -> In c (value_vars sel) ->
          exists x, In x m /\ site x = cr_site rs /\ mutation x = c)
    /\ forall x, In x m ->
         exists rs rm re,
           row_of_site sel (site x) = Some rs
           /\ row_of_site mock (site x) = Some rm
           /\ row_of_site err (site x) = Some re
           /\ wildtype x = cr_wildtype rs
           /\ let epsilon c :=
                fdiv (of_int (cr_count re c)) (of_int (site_total err re)) in
              let corrected_count df r c :=
                corrected_count_spec (c =? wildtype x)%string
                  (of_int (cr_count r c)) (of_int (site_total df r))
                  (epsilon c) in
              nsel x = corrected_count sel rs (mutation x)
              /\ nmock x = corrected_count mock rm (mutation x)
              /\ Nsel x
                 = series_sum (map (corrected_count sel rs) (sorted_vars sel))
              /\ Nmock x
                 = series_sum (map (corrected_count mock rm) (sorted_vars sel)).
Proof.
  intros Hs Hm He Ha Hae Hp.
  apply valid_table_ok in Hs, Hm, He. apply Qltb_true in Hp.
  exists (corrected_table sel mock err). split; [|split].
  - rewrite (check_tables_err_ok sel mock err chars p Hp Hs Hm He Ha Hae).
    cbn [bind fst snd]. now apply (prepare_err_ok CODONS CODON_TO_AA chars).
  - intros rs c Hrs Hc.
    apply (Permutation_in _ (Permutation_sym (sorted_rows_perm sel))) in Hrs.
    apply (In_sort_values String.leb) in Hc. fold (sorted_vars sel) in Hc.
    assert (exists t, In t (combine (combine (sorted_rows sel) (sorted_rows mock))
                                    (sorted_rows err)) /\ fst (fst t) = rs)
      as (t & Ht & <-).
    { pose proof (aligned_length _ _ Ha) as L1.
      pose proof (aligned_length _ _ Hae) as L2.
      revert Hrs L1 L2.
      generalize (sorted_rows sel) (sorted_rows mock) (sorted_rows err).
      induction l as [|a l IH]; intros [|b l0] [|e l1]; simpl;
        try discriminate; try tauto.
      intros [<-|Hin] L1 L2.
      - exists (a, b, e). auto.
      - destruct (IH l0 l1) as (t & Ht & Et); auto. exists t. auto. }
    eexists. split.
    + apply In_corrected_table. exists t, c. repeat split; [exact Ht|exact Hc].
    + split; reflexivity.
  - intros x Hx. apply In_corrected_table in Hx.
    destruct Hx as (t & c & Ht & Hc & ->).
    destruct (triple_rows chars sel mock err Hs Hm He Ha Hae t Ht)
      as (R1 & R2 & R3).
    exists (fst (fst t)), (snd (fst t)), (snd t).
    repeat split; try assumption.
    + unfold corrected_row, corrected_cell. cbn. apply corrected_is_spec.
    + unfold corrected_row, corrected_cell. cbn. apply corrected_is_spec.
    + unfold corrected_row, corrected_cell. cbn. f_equal. apply map_ext.
      intros c'. apply corrected_is_spec.
    + unfold corrected_row, corrected_cell. cbn. f_equal. apply map_ext.
      intros c'. apply corrected_is_spec.
Qed.

End Correction.

(** * Example tables *)

(** * Evaluating the call on given tables *)

Lemma In_log2_row (l : list (Row * float)) (r : Row) (v : float) :
  In (r, v) l ->
  In (mkOutRow (site r) (wildtype r) (mutation r) (xlog2 v)) (log2_rows l).
Proof.
  intros H. unfold log2_rows.
  apply (in_map (fun x => mkOutRow (site (fst x)) (wildtype (fst x))
                                   (mutation (fst x)) (xlog2 (snd x)))) in H.
  exact H.
Qed.

(** The call on the tables of one site, up to the logarithm. *)
Lemma one_site_call (mock : CountTable) (p mincount : Q) (m : list Row) :
  (checked <- check_tables sel_one_site mock nucleotides p None ;;
   prepare [] [] (fst (fst checked)) (snd (fst checked)) nucleotides false
           (snd checked)) = Ok m ->
  computeMutDiffSel [] [] sel_one_site mock nucleotides p false None mincount
  = Ok (log2_rows (enrichments p mincount m)).
Proof.
  intros H. unfold computeMutDiffSel.
  destruct (check_tables sel_one_site mock nucleotides p None) as [c|e];
    [|discriminate].
  cbn [bind] in *. rewrite H. reflexivity.
Qed.

(** C1, counterexample: a site with no reads in [mock].  The row of G has
    3 reads in [sel] and is not the wildtype, yet its [mutdiffsel] is
    NaN. *)
Lemma site_without_mock_reads_is_undefined :
  valid_table nucleotides sel_one_site = true
  /\ valid_table nucleotides mock_no_reads = true
  /\ aligned sel_one_site mock_no_reads = true
  /\ mutation_count (fun c => c) sel_one_site 1 "G" = 3
  /\ exists out,
       computeMutDiffSel [] [] sel_one_site mock_no_reads nucleotides 1 false
                         None 0 = Ok out
       /\ In (mkOutRow 1 "A" "G" RNaN) out.
Proof.
  repeat split; try (vm_compute; reflexivity).
  eexists. split.
  - apply one_site_call. vm_compute. reflexivity.
  - apply (In_log2_row _ (mkRow 1 "A" "G" (Fin 3) (Fin 4) (Fin 0) (Fin 0)) NaN).
    vm_compute. tauto.
Qed.

Lemma log2_Q2R_1 (q : Q) : (q == 1)%Q -> log2 (Q2R q) = 0%R.
Proof.
  intros H. rewrite (Qeq_eqR _ _ H).
  replace (Q2R 1) with 1%R by (unfold Q2R; simpl; field).
  apply log2_1.
Qed.

Lemma log2_Q2R_pos (q : Q) : (1 < q)%Q -> (0 < log2 (Q2R q))%R.
Proof.
  intros H. apply log2_pos. apply Qlt_Rlt in H.
  replace (Q2R 1) with 1%R in H by (unfold Q2R; simpl; field).
  exact H.
Qed.

(** C4, counterexample: at one site, the mutation C is 0 of 4 reads in
    [sel] and 1 of 4 in [mock], the wildtype 1 of 4 and 3 of 4.  With the
    pseudocount 1 the value is 0; with 2 it is [log2 (10/9)]. *)
Lemma larger_pseudocount_can_enlarge :
  valid_table nucleotides sel_one_site = true
  /\ valid_table nucleotides mock_one_site = true
  /\ aligned sel_one_site mock_one_site = true
  /\ exists out1 out2 (x1 x2 : R),
       computeMutDiffSel [] [] sel_one_site mock_one_site nucleotides 1 false
                         None 0 = Ok out1
       /\ computeMutDiffSel [] [] sel_one_site mock_one_site nucleotides 2 false
                            None 0 = Ok out2
       /\ In (mkOutRow 1 "A" "C" (RFin x1)) out1
       /\ In (mkOutRow 1 "A" "C" (RFin x2)) out2
       /\ (Rabs x1 < Rabs x2)%R.
Proof.
  repeat split; try (vm_compute; reflexivity).
  exists (log2_rows (enrichments 1 0
            [mkRow 1 "A" "A" (Fin 1) (Fin 4) (Fin 3) (Fin 4);
             mkRow 1 "A" "C" (Fin 0) (Fin 4) (Fin 1) (Fin 4);
             mkRow 1 "A" "G" (Fin 3) (Fin 4) (Fin 0) (Fin 4)])),
         (log2_rows (enrichments 2 0
            [mkRow 1 "A" "A" (Fin 1) (Fin 4) (Fin 3) (Fin 4);
             mkRow 1 "A" "C" (Fin 0) (Fin 4) (Fin 1) (Fin 4);
             mkRow 1 "A" "G" (Fin 3) (Fin 4) (Fin 0) (Fin 4)])),
         (log2 (Q2R (1024 # 1024))), (log2 (Q2R (2560 # 2304))).
  split; [|split; [|split; [|split]]].
  - apply one_site_call. vm_compute. reflexivity.
  - apply one_site_call. vm_compute. reflexivity.
  - rewrite <- (xlog2_positive (1024 # 1024)) by reflexivity.
    apply (In_log2_row _ (mkRow 1 "A" "C" (Fin 0) (Fin 4) (Fin 1) (Fin 4))).
    vm_compute. tauto.
  - rewrite <- (xlog2_positive (2560 # 2304)) by reflexivity.
    apply (In_log2_row _ (mkRow 1 "A" "C" (Fin 0) (Fin 4) (Fin 1) (Fin 4))).
    vm_compute. tauto.
  - rewrite (log2_Q2R_1 (1024 # 1024)) by reflexivity.
    rewrite Rabs_R0. apply Rabs_pos_lt. apply Rgt_not_eq.
    apply log2_Q2R_pos. reflexivity.
Qed.

(** C9, counterexample: the calls with [mincount = -1] and with
    [mincount = 1/2] return a table. *)
Lemma negative_mincount_is_accepted :
  (exists out,
      computeMutDiffSel [] [] sel_one_site mock_one_site nucleotides 1 false
                        None (-1 # 1) = Ok out)
  /\ (exists out,
        computeMutDiffSel [] [] sel_one_site mock_one_site nucleotides 1 false
                          None (1 # 2) = Ok out).
Proof.
  split; eexists; apply one_site_call; vm_compute; reflexivity.
Qed.

(** * Error-control tables with no wildtype count *)

Section DegenerateControl.
Variable CODONS : list string.
Variable CODON_TO_AA : list (string * string).

Lemma prepare_translated (sel mock : CountTable) (chars : list string)
    (tr : bool) (err : option CountTable) (m : list Row) :
  prepare CODONS CODON_TO_AA sel mock chars false err = Ok m ->
  (tr = true -> set_eqb chars CODONS = true) ->
  exists m', prepare CODONS CODON_TO_AA sel mock chars tr err = Ok m'.
Proof.
  unfold prepare. intros H Htr.
  destruct (make_melted sel mock err) as [me|e]; [|discriminate].
  cbn [bind] in *.
  destruct (match snd me with
            | Some e => error_correction (fst me) e
            | None => Ok (fst me)
            end) as [m0|e]; [|discriminate].
  cbn [bind] in *. destruct tr; [|eauto].
  rewrite Htr by reflexivity. cbn [assert bind]. eauto.
Qed.

(** C7.  The assertion of line 82 does not see a count of 0: with an
    error-control table in which the wildtype of some site has the count
    0, and valid aligned tables, [computeMutDiffSel] returns a table. *)
Theorem zero_wildtype_error_count_is_not_detected (sel mock err : CountTable)
    (chars : list string) (p : Q) (tr : bool) (mincount : Q) :
  valid_table chars sel = true -> valid_table chars mock = true ->
  valid_table chars err = true ->
  aligned sel mock = true -> aligned err sel = true -> (0 < p)%Q ->
  (tr = true -> set_eqb chars CODONS = true) ->
  (exists re, In re (table_rows err) /\ cr_count re (cr_wildtype re) = 0) ->
  exists out,
    computeMutDiffSel CODONS CODON_TO_AA sel mock chars p tr (Some err) mincount
    = Ok out.
Proof.
  intros Hs Hm He Ha Hae Hp Htr _.
  apply valid_table_ok in Hs, Hm, He. apply Qltb_true in Hp.
  destruct (prepare_translated (sort_by_site sel) (sort_by_site mock) chars tr
              (Some (sort_by_site err)) (corrected_table sel mock err))
    as (m & Hprep); [now apply prepare_err_ok|exact Htr|].
  eexists. eapply computeMutDiffSel_returns.
  - now apply check_tables_err_ok.
  - exact Hprep.
Qed.

End DegenerateControl.

Lemma zero_wildtype_error_count_example :
  exists out,
    computeMutDiffSel [] [] sel_one_site mock_one_site nucleotides 1 false
                      (Some err_no_wildtype) 0 = Ok out.
Proof.
  apply (zero_wildtype_error_count_is_not_detected [] [] sel_one_site
           mock_one_site err_no_wildtype nucleotides 1 false 0);
    try reflexivity; try discriminate.
  exists (mkCountRow 0 1 "A" (counts (combine nucleotides [0; 2; 1]))).
  split; [left; reflexivity|reflexivity].
Defined.

(** * The theorems on the example tables *)

Lemma mutdiffsel_defined_unless_masked_codons :
  exists out,
    computeMutDiffSel three_codons three_codons_to_aa sel_codons mock_codons
                      three_codons 1 true None 2 = Ok out
    /\ forall o, In o out ->
         let count_of df :=
           inject_Z (mutation_count (translation three_codons_to_aa true) df
                                    (o_site o) (o_mutation o)) in
         let is_masked :=
           o_mutation o = o_wildtype o
           \/ ((count_of sel_codons < 2)%Q /\ (count_of mock_codons < 2)%Q) in
         (mutdiffsel o = RNaN <-> is_masked)
         /\ (~ is_masked -> exists x : R, mutdiffsel o = RFin x).
Proof.
  apply (mutdiffsel_defined_unless_masked three_codons three_codons_to_aa
           sel_codons mock_codons three_codons 1 true 2);
    reflexivity.
Defined.

Lemma error_correction_formula_two_sites :
  exists m,
    (checked <- check_tables sel_two_sites mock_two_sites nucleotides 1
                             (Some err_two_sites) ;;
     prepare [] [] (fst (fst checked)) (snd (fst checked)) nucleotides
             false (snd checked)) = Ok m
    /\ List.length m = 6%nat.
Proof.
  destruct (error_correction_formula [] [] sel_two_sites mock_two_sites
              err_two_sites nucleotides 1) as (m & Hm & _);
    try reflexivity.
  exists m. split; [exact Hm|].
  vm_compute in Hm. injection Hm as <-. reflexivity.
Defined.

Lemma swapping_samples_negates_two_sites :
  exists out out',
    computeMutDiffSel [] [] sel_two_sites mock_two_sites nucleotides 1 false
                      None 0 = Ok out
    /\ computeMutDiffSel [] [] mock_two_sites sel_two_sites nucleotides 1 false
                         None 0 = Ok out'
    /\ Forall2 (fun o o' =>
          o_site o' = o_site o /\ o_wildtype o' = o_wildtype o
          /\ o_mutation o' = o_mutation o
          /\ mutdiffsel o' = xopp (mutdiffsel o))
        out out'.
Proof.
  apply (swapping_samples_negates [] [] sel_two_sites mock_two_sites
           nucleotides 1 false 0);
    try reflexivity; discriminate.
Defined.

Lemma pseudocount_shrinks_two_sites :
  exists out1 out2,
    computeMutDiffSel [] [] sel_two_sites mock_two_sites nucleotides 1 false
                      None 0 = Ok out1
    /\ computeMutDiffSel [] [] sel_two_sites mock_two_sites nucleotides 10 false
                         None 0 = Ok out2.
Proof.
  destruct (pseudocount_shrinks_opposed_shifts [] [] sel_two_sites
              mock_two_sites nucleotides 1 10 false 0)
    as (out1 & out2 & H1 & H2 & _);
    try reflexivity; try discriminate.
  exists out1, out2. split; assumption.
Defined.

Lemma translation_conserves_codon_rows :
  feq (series_sum (map nsel (filter (fun x => site x =? 1)
                               (translate three_codons_to_aa codon_rows))))
      (series_sum (map nsel (filter (fun r => site r =? 1) codon_rows)))
  /\ In (mkRow 1 "K" "K" (Fin 14) (Fin 17) (Fin 14) (Fin 15))
        (translate three_codons_to_aa codon_rows).
Proof.
  destruct (translation_conserves_site_counts three_codons_to_aa codon_rows)
    as (Hsum & _ & _).
  - intros r Hr. simpl in Hr.
    destruct Hr as [<-|[<-|[<-|[]]]]; repeat split; eexists; reflexivity.
  - split; [apply (Hsum 1)|]. vm_compute. tauto.
Defined.

Lemma abs_is_positive_minus_negative_doctest :
  exists out,
    mutToSiteDiffSel doctest_table = Ok out
    /\ Forall (fun row =>
          feq (abs_diffsel row)
              (fsub (positive_diffsel row) (negative_diffsel row))) out.
Proof.
  eexists. split; [vm_compute; reflexivity|].
  apply Forall_forall. intros row Hrow.
  eapply (abs_is_positive_minus_negative doctest_table);
    [vm_compute; reflexivity|exact Hrow].
Defined.

Lemma misaligned_sites_123_124 :
  computeMutDiffSel [] [] sel_sites_123 mock_sites_124 nucleotides 1 false
                    None 0
  = Raise (AssertionError "Inconsistent sites").
Proof.
  destruct (misaligned_tables_raise [] [] sel_sites_123 mock_sites_124
              nucleotides 1 false None 0) as (e & He & Hc & _).
  - left. vm_compute. discriminate.
  - rewrite Hc. vm_compute in He. injection He as <-. reflexivity.
Defined.

Lemma nonpositive_pseudocount_raises :
  computeMutDiffSel [] [] sel_one_site mock_one_site nucleotides 0 false None
                    (-1 # 1)
  = Raise (AssertionError "").
Proof.
  apply (proj2 (mincount_is_not_checked [] [] sel_one_site mock_one_site
                  nucleotides 0 false None (-1 # 1) 0)).
  unfold Qle. simpl. lia.
Defined.

Lemma pivot_refuses_duplicate_example :
  mutToSiteDiffSel table_with_duplicate
  = Raise (ValueError "Index contains duplicate entries, cannot reshape").
Proof.
  apply (proj1 (pivot_refuses_duplicates table_with_duplicate)).
  exists [], (mkDiffSelRow 1 "A" "C" (Fin (1#2))),
         [mkDiffSelRow 1 "A" "G" (Fin 1)],
         (mkDiffSelRow 1 "A" "C" (Fin 2)), [].
  repeat split.
Defined.

(** * The other checks of [computeMutDiffSel] *)

Lemma list_eqb_refl {A} (eqb : A -> A -> bool) (l : list A) :
  (forall x, eqb x x = true) -> list_eqb eqb l l = true.
Proof.
  intros H. induction l as [|x l IH]; simpl; [reflexivity|].
  now rewrite H, IH.
Qed.

(** Two series with the same labels are compared value by value. *)
Lemma series_eq_labels {A} (eqb : A -> A -> bool) (s1 s2 : Series A) :
  map fst s1 = map fst s2 ->
  series_eq eqb s1 s2
  = Ok (map (fun p => eqb (snd (fst p)) (snd (snd p))) (combine s1 s2)).
Proof.
  intros H. unfold series_eq. rewrite H, list_eqb_refl; [reflexivity|].
  apply Z.eqb_refl.
Qed.

Section OtherChecks.
Variable CODONS : list string.
Variable CODON_TO_AA : list (string * string).

(** X1.  When the columns of [sel], or those of [mock], are not exactly
    site, wildtype and the characters, and the pseudocount is positive,
    [computeMutDiffSel] raises the assertion error with the message
    "Invalid columns for sel": the message is the same for [mock], as
    line 47 has it. *)
Theorem unexpected_columns_raise (sel mock : CountTable) (chars : list string)
    (p : Q) (tr : bool) (err : option CountTable) (mincount : Q) :
  (0 < p)%Q ->
  (exists c, ~ (In c (columns sel) <-> In c ("site" :: "wildtype" :: chars)))
  \/ (exists c, ~ (In c (columns mock) <-> In c ("site" :: "wildtype" :: chars))) ->
  computeMutDiffSel CODONS CODON_TO_AA sel mock chars p tr err mincount
  = Raise (AssertionError "Invalid columns for sel").
Proof.
  intros Hp H. apply computeMutDiffSel_raises. unfold check_tables.
  apply Qltb_true in Hp. rewrite Hp. cbn [assert bind].
  destruct (set_eqb (columns sel) _) eqn:Es; cbn [assert bind]; [|reflexivity].
  destruct (set_eqb (columns mock) _) eqn:Em; cbn [assert bind]; [|reflexivity].
  exfalso. destruct H as [[c Hc]|[c Hc]]; apply Hc.
  - now apply set_eqb_spec.
  - now apply set_eqb_spec.
Qed.

(** X3.  With valid aligned [sel] and [mock]: an error-control table whose
    columns are not the expected ones raises "Invalid columns for err";
    one with the expected columns and the labels of [sel], whose sites or
    wildtypes, sorted by site, are not those of [sel], raises the
    assertion error with the message "Inconsistent sites", for the
    wildtypes too, as line 58 has it. *)
Theorem misaligned_control_raises (sel mock err : CountTable)
    (chars : list string) (p : Q) (tr : bool) (mincount : Q) :
  valid_table chars sel = true -> valid_table chars mock = true ->
  aligned sel mock = true -> (0 < p)%Q ->
  ((exists c, ~ (In c (columns err) <-> In c ("site" :: "wildtype" :: chars))) ->
   computeMutDiffSel CODONS CODON_TO_AA sel mock chars p tr (Some err) mincount
   = Raise (AssertionError "Invalid columns for err"))
  /\ (set_eqb (columns err) ("site" :: "wildtype" :: chars) = true ->
      map cr_label (sorted_rows err) = map cr_label (sorted_rows sel) ->
      map cr_site (sorted_rows err) <> map cr_site (sorted_rows sel)
      \/ map cr_wildtype (sorted_rows err) <> map cr_wildtype (sorted_rows sel) ->
      computeMutDiffSel CODONS CODON_TO_AA sel mock chars p tr (Some err) mincount
      = Raise (AssertionError "Inconsistent sites")).
Proof.
  intros Hs Hm Ha Hp. apply valid_table_ok in Hs, Hm. apply Qltb_true in Hp.
  assert (Hpre : forall k,
    check_tables sel mock chars p (Some err)
    = k ->
    (assert (set_eqb (columns err) ("site" :: "wildtype" :: chars))
            "Invalid columns for err" ;;;
     b <- series_eq Z.eqb (site_column (sort_by_site err))
                          (site_column (sort_by_site sel)) ;;
     assert (all b) "Inconsistent sites" ;;;
     b <- series_eq String.eqb (wildtype_column (sort_by_site err))
                               (wildtype_column (sort_by_site sel)) ;;
     assert (all b) "Inconsistent sites" ;;;
     Ok (sort_by_site sel, sort_by_site mock, Some (sort_by_site err))) = k).
  { intros k <-. unfold check_tables.
    rewrite Hp, (ok_columns _ _ Hs), (ok_columns _ _ Hm). cbn [assert bind].
    destruct (sites_aligned_ok _ _ Ha) as (b1 & -> & Hb1). cbn [bind].
    rewrite Hb1. cbn [assert bind].
    destruct (wildtypes_aligned_ok _ _ Ha) as (b2 & -> & Hb2). cbn [bind].
    rewrite Hb2. cbn [assert bind]. reflexivity. }
  split.
  - intros [c Hc]. apply computeMutDiffSel_raises.
    rewrite <- (Hpre _ eq_refl).
    destruct (set_eqb (columns err) _) eqn:Ee; [|reflexivity].
    exfalso. apply Hc. now apply set_eqb_spec.
  - intros Hc Hl Hd. apply computeMutDiffSel_raises.
    rewrite <- (Hpre _ eq_refl). rewrite Hc. cbn [assert bind].
    assert (E1 := series_eq_labels Z.eqb (site_column (sort_by_site err))
                    (site_column (sort_by_site sel))).
    assert (E2 := series_eq_labels String.eqb
                    (wildtype_column (sort_by_site err))
                    (wildtype_column (sort_by_site sel))).
    rewrite !site_column_fst in E1. rewrite !wildtype_column_fst in E2.
    specialize (E1 Hl). specialize (E2 Hl). rewrite E1. cbn [bind].
    destruct (all _) eqn:A1 in |- *; cbn [assert bind]; [|reflexivity].
    rewrite E2. cbn [bind].
    destruct (all _) eqn:A2 in |- *; cbn [assert bind]; [|reflexivity].
    exfalso.
    apply series_eq_all in E1; [|apply Z.eqb_eq|exact A1].
    apply series_eq_all in E2; [|apply String.eqb_eq|exact A2].
    rewrite !site_column_snd in E1. rewrite !wildtype_column_snd in E2.
    destruct Hd as [Hd|Hd]; apply Hd; assumption.
Qed.

(** X4.  The translation asked for on characters that are not the codons:
    the tables being valid and aligned, [computeMutDiffSel] raises the
    assertion error of line 96, with or without an error control. *)
Theorem translation_needs_codons (sel mock : CountTable) (chars : list string)
    (p : Q) (err : option CountTable) (mincount : Q) :
  valid_table chars sel = true -> valid_table chars mock = true ->
  aligned sel mock = true -> (0 < p)%Q ->
  (forall e, err = Some e -> valid_table chars e = true /\ aligned e sel = true) ->
  (exists c, ~ (In c chars <-> In c CODONS)) ->
  computeMutDiffSel CODONS CODON_TO_AA sel mock chars p true err mincount
  = Raise (AssertionError "translate_to_aa specified, but not using codons").
Proof.
  intros Hs Hm Ha Hp He [c Hc].
  apply valid_table_ok in Hs, Hm. apply Qltb_true in Hp.
  assert (Hset : set_eqb chars CODONS = false).
  { destruct (set_eqb chars CODONS) eqn:E; [|reflexivity].
    exfalso. apply Hc. now apply set_eqb_spec. }
  unfold computeMutDiffSel. destruct err as [e|].
  - destruct (He e eq_refl) as [Hv Hae]. apply valid_table_ok in Hv.
    rewrite (check_tables_err_ok sel mock e chars p Hp Hs Hm Hv Ha Hae).
    cbn [bind fst snd]. unfold prepare.
    rewrite (make_melted_err_ok chars sel mock e Hs Hm Hv Ha Hae).
    cbn [bind fst snd]. rewrite error_correction_returns. cbn [bind].
    rewrite Hset. reflexivity.
  - rewrite (check_tables_ok sel mock chars p Hp Hs Hm Ha).
    cbn [bind fst snd]. unfold prepare.
    rewrite (make_melted_ok chars sel mock Hs Hm Ha). cbn [bind fst snd].
    rewrite Hset. reflexivity.
Qed.

End OtherChecks.

(** * The threshold and the order of the rows *)

Lemma Forall2_map_same {A B} (P : B -> B -> Prop) (f g : A -> B) (l : list A) :
  (forall x, In x l -> P (f x) (g x)) -> Forall2 P (map f l) (map g l).
Proof.
  induction l as [|x l IH]; simpl; intros H; constructor.
  - apply H. now left.
  - apply IH. intros y Hy. apply H. now right.
Qed.

Lemma fge_threshold (x : float) (a b : Q) :
  (a <= b)%Q -> fge x (Fin b) = true -> fge x (Fin a) = true.
Proof.
  intros H. destruct x as [q| | |]; simpl; try tauto.
  rewrite !Qle_bool_true. lra.
Qed.

Lemma not_masked_threshold (a b : Q) (r : Row) :
  (a <= b)%Q -> not_masked b r = true -> not_masked a r = true.
Proof.
  intros H. unfold not_masked. rewrite !andb_true_iff, !orb_true_iff.
  intros [H1 [H2|H2]]; split; auto; [left|right];
    now apply (fge_threshold _ a b).
Qed.

Section Threshold.
Variable CODONS : list string.
Variable CODON_TO_AA : list (string * string).

(** X11.  Raising [mincount] changes nothing but the mask: the table has
    the same rows in the same order, and a value either stays as it is or
    becomes NaN. *)
Theorem larger_mincount_only_masks (sel mock : CountTable)
    (chars : list string) (p : Q) (tr : bool) (err : option CountTable)
    (mincount mincount' : Q) (out : list OutRow) :
  (mincount <= mincount')%Q ->
  computeMutDiffSel CODONS CODON_TO_AA sel mock chars p tr err mincount
  = Ok out ->
  exists out',
    computeMutDiffSel CODONS CODON_TO_AA sel mock chars p tr err mincount'
    = Ok out'
    /\ Forall2 (fun o o' =>
          o_site o' = o_site o /\ o_wildtype o' = o_wildtype o
          /\ o_mutation o' = o_mutation o
          /\ (mutdiffsel o' = mutdiffsel o \/ mutdiffsel o' = RNaN))
        out out'.
Proof.
  intros Hle. unfold computeMutDiffSel.
  destruct (check_tables sel mock chars p err) as [c|e]; [|discriminate].
  cbn [bind]. destruct (prepare _ _ _ _ _ _ _) as [m|e]; [|discriminate].
  cbn [bind]. intros H. inversion H; subst out. clear H.
  eexists. split; [reflexivity|].
  unfold log2_rows, enrichments. rewrite !map_map.
  apply Forall2_map_same. intros x _. cbn [fst snd o_site o_wildtype o_mutation
                                            mutdiffsel].
  repeat split. unfold enrichment. cbv zeta.
  destruct (not_masked mincount' _) eqn:E.
  - left. now rewrite (not_masked_threshold mincount mincount' _ Hle E).
  - right. reflexivity.
Qed.

(** X5.  The order in which the rows of [sel] and [mock] are given does
    not matter, each row keeping its index label: the tables are sorted
    by site first, and the sites of a table are unique. *)
Theorem row_order_is_irrelevant (sel sel' mock mock' : CountTable)
    (chars : list string) (p : Q) (tr : bool) (err : option CountTable)
    (mincount : Q) :
  columns sel' = columns sel -> columns mock' = columns mock ->
  Permutation (table_rows sel) (table_rows sel') ->
  Permutation (table_rows mock) (table_rows mock') ->
  NoDup (map cr_site (table_rows sel)) ->
  NoDup (map cr_site (table_rows mock)) ->
  computeMutDiffSel CODONS CODON_TO_AA sel' mock' chars p tr err mincount
  = computeMutDiffSel CODONS CODON_TO_AA sel mock chars p tr err mincount.
Proof.
  intros Cs Cm Ps Pm Ns Nm.
  assert (Hsort : forall df df', columns df' = columns df ->
            Permutation (table_rows df) (table_rows df') ->
            NoDup (map cr_site (table_rows df)) ->
            sort_by_site df' = sort_by_site df).
  { intros df df' Hc Hp Hn. unfold sort_by_site. rewrite Hc. f_equal.
    apply (sorted_unique site_leb).
    - apply sort_values_sorted; [apply site_leb_total|apply site_leb_trans].
    - apply sort_values_sorted; [apply site_leb_total|apply site_leb_trans].
    - rewrite !sort_values_perm. now symmetry.
    - intros x y Hx Hy H1 H2. unfold site_leb in H1, H2.
      apply Z.leb_le in H1, H2.
      apply (Permutation_in _ (sort_values_perm site_leb _)) in Hx, Hy.
      apply (Permutation_in _ (Permutation_sym Hp)) in Hx, Hy.
      apply (NoDup_map_inj cr_site (table_rows df)); auto. lia. }
  unfold computeMutDiffSel, check_tables. cbv zeta.
  now rewrite Cs, Cm, (Hsort sel sel' Cs Ps Ns), (Hsort mock mock' Cm Pm Nm).
Qed.

End Threshold.

(** * The value of [mutdiffsel] *)

(** [max(1, a / b)] on the real numbers. *)
Lemma Q2R_depth_ratio (a b : Z) :
  0 < b ->
  Q2R (depth_ratio (inject_Z a) (inject_Z b)) = Rmax 1 (IZR a / IZR b).
Proof.
  intros Hb. unfold depth_ratio.
  assert (Hb' : ~ (inject_Z b == 0)%Q).
  { change 0%Q with (inject_Z 0). rewrite inject_Z_injective. lia. }
  assert (E : Q2R (inject_Z a / inject_Z b) = (IZR a / IZR b)%R).
  { rewrite Q2R_div by exact Hb'. now rewrite !Q2R_inject_Z. }
  destruct (Qle_bool 1 (inject_Z a / inject_Z b)) eqn:C.
  - apply Qle_bool_true, Qle_Rle in C. rewrite E, RMicromega.Q2R_1 in C.
    rewrite E. symmetry. now apply Rmax_right.
  - apply Qle_bool_false, Qlt_Rlt in C. rewrite E, RMicromega.Q2R_1 in C.
    rewrite RMicromega.Q2R_1. symmetry. apply Rmax_left. lra.
Qed.

(** The value of a row that is not masked, from the counts of the two
    tables. *)
Lemma unmasked_row_value (CODON_TO_AA : list (string * string))
    (chars : list string) (sel mock : CountTable) (tr : bool) (p mincount : Q)
    (r w : Row) :
  table_ok chars sel -> table_ok chars mock -> aligned sel mock = true ->
  positive_totals sel = true -> positive_totals mock = true -> (0 < p)%Q ->
  In r (prepared CODON_TO_AA tr sel mock) ->
  In w (prepared CODON_TO_AA tr sel mock) ->
  is_wildtype w = true -> site w = site r -> not_masked mincount r = true ->
  let count df c :=
    IZR (mutation_count (translation CODON_TO_AA tr) df (site r) c) in
  let total df := IZR (total_count df (site r)) in
  xlog2 (row_enrichment p mincount r w)
  = RFin (log2 (Renrichment (Q2R p)
                  (count sel (mutation r)) (count mock (mutation r))
                  (count sel (wildtype r)) (count mock (wildtype r))
                  (Rmax 1 (total sel / total mock))
                  (Rmax 1 (total mock / total sel)))).
Proof.
  intros Hs Hm Ha Ps Pm Hp Hr Hw Hwt Es Hmask count total.
  set (T := translation CODON_TO_AA tr) in *.
  destruct (prepared_rows CODON_TO_AA chars sel mock Hs Hm Ha tr r Hr)
    as (rs & rm & Cr).
  destruct (prepared_rows CODON_TO_AA chars sel mock Hs Hm Ha tr w Hw)
    as (ws & wm & Cw).
  fold T in Cr, Cw.
  pose proof (wildtype_row_mutation chars sel mock T r w _ _ _ _ Cr Cw Es Hwt)
    as Ew.
  destruct (row_enrichment_value chars sel mock T p mincount r w _ _ _ _
              Hs Hm Ps Pm Hp Cr Cw Es Hmask)
    as (qs & qm & vs & vm & Hqs & Hqm & Hvs & Hvm & E & P).
  rewrite Ew in Hvs, Hvm. rewrite E, xlog2_positive by exact P.
  f_equal. f_equal.
  assert (Ts : 0 < total_count sel (site r))
    by (eapply total_count_positive; [exact Ps|apply (rc_sel_in _ _ _ _ _ _ Cr)]).
  assert (Tm : 0 < total_count mock (site r))
    by (eapply total_count_positive; [exact Pm|apply (rc_mock_in _ _ _ _ _ _ Cr)]).
  rewrite Q2R_enrichment_value; try assumption;
    try (eapply nonneg_of_count; [eassumption|];
         apply (mutation_count_nonneg chars); assumption).
  rewrite (Qeq_eqR _ _ Hqs), (Qeq_eqR _ _ Hqm), (Qeq_eqR _ _ Hvs),
    (Qeq_eqR _ _ Hvm), !Q2R_inject_Z, !Q2R_depth_ratio by assumption.
  reflexivity.
Qed.

Section Value.
Variable CODONS : list string.
Variable CODON_TO_AA : list (string * string).

(** X9.  The value on a row that is not masked: the logarithm of the
    ratio of lines 105-118 on the counts of the two tables, that is
    [((n_sel + p a) / (wt_sel + p a)) / ((n_mock + p b) / (wt_mock + p b))]
    with [a = max(1, N_sel / N_mock)] and [b = max(1, N_mock / N_sel)],
    the counts of an amino acid being summed over its codons. *)
Theorem mutdiffsel_value (sel mock : CountTable) (chars : list string)
    (p : Q) (tr : bool) (mincount : Q) :
  valid_table chars sel = true -> valid_table chars mock = true ->
  aligned sel mock = true ->
  positive_totals sel = true -> positive_totals mock = true ->
  (0 < p)%Q -> (tr = true -> set_eqb chars CODONS = true) ->
  exists out,
    computeMutDiffSel CODONS CODON_TO_AA sel mock chars p tr None mincount
    = Ok out
    /\ forall o, In o out ->
         let count df c :=
           mutation_count (translation CODON_TO_AA tr) df (o_site o) c in
         let total df := IZR (total_count df (o_site o)) in
         o_mutation o <> o_wildtype o ->
         (mincount <= inject_Z (count sel (o_mutation o))
          \/ mincount <= inject_Z (count mock (o_mutation o)))%Q ->
         mutdiffsel o
         = RFin (log2 (Renrichment (Q2R p)
                         (IZR (count sel (o_mutation o)))
                         (IZR (count mock (o_mutation o)))
                         (IZR (count sel (o_wildtype o)))
                         (IZR (count mock (o_wildtype o)))
                         (Rmax 1 (total sel / total mock))
                         (Rmax 1 (total mock / total sel)))).
Proof.
  intros Hs Hm Ha Ps Pm Hp Hc. eexists. split.
  { now apply computeMutDiffSel_prepared. }
  intros o Ho. apply In_log2_rows in Ho as (r & w & Hr & Hw & Hwt & Es & ->).
  cbn [o_site o_mutation o_wildtype mutdiffsel]. intros Hne Hmin.
  apply valid_table_ok in Hs, Hm.
  destruct (prepared_rows CODON_TO_AA chars sel mock Hs Hm Ha tr r Hr)
    as (rs & rm & Cr).
  assert (M : not_masked mincount r = true).
  { destruct (not_masked mincount r) eqn:F; [reflexivity|exfalso].
    apply (not_masked_counts chars sel mock _ mincount r rs rm Cr) in F.
    destruct F as [F|[F1 F2]]; [now apply Hne|].
    destruct Hmin; lra. }
  now apply (unmasked_row_value CODON_TO_AA chars sel mock tr p mincount r w).
Qed.

Lemma same_row_keys_refl (r : CountRow) : same_row_keys r r = true.
Proof.
  unfold same_row_keys. now rewrite !Z.eqb_refl, String.eqb_refl.
Qed.

(** X10.  A sample against itself shows no selection: every value of the
    result is 0 or, on the masked rows, NaN. *)
Theorem same_sample_gives_zero (sel : CountTable) (chars : list string)
    (p : Q) (tr : bool) (mincount : Q) :
  valid_table chars sel = true -> positive_totals sel = true ->
  (0 < p)%Q -> (tr = true -> set_eqb chars CODONS = true) ->
  exists out,
    computeMutDiffSel CODONS CODON_TO_AA sel sel chars p tr None mincount
    = Ok out
    /\ forall o, In o out -> mutdiffsel o = RNaN \/ mutdiffsel o = RFin 0.
Proof.
  intros Hs Ps Hp Hc.
  assert (Ha : aligned sel sel = true).
  { unfold aligned. apply list_eqb_refl, same_row_keys_refl. }
  eexists. split.
  { now apply computeMutDiffSel_prepared. }
  intros o Ho. apply In_log2_rows in Ho as (r & w & Hr & Hw & Hwt & Es & ->).
  cbn [mutdiffsel]. apply valid_table_ok in Hs.
  destruct (not_masked mincount r) eqn:M.
  - right.
    rewrite (unmasked_row_value CODON_TO_AA chars sel sel tr p mincount r w)
      by assumption.
    f_equal.
    destruct (prepared_rows CODON_TO_AA chars sel sel Hs Hs Ha tr r Hr)
      as (rs & rm & Cr).
    assert (Ts : 0 < total_count sel (site r))
      by (eapply total_count_positive;
          [exact Ps|apply (rc_sel_in _ _ _ _ _ _ Cr)]).
    pose proof (mutation_count_nonneg chars
                  (translation CODON_TO_AA tr) sel (site r) (mutation r) Hs) as Hn.
    pose proof (mutation_count_nonneg chars
                  (translation CODON_TO_AA tr) sel (site r) (wildtype r) Hs) as Hv.
    apply IZR_lt in Ts. apply IZR_le in Hn, Hv. apply Q2R_pos in Hp.
    unfold Renrichment.
    replace (IZR (total_count sel (site r)) / IZR (total_count sel (site r)))%R
      with 1%R by (field; lra).
    rewrite Rmax_left by lra.
    set (n := IZR (mutation_count _ sel (site r) (mutation r))) in *.
    set (v := IZR (mutation_count _ sel (site r) (wildtype r))) in *.
    replace ((n + Q2R p * 1) / (v + Q2R p * 1) / ((n + Q2R p * 1) / (v + Q2R p * 1)))%R
      with 1%R by (field; lra).
    apply log2_1.
  - left. now rewrite (row_enrichment_masked p mincount r w M).
Qed.

End Value.

(** * The rows of the result *)

Lemma flat_map_flat_map {A B C} (f : A -> list B) (g : B -> list C)
    (l : list A) :
  flat_map g (flat_map f l) = flat_map (fun a => flat_map g (f a)) l.
Proof.
  induction l as [|x l IH]; simpl; [reflexivity|].
  now rewrite flat_map_app, IH.
Qed.

Lemma flat_map_filter {A B} (b : A -> bool) (h : A -> list B) (l : list A) :
  flat_map (fun a => if b a then h a else []) l = flat_map h (filter b l).
Proof.
  induction l as [|x l IH]; simpl; [reflexivity|].
  destruct (b x); simpl; now rewrite IH.
Qed.

Lemma flat_map_singleton {A B C} (f : A -> B) (g : A -> C) (l : list A) :
  flat_map (fun a => map (fun _ : C => f a) [g a]) l = map f l.
Proof.
  induction l as [|x l IH]; simpl in *; [reflexivity|]. now rewrite IH.
Qed.

Lemma flat_map_nil {A B} (l : list A) :
  flat_map (fun _ : A => @nil B) l = [].
Proof. induction l as [|x l IH]; simpl; auto. Qed.

(** In a list without repetition, one element passes the test of being
    equal to [a] when [a] is in the list, and none otherwise. *)
Lemma filter_eqb_unique (a : string) (l : list string) :
  NoDup l ->
  filter (fun c => (c =? a)%string) l = if mem a l then [a] else [].
Proof.
  induction 1 as [|x l Hx Hn IH]; [reflexivity|].
  cbn [filter]. unfold mem in *. cbn [existsb].
  destruct (x =? a)%string eqn:E.
  - apply String.eqb_eq in E. subst x. rewrite String.eqb_refl. cbn [orb].
    f_equal. apply filter_none. intros y Hy.
    apply String.eqb_neq. intros ->. contradiction.
  - rewrite String.eqb_sym, E. cbn [orb]. exact IH.
Qed.

Lemma filter_comm {A} (f g : A -> bool) (l : list A) :
  filter f (filter g l) = filter g (filter f l).
Proof.
  induction l as [|x l IH]; simpl; [reflexivity|].
  destruct (f x) eqn:F, (g x) eqn:G; simpl; rewrite ?F, ?G, IH; reflexivity.
Qed.

Lemma NoDup_map_filter {A B} (f : A -> B) (b : A -> bool) (l : list A) :
  NoDup (map f l) -> NoDup (map f (filter b l)).
Proof.
  induction l as [|x l IH]; simpl; intros H; [constructor|].
  inversion H as [|? ? Hx Hl]; subst. destruct (b x); simpl; [|now apply IH].
  constructor; [|now apply IH]. intros Hin. apply Hx.
  apply in_map_iff in Hin as (y & E & Hy). apply filter_In in Hy as [Hy _].
  rewrite <- E. now apply in_map.
Qed.

Lemma NoDup_map_pair {A B} (a : A) (l : list B) :
  NoDup l -> NoDup (map (fun b => (a, b)) l).
Proof.
  induction 1 as [|x l Hx Hn IH]; simpl; constructor; [|exact IH].
  intros H. apply in_map_iff in H as (y & E & Hy). inversion E; subst.
  contradiction.
Qed.

Lemma NoDup_flat_map_keys {A} (key : A -> Z) (cs : list string) (l : list A) :
  NoDup (map key l) -> NoDup cs ->
  NoDup (flat_map (fun r => map (fun c => (key r, c)) cs) l).
Proof.
  intros Hl Hc. induction l as [|x l IH]; simpl; [constructor|].
  inversion Hl as [|? ? Hx Hl']; subst.
  apply NoDup_app.
  - now apply NoDup_map_pair.
  - now apply IH.
  - intros y Hy Hy'. apply in_map_iff in Hy as (c & <- & _).
    apply in_flat_map in Hy' as (r & Hr & Hy').
    apply in_map_iff in Hy' as (c' & E & _). inversion E; subst.
    apply Hx. rewrite <- H0. now apply in_map.
Qed.

Section Rows.
Variable chars : list string.
Variables sel mock : CountTable.
Hypothesis sel_ok : table_ok chars sel.
Hypothesis mock_ok : table_ok chars mock.
Hypothesis tables_aligned : aligned sel mock = true.
Variable p : Q.

Let pairs := combine (sorted_rows sel) (sorted_rows mock).
Let M := map (add_pseudocounts p) (joined_table sel mock).

(** The wildtype rows of the site of a pair of rows. *)
Lemma wildtype_rows_of_site (p0 : CountRow * CountRow) :
  In p0 pairs ->
  filter (fun w : PRow => site (fst w) =? cr_site (fst p0))
         (filter (fun w : PRow => is_wildtype (fst w)) M)
  = if mem (cr_wildtype (fst p0)) (value_vars sel)
    then [add_pseudocounts p (joined_cell sel mock p0 (cr_wildtype (fst p0)))]
    else [].
Proof.
  intros Hp0. unfold M.
  rewrite !filter_map_comm. cbn [add_pseudocounts fst].
  assert (E : filter (fun x : Row => site x =? cr_site (fst p0))
                (filter (fun x : Row => is_wildtype x) (joined_table sel mock))
              = filter (fun x : Row => is_wildtype x)
                  (map (joined_cell sel mock p0) (sorted_vars sel))).
  { rewrite filter_comm. unfold joined_table. fold pairs.
    rewrite (filter_key_flat_map
               (fun q : CountRow * CountRow => cr_site (fst q)) site
               (fun q => map (joined_cell sel mock q) (sorted_vars sel))
               pairs p0).
    - reflexivity.
    - now apply (pairs_sites_unique chars).
    - exact Hp0.
    - intros a b _ Hb. apply in_map_iff in Hb as (c & <- & _). reflexivity. }
  rewrite E, filter_map_comm.
  rewrite (filter_ext _ (fun c => (c =? cr_wildtype (fst p0))%string))
    by reflexivity.
  rewrite filter_eqb_unique.
  - assert (Em : mem (cr_wildtype (fst p0)) (sorted_vars sel)
                 = mem (cr_wildtype (fst p0)) (value_vars sel)).
    { apply eq_true_iff_eq. rewrite !mem_In. unfold sorted_vars.
      apply In_sort_values. }
    rewrite Em.
    destruct (mem (cr_wildtype (fst p0)) (value_vars sel)); reflexivity.
  - eapply Permutation_NoDup; [apply Permutation_sym, sorted_vars_perm|].
    now apply (value_vars_unique chars).
Qed.

Lemma merged_keys (mincount : Q) :
  map out_key (log2_rows (enrichments p mincount (joined_table sel mock)))
  = expected_keys sel.
Proof.
  unfold log2_rows, enrichments. rewrite !map_map.
  unfold merge_wildtype. fold M. rewrite map_flat_map.
  unfold M at 2. rewrite flat_map_map. unfold joined_table at 1.
  fold pairs. rewrite flat_map_flat_map.
  unfold expected_keys. rewrite <- flat_map_filter.
  rewrite <- (map_fst_combine (sorted_rows sel) (sorted_rows mock))
    by now apply aligned_length.
  fold pairs. rewrite flat_map_map.
  apply flat_map_ext_in. intros p0 Hp0. rewrite flat_map_map.
  rewrite (flat_map_ext_in _
             (fun c => map (fun _ : PRow =>
                              (cr_site (fst p0), cr_wildtype (fst p0), c))
                        (if mem (cr_wildtype (fst p0)) (value_vars sel)
                         then [add_pseudocounts p
                                 (joined_cell sel mock p0 (cr_wildtype (fst p0)))]
                         else []))).
  - destruct (mem _ _).
    + apply (flat_map_singleton
               (fun c => (cr_site (fst p0), cr_wildtype (fst p0), c))).
    + apply flat_map_nil.
  - intros c _. rewrite map_map. cbn [add_pseudocounts fst joined_cell site].
    pose proof (wildtype_rows_of_site p0 Hp0) as W. unfold PRow in *.
    rewrite W. reflexivity.
Qed.

End Rows.

Section ResultRows.
Variable CODONS : list string.
Variable CODON_TO_AA : list (string * string).

(** X6.  Without translation and without error control, the rows of the
    result are known from [sel] alone: one row per site and character, in
    ascending order of the site and, within a site, of the character; a
    site whose wildtype is not a character of the table has no row. *)
Theorem result_rows (sel mock : CountTable) (chars : list string) (p : Q)
    (mincount : Q) :
  valid_table chars sel = true -> valid_table chars mock = true ->
  aligned sel mock = true -> (0 < p)%Q ->
  exists out,
    computeMutDiffSel CODONS CODON_TO_AA sel mock chars p false None mincount
    = Ok out
    /\ map out_key out = expected_keys sel.
Proof.
  intros Hs Hm Ha Hp. eexists. split.
  - apply computeMutDiffSel_prepared; try assumption. discriminate.
  - apply valid_table_ok in Hs, Hm. now apply (merged_keys chars).
Qed.

End ResultRows.

(** * The rows of the site table *)

Section Unique.
Context {A : Type} (eqb : A -> A -> bool).
Hypothesis eqb_eq : forall x y, eqb x y = true <-> x = y.

Lemma In_unique_iff (l : list A) (x : A) : In x (unique eqb l) <-> In x l.
Proof.
  split; [apply In_unique|].
  induction l as [|y l IH]; simpl; [tauto|].
  intros [->|H]; [now left|].
  destruct (eqb y x) eqn:E.
  - apply eqb_eq in E. now left.
  - right. apply filter_In. split; [now apply IH|now rewrite E].
Qed.

Lemma unique_NoDup (l : list A) : NoDup (unique eqb l).
Proof.
  induction l as [|y l IH]; simpl; constructor.
  - intros H. apply filter_In in H as [_ H].
    rewrite (proj2 (eqb_eq y y) eq_refl) in H. discriminate.
  - now apply NoDup_filter.
Qed.

Lemma unique_perm (l1 l2 : list A) :
  Permutation l1 l2 -> Permutation (unique eqb l1) (unique eqb l2).
Proof.
  intros H. apply NoDup_Permutation; try apply unique_NoDup.
  intros x. rewrite !In_unique_iff. split; apply Permutation_in; auto.
  now symmetry.
Qed.

End Unique.

Lemma Z_leb_total (x y : Z) : (x <=? y) = true \/ (y <=? x) = true.
Proof. rewrite !Z.leb_le. lia. Qed.

Lemma Z_leb_trans (x y z : Z) :
  (x <=? y) = true -> (y <=? z) = true -> (x <=? z) = true.
Proof. rewrite !Z.leb_le. lia. Qed.

(** The sites and the mutations of the pivoted table depend on the rows
    of the table as a set. *)
Lemma sorted_sites_perm (l1 l2 : list Z) :
  Permutation l1 l2 ->
  sort_values Z.leb (unique Z.eqb l1) = sort_values Z.leb (unique Z.eqb l2).
Proof.
  intros H. apply (sorted_unique Z.leb).
  - apply sort_values_sorted; [apply Z_leb_total|apply Z_leb_trans].
  - apply sort_values_sorted; [apply Z_leb_total|apply Z_leb_trans].
  - rewrite !sort_values_perm. apply unique_perm; [apply Z.eqb_eq|exact H].
  - intros x y _ _. rewrite !Z.leb_le. lia.
Qed.

Lemma sorted_mutations_perm (l1 l2 : list string) :
  Permutation l1 l2 ->
  sort_values String.leb (unique String.eqb l1)
  = sort_values String.leb (unique String.eqb l2).
Proof.
  intros H. apply (sorted_unique String.leb).
  - apply sort_values_sorted; [apply String.leb_total|apply string_leb_trans].
  - apply sort_values_sorted; [apply String.leb_total|apply string_leb_trans].
  - rewrite !sort_values_perm.
    apply unique_perm; [apply String.eqb_eq|exact H].
  - intros x y _ _. apply String.leb_antisym.
Qed.

Lemma has_duplicates_perm (df df' : list DiffSelRow) :
  Permutation df df' -> has_duplicates df = has_duplicates df'.
Proof.
  intros H. apply eq_true_iff_eq.
  rewrite <- !not_false_iff_true, !has_duplicates_false.
  split; intros N Hn; apply N; eapply Permutation_NoDup; try exact Hn;
    apply Permutation_map; [now symmetry|exact H].
Qed.

(** With one row per site and mutation, a cell is the value of its row,
    wherever the row stands in the table. *)
Lemma find_entry (df : list DiffSelRow) (s : Z) (c : string) :
  NoDup (map entry df) ->
  forall r, In r df -> d_site r = s -> d_mutation r = c ->
  find (fun r => (d_site r =? s) && (d_mutation r =? c)%string) df = Some r.
Proof.
  induction df as [|x df IH]; simpl; intros Hn r Hr Es Em; [contradiction|].
  inversion Hn as [|? ? Hx Hn']; subst.
  destruct Hr as [->|Hr].
  - now rewrite Z.eqb_refl, String.eqb_refl.
  - destruct ((d_site x =? d_site r) && (d_mutation x =? d_mutation r)%string)
      eqn:E.
    + exfalso. apply Hx. apply andb_true_iff in E as [E1 E2].
      apply Z.eqb_eq in E1. apply String.eqb_eq in E2.
      replace (entry x) with (entry r) by (unfold entry; congruence).
      now apply in_map.
    + now apply IH.
Qed.

Lemma cell_perm (df df' : list DiffSelRow) (s : Z) (c : string) :
  NoDup (map entry df) -> Permutation df df' -> cell df s c = cell df' s c.
Proof.
  intros Hn Hp. unfold cell.
  assert (Hn' : NoDup (map entry df')).
  { eapply Permutation_NoDup; [|exact Hn]. now apply Permutation_map. }
  destruct (find _ df) as [r|] eqn:E.
  - apply find_some in E as [Hr E]. apply andb_true_iff in E as [E1 E2].
    apply Z.eqb_eq in E1. apply String.eqb_eq in E2.
    rewrite (find_entry df' s c Hn' r); auto.
    now apply (Permutation_in _ Hp).
  - destruct (find _ df') as [r|] eqn:E'; [|reflexivity].
    apply find_some in E' as [Hr E']. exfalso.
    apply (Permutation_in _ (Permutation_sym Hp)) in Hr.
    apply (find_none _ _ E) in Hr. congruence.
Qed.

(** X14.  The order of the rows of the table does not matter to
    [mutToSiteDiffSel]. *)
Theorem site_table_ignores_row_order (df df' : list DiffSelRow) :
  Permutation df df' -> mutToSiteDiffSel df' = mutToSiteDiffSel df.
Proof.
  intros Hp. unfold mutToSiteDiffSel, pivot.
  rewrite <- (has_duplicates_perm df df' Hp).
  destruct (has_duplicates df) eqn:D; [reflexivity|].
  apply has_duplicates_false in D.
  rewrite <- (sorted_sites_perm (map d_site df) (map d_site df'))
    by now apply Permutation_map.
  rewrite <- (sorted_mutations_perm (map d_mutation df) (map d_mutation df'))
    by now apply Permutation_map.
  cbn [bind]. f_equal. rewrite !map_map. apply map_ext. intros s.
  cbn [fst snd].
  assert (E : map (cell df' s)
                (sort_values String.leb (unique String.eqb (map d_mutation df)))
              = map (cell df s)
                  (sort_values String.leb
                     (unique String.eqb (map d_mutation df)))).
  { apply map_ext. intros c. symmetry. now apply cell_perm. }
  now rewrite E.
Qed.

Lemma row_has_site (df : list DiffSelRow) (out : list SiteRow)
    (row : SiteRow) :
  mutToSiteDiffSel df = Ok out -> In row out ->
  exists r, In r df /\ d_site r = s_site row.
Proof.
  unfold mutToSiteDiffSel, pivot. destruct (has_duplicates df); [discriminate|].
  cbn [bind]. intros H. inversion H; subst out. clear H.
  rewrite map_map. intros Hin. apply in_map_iff in Hin as (s & <- & Hs).
  cbn [s_site fst]. apply In_sort_values in Hs.
  apply In_unique in Hs. apply in_map_iff in Hs as (r & E & Hr). eauto.
Qed.

(** X13.  The result of [mutToSiteDiffSel] has one row for every site of
    the table, in ascending order of the site. *)
Theorem site_table_sites (df : list DiffSelRow) (out : list SiteRow) :
  mutToSiteDiffSel df = Ok out ->
  StronglySorted Z.lt (map s_site out)
  /\ forall s, In s (map s_site out) <-> In s (map d_site df).
Proof.
  unfold mutToSiteDiffSel, pivot. destruct (has_duplicates df); [discriminate|].
  cbn [bind]. intros H. inversion H; subst out. clear H.
  rewrite !map_map. cbn [s_site fst]. rewrite map_id. split.
  - apply (sorted_strict (fun z : Z => z)).
    + eapply StronglySorted_weaken.
      * apply (sort_values_sorted Z.leb Z_leb_total Z_leb_trans).
      * intros x y _ _. apply Z.leb_le.
    + rewrite map_id. eapply Permutation_NoDup.
      * apply Permutation_sym, sort_values_perm.
      * apply unique_NoDup, Z.eqb_eq.
  - intros s. rewrite In_sort_values. apply In_unique_iff, Z.eqb_eq.
Qed.

(** * The five statistics of a site *)

(** ** Maximum and minimum *)

Lemma fle_refl (x : float) : isnan x = false -> fle x x = true.
Proof.
  destruct x; simpl; try reflexivity; try discriminate.
  intros _. apply Qle_bool_true. lra.
Qed.

Lemma fle_trans (x y z : float) :
  fle x y = true -> fle y z = true -> fle x z = true.
Proof.
  destruct x, y, z; simpl; try tauto; try discriminate.
  rewrite !Qle_bool_true. lra.
Qed.

Lemma fmaximum_cases (x y : float) :
  isnan x = false -> isnan y = false ->
  (fmaximum x y = x \/ fmaximum x y = y)
  /\ fle x (fmaximum x y) = true /\ fle y (fmaximum x y) = true.
Proof.
  destruct x as [a| | |], y as [b| | |]; simpl; try discriminate; intros _ _;
    try (repeat split; auto; apply Qle_bool_true; lra).
  destruct (Qle_bool a b) eqn:E;
    [apply Qle_bool_true in E|apply Qle_bool_false in E];
    repeat split; auto; apply Qle_bool_true; lra.
Qed.

Lemma fminimum_cases (x y : float) :
  isnan x = false -> isnan y = false ->
  (fminimum x y = x \/ fminimum x y = y)
  /\ fle (fminimum x y) x = true /\ fle (fminimum x y) y = true.
Proof.
  destruct x as [a| | |], y as [b| | |]; simpl; try discriminate; intros _ _;
    try (repeat split; auto; apply Qle_bool_true; lra).
  destruct (Qle_bool a b) eqn:E;
    [apply Qle_bool_true in E|apply Qle_bool_false in E];
    repeat split; auto; apply Qle_bool_true; lra.
Qed.

Lemma fold_maximum (l : list float) (x : float) :
  isnan x = false -> Forall (fun v => isnan v = false) l ->
  In (fold_left fmaximum l x) (x :: l)
  /\ forall v, In v (x :: l) -> fle v (fold_left fmaximum l x) = true.
Proof.
  revert x. induction l as [|y l IH]; intros x Hx Hl; simpl.
  - split; [now left|]. intros v [<-|[]]. now apply fle_refl.
  - inversion Hl as [|? ? Hy Hl']; subst.
    destruct (fmaximum_cases x y Hx Hy) as (Hc & L1 & L2).
    assert (Hm : isnan (fmaximum x y) = false)
      by (destruct Hc as [-> | ->]; assumption).
    destruct (IH (fmaximum x y) Hm Hl') as [Hin Hle]. split.
    + destruct Hin as [E|Hin]; [|auto].
      rewrite <- E. destruct Hc as [-> | ->]; auto.
    + intros v [<-|[<-|Hv]].
      * eapply fle_trans; [exact L1|]. apply Hle. now left.
      * eapply fle_trans; [exact L2|]. apply Hle. now left.
      * apply Hle. now right.
Qed.

Lemma fold_minimum (l : list float) (x : float) :
  isnan x = false -> Forall (fun v => isnan v = false) l ->
  In (fold_left fminimum l x) (x :: l)
  /\ forall v, In v (x :: l) -> fle (fold_left fminimum l x) v = true.
Proof.
  revert x. induction l as [|y l IH]; intros x Hx Hl; simpl.
  - split; [now left|]. intros v [<-|[]]. now apply fle_refl.
  - inversion Hl as [|? ? Hy Hl']; subst.
    destruct (fminimum_cases x y Hx Hy) as (Hc & L1 & L2).
    assert (Hm : isnan (fminimum x y) = false)
      by (destruct Hc as [-> | ->]; assumption).
    destruct (IH (fminimum x y) Hm Hl') as [Hin Hle]. split.
    + destruct Hin as [E|Hin]; [|auto].
      rewrite <- E. destruct Hc as [-> | ->]; auto.
    + intros v [<-|[<-|Hv]].
      * eapply fle_trans; [|exact L1]. apply Hle. now left.
      * eapply fle_trans; [|exact L2]. apply Hle. now left.
      * apply Hle. now right.
Qed.

Lemma filter_not_nan (l : list float) :
  Forall (fun v => isnan v = false) l ->
  filter (fun x => negb (isnan x)) l = l.
Proof.
  intros H. apply filter_all. rewrite Forall_forall in H.
  intros x Hx. now rewrite (H x Hx).
Qed.

Lemma series_max_spec (l : list float) :
  Forall (fun v => isnan v = false) l -> l <> [] ->
  In (series_max l) l /\ forall v, In v l -> fle v (series_max l) = true.
Proof.
  intros H Hne. unfold series_max. rewrite filter_not_nan by exact H.
  destruct l as [|x l]; [contradiction|].
  inversion H; subst. now apply fold_maximum.
Qed.

Lemma series_min_spec (l : list float) :
  Forall (fun v => isnan v = false) l -> l <> [] ->
  In (series_min l) l /\ forall v, In v l -> fle (series_min l) v = true.
Proof.
  intros H Hne. unfold series_min. rewrite filter_not_nan by exact H.
  destruct l as [|x l]; [contradiction|].
  inversion H; subst. now apply fold_minimum.
Qed.

(** A table that gives a row has a mutation, so a site has a value. *)
Lemma site_values_not_nil (df : list DiffSelRow) (out : list SiteRow)
    (row : SiteRow) :
  mutToSiteDiffSel df = Ok out -> In row out ->
  site_values df (s_site row) <> [].
Proof.
  intros H Hin. destruct (row_has_site df out row H Hin) as (r & Hr & _).
  unfold site_values. intros E.
  apply map_eq_nil in E. apply map_eq_nil in E.
  assert (Hm : In (d_mutation r)
                  (sort_values String.leb (unique String.eqb (map d_mutation df)))).
  { apply In_sort_values, In_unique_iff; [apply String.eqb_eq|].
    now apply in_map. }
  rewrite E in Hm. contradiction.
Qed.

(** X15.  [max_diffsel] is the largest and [min_diffsel] the smallest of
    the values of the site, the undefined ones counting as 0. *)
Theorem max_and_min_of_site (df : list DiffSelRow) (out : list SiteRow)
    (row : SiteRow) :
  mutToSiteDiffSel df = Ok out -> In row out ->
  let x := site_values df (s_site row) in
  In (max_diffsel row) x /\ In (min_diffsel row) x
  /\ forall v, In v x ->
       fle (min_diffsel row) v = true /\ fle v (max_diffsel row) = true.
Proof.
  intros H Hin x.
  pose proof (mutToSiteDiffSel_rows df out row H Hin) as E.
  cbv zeta in E. fold x in E.
  pose proof (site_values_not_nan df (s_site row)) as Hx. fold x in Hx.
  pose proof (site_values_not_nil df out row H Hin) as Hne. fold x in Hne.
  destruct (series_max_spec x Hx Hne) as [M1 M2].
  destruct (series_min_spec x Hx Hne) as [N1 N2].
  rewrite E. cbn [max_diffsel min_diffsel]. repeat split; auto.
Qed.

(** The value that the table gives to a site and a mutation is among the
    values of the site. *)
Lemma value_in_site_values (df : list DiffSelRow) (out : list SiteRow)
    (r : DiffSelRow) :
  mutToSiteDiffSel df = Ok out -> In r df ->
  In (fillna (Fin 0) (d_mutdiffsel r)) (site_values df (d_site r)).
Proof.
  intros H Hr. unfold site_values. apply in_map.
  assert (Hn : NoDup (map entry df)).
  { apply has_duplicates_false. unfold mutToSiteDiffSel, pivot in H.
    destruct (has_duplicates df); [discriminate|reflexivity]. }
  replace (d_mutdiffsel r) with (cell df (d_site r) (d_mutation r)).
  - apply in_map, In_sort_values, In_unique_iff; [apply String.eqb_eq|].
    now apply in_map.
  - unfold cell. now rewrite (find_entry df _ _ Hn r Hr).
Qed.

(** X16.  At a site with an undefined value, as the wildtype of every site
    is in the result of [computeMutDiffSel], [max_diffsel] is not
    negative and [min_diffsel] is not positive. *)
Theorem undefined_value_bounds_extremes (df : list DiffSelRow)
    (out : list SiteRow) (row : SiteRow) (r : DiffSelRow) :
  mutToSiteDiffSel df = Ok out -> In row out ->
  In r df -> d_site r = s_site row -> d_mutdiffsel r = NaN ->
  fge (max_diffsel row) (Fin 0) = true /\ fle (min_diffsel row) (Fin 0) = true.
Proof.
  intros H Hin Hr Es Hnan.
  pose proof (value_in_site_values df out r H Hr) as Hv.
  rewrite Hnan, Es in Hv. cbn [fillna isnan] in Hv.
  pose proof (mutToSiteDiffSel_rows df out row H Hin) as E. cbv zeta in E.
  pose proof (site_values_not_nan df (s_site row)) as Hx.
  pose proof (site_values_not_nil df out row H Hin) as Hne.
  destruct (series_max_spec _ Hx Hne) as [_ M].
  destruct (series_min_spec _ Hx Hne) as [_ N].
  rewrite E. cbn [max_diffsel min_diffsel]. unfold fge. auto.
Qed.

(** ** A site with no defined value *)

Lemma series_sum_zeros (l : list float) :
  Forall (fun v => v = Fin 0) l -> series_sum l = Fin 0.
Proof.
  induction 1 as [|v l Hv Hl IH]; [reflexivity|].
  rewrite series_sum_cons, Hv, IH. reflexivity.
Qed.

Lemma fold_maximum_zeros (l : list float) :
  Forall (fun v => v = Fin 0) l -> fold_left fmaximum l (Fin 0) = Fin 0.
Proof.
  induction 1 as [|v l Hv Hl IH]; [reflexivity|].
  simpl. rewrite Hv. exact IH.
Qed.

Lemma fold_minimum_zeros (l : list float) :
  Forall (fun v => v = Fin 0) l -> fold_left fminimum l (Fin 0) = Fin 0.
Proof.
  induction 1 as [|v l Hv Hl IH]; [reflexivity|].
  simpl. rewrite Hv. exact IH.
Qed.

(** X17.  A site all of whose values are undefined has its five
    statistics equal to 0, not undefined. *)
Theorem undefined_site_gives_zeros (df : list DiffSelRow) (out : list SiteRow)
    (row : SiteRow) :
  mutToSiteDiffSel df = Ok out -> In row out ->
  (forall r, In r df -> d_site r = s_site row -> d_mutdiffsel r = NaN) ->
  row = mkSiteRow (s_site row) (Fin 0) (Fin 0) (Fin 0) (Fin 0) (Fin 0).
Proof.
  intros H Hin Hnan.
  pose proof (mutToSiteDiffSel_rows df out row H Hin) as E. cbv zeta in E.
  pose proof (site_values_not_nil df out row H Hin) as Hne.
  assert (Hz : Forall (fun v => v = Fin 0) (site_values df (s_site row))).
  { apply Forall_forall. intros v Hv. unfold site_values in Hv.
    apply in_map_iff in Hv as (y & <- & Hy).
    apply in_map_iff in Hy as (c & <- & _). unfold cell.
    destruct (find _ df) as [r|] eqn:F; [|reflexivity].
    apply find_some in F as [Hr F]. apply andb_true_iff in F as [F _].
    apply Z.eqb_eq in F. now rewrite (Hnan r Hr F). }
  rewrite E. clear E. revert Hz Hne.
  generalize (site_values df (s_site row)). intros x Hz Hne.
  assert (Hx : Forall (fun v => isnan v = false) x).
  { eapply Forall_impl; [|exact Hz]. intros v ->. reflexivity. }
  f_equal.
  - apply series_sum_zeros. apply Forall_forall. intros v Hv.
    apply in_map_iff in Hv as (y & <- & Hy).
    rewrite Forall_forall in Hz. now rewrite (Hz y Hy).
  - apply series_sum_zeros. apply Forall_forall. intros v Hv.
    apply in_map_iff in Hv as (y & <- & Hy).
    rewrite Forall_forall in Hz. now rewrite (Hz y Hy).
  - apply series_sum_zeros. apply Forall_forall. intros v Hv.
    apply in_map_iff in Hv as (y & <- & Hy).
    rewrite Forall_forall in Hz. now rewrite (Hz y Hy).
  - unfold series_max. rewrite filter_not_nan by exact Hx.
    destruct x as [|v x]; [contradiction|]. inversion Hz; subst.
    now apply fold_maximum_zeros.
  - unfold series_min. rewrite filter_not_nan by exact Hx.
    destruct x as [|v x]; [contradiction|]. inversion Hz; subst.
    now apply fold_minimum_zeros.
Qed.

(** ** The signs of the three sums *)

Lemma fadd_not_below_zero (x y : float) :
  not_below_zero x -> not_below_zero y -> not_below_zero (fadd x y).
Proof.
  unfold not_below_zero.
  destruct x, y; simpl; try tauto; try discriminate.
  rewrite !Qle_bool_true. lra.
Qed.

Lemma fadd_not_above_zero (x y : float) :
  not_above_zero x -> not_above_zero y -> not_above_zero (fadd x y).
Proof.
  unfold not_above_zero.
  destruct x, y; simpl; try tauto; try discriminate.
  rewrite !Qle_bool_true. lra.
Qed.

Lemma series_sum_not_below_zero (l : list float) :
  Forall not_below_zero l -> not_below_zero (series_sum l).
Proof.
  induction 1 as [|v l Hv Hl IH].
  - unfold not_below_zero. simpl. apply Qle_bool_true. lra.
  - rewrite series_sum_cons. destruct (isnan v); [exact IH|].
    now apply fadd_not_below_zero.
Qed.

Lemma series_sum_not_above_zero (l : list float) :
  Forall not_above_zero l -> not_above_zero (series_sum l).
Proof.
  induction 1 as [|v l Hv Hl IH].
  - unfold not_above_zero. simpl. apply Qle_bool_true. lra.
  - rewrite series_sum_cons. destruct (isnan v); [exact IH|].
    now apply fadd_not_above_zero.
Qed.

Lemma fabs_not_below_zero (x : float) :
  isnan x = false -> not_below_zero (fabs x).
Proof.
  unfold not_below_zero. destruct x; simpl; try reflexivity; try discriminate.
  intros _. apply Qle_bool_true, Qabs_nonneg.
Qed.

(** X18.  [abs_diffsel] and [positive_diffsel] are never negative and
    [negative_diffsel] is never positive; none of the three is NaN. *)
Theorem signs_of_the_sums (df : list DiffSelRow) (out : list SiteRow)
    (row : SiteRow) :
  mutToSiteDiffSel df = Ok out -> In row out ->
  fge (abs_diffsel row) (Fin 0) = true
  /\ fge (positive_diffsel row) (Fin 0) = true
  /\ fle (negative_diffsel row) (Fin 0) = true.
Proof.
  intros H Hin.
  pose proof (mutToSiteDiffSel_rows df out row H Hin) as E. cbv zeta in E.
  pose proof (site_values_not_nan df (s_site row)) as Hx.
  rewrite E. cbn [abs_diffsel positive_diffsel negative_diffsel].
  rewrite !sum_masked by exact Hx. unfold fge. repeat split.
  - apply series_sum_not_below_zero. apply Forall_forall. intros v Hv.
    apply in_map_iff in Hv as (y & <- & Hy). apply fabs_not_below_zero.
    rewrite Forall_forall in Hx. now apply Hx.
  - apply series_sum_not_below_zero. apply Forall_forall. intros v Hv.
    apply filter_In in Hv as [_ Hv]. exact Hv.
  - apply series_sum_not_above_zero. apply Forall_forall. intros v Hv.
    apply filter_In in Hv as [_ Hv]. exact Hv.
Qed.

(** * One row per site and mutation *)

Lemma unique_NoDup_map {A B} (eqb : A -> A -> bool) (f : A -> B) (l : list A) :
  (forall x y, In x l -> In y l -> f x = f y -> eqb x y = true) ->
  NoDup (map f (unique eqb l)).
Proof.
  induction l as [|x l IH]; simpl; intros H; [constructor|].
  constructor.
  - intros Hin. apply in_map_iff in Hin as (y & E & Hy).
    apply filter_In in Hy as [Hy N]. apply In_unique in Hy.
    rewrite (H x y) in N; auto. discriminate.
  - apply NoDup_map_filter, IH. intros a b Ha Hb. apply H; now right.
Qed.

Lemma NoDup_all_equal {A} (l : list A) :
  NoDup l -> (forall x y, In x l -> In y l -> x = y) -> (List.length l <= 1)%nat.
Proof.
  intros Hn H. destruct l as [|x [|y l]]; simpl; try lia.
  exfalso. inversion Hn as [|? ? Hx _]; subst. apply Hx.
  rewrite (H x y); simpl; auto.
Qed.

Lemma NoDup_flat_map_short {A B C} (k : A -> B) (h : A -> list C) (l : list A) :
  NoDup (map k l) -> (forall x, In x l -> (List.length (h x) <= 1)%nat) ->
  NoDup (flat_map (fun x => map (fun _ : C => k x) (h x)) l).
Proof.
  induction l as [|x l IH]; simpl; intros Hn Hl; [constructor|].
  inversion Hn as [|? ? Hx Hn']; subst.
  assert (Hrest : NoDup (flat_map (fun x => map (fun _ : C => k x) (h x)) l))
    by (apply IH; auto).
  assert (Hnot : ~ In (k x) (flat_map (fun x => map (fun _ : C => k x) (h x)) l)).
  { intros Hin. apply in_flat_map in Hin as (y & Hy & Hin).
    apply in_map_iff in Hin as (c & E & _). apply Hx. rewrite <- E.
    now apply in_map. }
  pose proof (Hl x (or_introl eq_refl)) as L.
  destruct (h x) as [|c [|c' t]]; simpl in *; try lia; [exact Hrest|].
  now constructor.
Qed.

(** The rows after the merge with the wildtype rows: when no two rows of
    [m] have the same site and mutation, and the rows of a site have the
    same wildtype, no row of [m] comes out twice. *)
Lemma merged_rows_unique (p mincount : Q) (m : list Row) :
  NoDup (map site_mutation m) ->
  (forall r r', In r m -> In r' m -> site r = site r' ->
                wildtype r = wildtype r') ->
  NoDup (map (fun o => (o_site o, o_mutation o))
             (log2_rows (enrichments p mincount m))).
Proof.
  intros Hn Hw. unfold log2_rows, enrichments, merge_wildtype.
  rewrite !map_map, map_flat_map, flat_map_map.
  cbn [o_site o_mutation fst snd].
  rewrite (flat_map_ext_in _
     (fun r => map (fun _ : PRow => site_mutation r)
        (filter (fun w : PRow => site (fst w) =? site r)
           (filter (fun w : PRow => is_wildtype (fst w))
                   (map (add_pseudocounts p) m)))))
    by (intros r _; rewrite map_map; reflexivity).
  apply NoDup_flat_map_short; [exact Hn|].
  intros x Hx. rewrite !filter_map_comm, length_map.
  cbn [add_pseudocounts fst].
  apply NoDup_all_equal.
  - apply NoDup_filter, NoDup_filter. eapply NoDup_map_inv. exact Hn.
  - intros a b Ha Hb.
    apply filter_In in Ha as [Ha Sa]. apply filter_In in Ha as [Ha Wa].
    apply filter_In in Hb as [Hb Sb]. apply filter_In in Hb as [Hb Wb].
    apply Z.eqb_eq in Sa, Sb. unfold is_wildtype in Wa, Wb.
    apply String.eqb_eq in Wa, Wb.
    apply (NoDup_map_inj site_mutation m); auto.
    unfold site_mutation. rewrite Sa, Sb, Wa, Wb.
    rewrite (Hw a b Ha Hb) by congruence. reflexivity.
Qed.

Section UniqueRows.
Variable CODON_TO_AA : list (string * string).
Variable chars : list string.
Variables sel mock : CountTable.
Hypothesis sel_ok : table_ok chars sel.
Hypothesis mock_ok : table_ok chars mock.
Hypothesis tables_aligned : aligned sel mock = true.

Lemma joined_table_unique : NoDup (map site_mutation (joined_table sel mock)).
Proof.
  unfold joined_table. rewrite map_flat_map.
  rewrite (flat_map_ext_in _
     (fun p0 : CountRow * CountRow =>
        map (fun c => (cr_site (fst p0), c)) (sorted_vars sel)))
    by (intros p0 _; rewrite map_map; reflexivity).
  apply (NoDup_flat_map_keys (fun p0 : CountRow * CountRow => cr_site (fst p0))).
  - now apply (pairs_sites_unique chars).
  - eapply Permutation_NoDup; [apply Permutation_sym, sorted_vars_perm|].
    now apply (value_vars_unique chars).
Qed.

Lemma translated_unique :
  NoDup (map site_mutation (translate CODON_TO_AA (joined_table sel mock))).
Proof.
  unfold translate, groupby_sum. cbv zeta.
  rewrite (translated_rows_kept CODON_TO_AA sel mock).
  rewrite map_map. cbn [site_mutation site mutation].
  change (fun x : Row => (site x, mutation x)) with site_mutation.
  eapply Permutation_NoDup.
  { apply Permutation_map, Permutation_sym, sort_values_perm. }
  apply unique_NoDup_map. intros x y Hx Hy E.
  apply in_map_iff in Hx as (rx & <- & Hx).
  apply in_map_iff in Hy as (ry & <- & Hy).
  apply In_joined_table in Hx as (px & cx & Hpx & _ & ->).
  apply In_joined_table in Hy as (py & cy & Hpy & _ & ->).
  unfold site_mutation in E. cbn in E. inversion E as [[E1 E2]].
  assert (px = py).
  { eapply (NoDup_map_inj (fun q : CountRow * CountRow => cr_site (fst q)));
      eauto. now apply (pairs_sites_unique chars). }
  subst py. rewrite same_group_block; try reflexivity.
  cbn. rewrite E2. apply String.eqb_refl.
Qed.

Lemma prepared_unique (tr : bool) :
  NoDup (map site_mutation (prepared CODON_TO_AA tr sel mock)).
Proof.
  destruct tr; [apply translated_unique|apply joined_table_unique].
Qed.

Lemma prepared_wildtype (tr : bool) (r r' : Row) :
  In r (prepared CODON_TO_AA tr sel mock) ->
  In r' (prepared CODON_TO_AA tr sel mock) ->
  site r = site r' -> wildtype r = wildtype r'.
Proof.
  intros Hr Hr' Es.
  destruct (prepared_rows CODON_TO_AA chars sel mock sel_ok mock_ok
              tables_aligned tr r Hr) as (rs & rm & C).
  destruct (prepared_rows CODON_TO_AA chars sel mock sel_ok mock_ok
              tables_aligned tr r' Hr') as (rs' & rm' & C').
  rewrite (rc_wildtype _ _ _ _ _ _ C), (rc_wildtype _ _ _ _ _ _ C').
  pose proof (rc_sel_in _ _ _ _ _ _ C) as E.
  pose proof (rc_sel_in _ _ _ _ _ _ C') as E'.
  rewrite Es, E' in E. now inversion E.
Qed.

End UniqueRows.

Section ResultKeys.
Variable CODONS : list string.
Variable CODON_TO_AA : list (string * string).

(** X7.  No two rows of the result have the same site and the same
    mutation, with the translation or without it: this is what the pivot
    of [mutToSiteDiffSel] asks of its argument. *)
Theorem result_has_unique_entries (sel mock : CountTable)
    (chars : list string) (p : Q) (tr : bool) (mincount : Q) :
  valid_table chars sel = true -> valid_table chars mock = true ->
  aligned sel mock = true -> (0 < p)%Q ->
  (tr = true -> set_eqb chars CODONS = true) ->
  exists out,
    computeMutDiffSel CODONS CODON_TO_AA sel mock chars p tr None mincount
    = Ok out
    /\ NoDup (map (fun o => (o_site o, o_mutation o)) out).
Proof.
  intros Hs Hm Ha Hp Hc. eexists. split.
  { now apply computeMutDiffSel_prepared. }
  apply valid_table_ok in Hs, Hm. apply merged_rows_unique.
  - now apply (prepared_unique CODON_TO_AA chars).
  - now apply (prepared_wildtype CODON_TO_AA chars).
Qed.

End ResultKeys.

(** * An error control without errors *)

(** ** The same numbers give the same results *)

Lemma feq_refl (x : float) : feq x x.
Proof. destruct x; simpl; auto. reflexivity. Qed.

Lemma feq_sym (x y : float) : feq x y -> feq y x.
Proof. destruct x, y; simpl; auto. intros H. now symmetry. Qed.

Lemma feq_trans (x y z : float) : feq x y -> feq y z -> feq x z.
Proof.
  destruct x, y, z; simpl; try tauto. intros H1 H2. now rewrite H1.
Qed.

Lemma Qle_bool_feq (a a' b b' : Q) :
  (a == a')%Q -> (b == b')%Q -> Qle_bool a b = Qle_bool a' b'.
Proof.
  intros Ha Hb. apply eq_true_iff_eq. rewrite !Qle_bool_true.
  now rewrite Ha, Hb.
Qed.

Lemma Qeq_bool_feq (a a' b b' : Q) :
  (a == a')%Q -> (b == b')%Q -> Qeq_bool a b = Qeq_bool a' b'.
Proof.
  intros Ha Hb. apply eq_true_iff_eq. rewrite !Qeq_bool_iff.
  now rewrite Ha, Hb.
Qed.

Lemma Qltb_feq (a a' b b' : Q) :
  (a == a')%Q -> (b == b')%Q -> Qltb a b = Qltb a' b'.
Proof.
  intros Ha Hb. unfold Qltb. f_equal. now apply Qle_bool_feq.
Qed.

Lemma scale_inf_feq (s : bool) (a a' : Q) :
  (a == a')%Q -> scale_inf s a = scale_inf s a'.
Proof.
  intros H. unfold scale_inf.
  now rewrite (Qltb_feq 0 0 a a'), (Qltb_feq a a' 0 0) by (assumption || reflexivity).
Qed.

Lemma fadd_feq (x x' y y' : float) :
  feq x x' -> feq y y' -> feq (fadd x y) (fadd x' y').
Proof.
  destruct x, x', y, y'; simpl; try tauto. intros H1 H2. now rewrite H1, H2.
Qed.

Lemma fopp_feq (x x' : float) : feq x x' -> feq (fopp x) (fopp x').
Proof. destruct x, x'; simpl; try tauto. intros H. now rewrite H. Qed.

Lemma fsub_feq (x x' y y' : float) :
  feq x x' -> feq y y' -> feq (fsub x y) (fsub x' y').
Proof. intros H1 H2. apply fadd_feq; [exact H1|now apply fopp_feq]. Qed.

Lemma fmul_feq (x x' y y' : float) :
  feq x x' -> feq y y' -> feq (fmul x y) (fmul x' y').
Proof.
  destruct x, x', y, y'; simpl; try tauto; intros H1 H2;
    try (now rewrite H1, H2);
    try (rewrite (scale_inf_feq _ _ _ H1); apply feq_refl);
    try (rewrite (scale_inf_feq _ _ _ H2); apply feq_refl).
Qed.

Lemma fdiv_feq (x x' y y' : float) :
  feq x x' -> feq y y' -> feq (fdiv x y) (fdiv x' y').
Proof.
  destruct x as [a| | |], x' as [a'| | |], y as [b| | |], y' as [b'| | |];
    simpl; try tauto; intros H1 H2; try reflexivity.
  - rewrite (Qeq_bool_feq b b' 0 0) by (assumption || reflexivity).
    destruct (Qeq_bool b' 0) eqn:E.
    + rewrite (scale_inf_feq _ _ _ H1). apply feq_refl.
    + simpl. now rewrite H1, H2.
  - rewrite (Qltb_feq b b' 0 0) by (assumption || reflexivity).
    destruct (Qltb b' 0); exact I.
  - rewrite (Qltb_feq b b' 0 0) by (assumption || reflexivity).
    destruct (Qltb b' 0); exact I.
Qed.

Lemma fmaximum_feq (x x' y y' : float) :
  feq x x' -> feq y y' -> feq (fmaximum x y) (fmaximum x' y').
Proof.
  destruct x as [a| | |], x' as [a'| | |], y as [b| | |], y' as [b'| | |];
    simpl; try tauto; intros H1 H2.
  rewrite (Qle_bool_feq a a' b b' H1 H2). now destruct (Qle_bool a' b').
Qed.

Lemma fle_feq (x x' y y' : float) :
  feq x x' -> feq y y' -> fle x y = fle x' y'.
Proof.
  destruct x as [a| | |], x' as [a'| | |], y as [b| | |], y' as [b'| | |];
    simpl; try tauto; intros H1 H2. now apply Qle_bool_feq.
Qed.

Lemma xlog2_feq (x x' : float) : feq x x' -> xlog2 x = xlog2 x'.
Proof.
  destruct x as [a| | |], x' as [a'| | |]; simpl; try tauto. intros H.
  rewrite (Qltb_feq 0 0 a a'), (Qeq_bool_feq a a' 0 0)
    by (assumption || reflexivity).
  now rewrite (Qeq_eqR _ _ H).
Qed.

Lemma series_sum_feq (l l' : list float) :
  Forall2 feq l l' -> feq (series_sum l) (series_sum l').
Proof.
  induction 1 as [|x x' l l' Hx Hl IH]; [apply feq_refl|].
  rewrite !series_sum_cons.
  assert (E : isnan x = isnan x') by (destruct x, x'; simpl in *; tauto).
  rewrite E. destruct (isnan x'); [exact IH|]. now apply fadd_feq.
Qed.

(** ** Lists related element by element *)

Lemma Forall2_filter {A B} (R : A -> B -> Prop) (f : A -> bool) (g : B -> bool)
    (l : list A) (l' : list B) :
  (forall x y, R x y -> f x = g y) -> Forall2 R l l' ->
  Forall2 R (filter f l) (filter g l').
Proof.
  intros H. induction 1 as [|x y l l' Hxy Hl IH]; simpl; [constructor|].
  rewrite (H x y Hxy). destruct (g y); [constructor|]; assumption.
Qed.

Lemma Forall2_flat_map {A B C D} (R : A -> B -> Prop) (S : C -> D -> Prop)
    (f : A -> list C) (g : B -> list D) (l : list A) (l' : list B) :
  (forall x y, R x y -> Forall2 S (f x) (g y)) -> Forall2 R l l' ->
  Forall2 S (flat_map f l) (flat_map g l').
Proof.
  intros H. induction 1 as [|x y l l' Hxy Hl IH]; simpl; [constructor|].
  apply Forall2_app; [now apply H|exact IH].
Qed.

Lemma Forall2_map {A B C D} (R : A -> B -> Prop) (S : C -> D -> Prop)
    (f : A -> C) (g : B -> D) (l : list A) (l' : list B) :
  (forall x y, R x y -> S (f x) (g y)) -> Forall2 R l l' ->
  Forall2 S (map f l) (map g l').
Proof.
  intros H. induction 1; simpl; constructor; auto.
Qed.

Lemma Forall2_eq {A} (l l' : list A) : Forall2 eq l l' -> l = l'.
Proof. induction 1; congruence. Qed.

(** ** From the table to the result *)

Lemma not_masked_feq (mincount : Q) (r r' : Row) :
  row_feq r r' -> not_masked mincount r = not_masked mincount r'.
Proof.
  intros (_ & Ew & Em & Hn & _ & Hm & _). unfold not_masked, is_wildtype, fge.
  rewrite Ew, Em.
  rewrite (fle_feq (Fin mincount) (Fin mincount) (nsel r) (nsel r')),
    (fle_feq (Fin mincount) (Fin mincount) (nmock r) (nmock r'));
    auto using feq_refl.
Qed.

(** The result depends on the numbers of the table, not on the fractions
    that write them. *)
Lemma result_of_same_numbers (p mincount : Q) (m m' : list Row) :
  Forall2 row_feq m m' ->
  log2_rows (enrichments p mincount m) = log2_rows (enrichments p mincount m').
Proof.
  intros H. apply Forall2_eq. unfold log2_rows, enrichments. rewrite !map_map.
  set (P := fun x x' : PRow =>
    row_feq (fst x) (fst x') /\ feq (fst (snd x)) (fst (snd x'))
    /\ feq (snd (snd x)) (snd (snd x'))).
  assert (HM : Forall2 P (map (add_pseudocounts p) m)
                         (map (add_pseudocounts p) m')).
  { eapply Forall2_map; [|exact H]. intros r r' Hr. unfold P.
    cbn [add_pseudocounts fst snd].
    destruct Hr as (Es & Ew & Em & H1 & H2 & H3 & H4). repeat split; auto.
    - apply fadd_feq; [exact H1|]. apply fmul_feq; [apply feq_refl|].
      apply fmaximum_feq; [apply feq_refl|]. now apply fdiv_feq.
    - apply fadd_feq; [exact H3|]. apply fmul_feq; [apply feq_refl|].
      apply fmaximum_feq; [apply feq_refl|]. now apply fdiv_feq. }
  unfold merge_wildtype.
  eapply Forall2_map with
    (R := fun y y' : PRow * (float * float) =>
            P (fst y) (fst y') /\ feq (fst (snd y)) (fst (snd y'))
            /\ feq (snd (snd y)) (snd (snd y'))).
  - intros y y' ((Hr & A1 & A2) & B1 & B2).
    cbn [fst snd]. unfold enrichment. cbv zeta.
    rewrite (not_masked_feq mincount _ _ Hr).
    destruct Hr as (Es & Ew & Em & _). f_equal; [exact Es|exact Ew|exact Em|].
    apply xlog2_feq. destruct (not_masked mincount (fst (fst y'))); [|exact I].
    apply fdiv_feq; now apply fdiv_feq.
  - eapply Forall2_flat_map; [|exact HM].
    intros x x' Hx. eapply Forall2_map with (R := P).
    + intros w w' (_ & W1 & W2). cbn [fst snd]. auto.
    + apply Forall2_filter.
      * intros w w' ((Es & _) & _). destruct Hx as ((Ex & _) & _).
        now rewrite Es, Ex.
      * apply Forall2_filter; [|exact HM].
        intros w w' ((_ & Ew & Em & _) & _). unfold is_wildtype.
        now rewrite Ew, Em.
Qed.

(** ** The correction with a control that shows no error *)

Lemma Forall2_flat_map_same {A B C} (S : B -> C -> Prop)
    (f : A -> list B) (g : A -> list C) (l : list A) :
  (forall x, In x l -> Forall2 S (f x) (g x)) ->
  Forall2 S (flat_map f l) (flat_map g l).
Proof.
  induction l as [|x l IH]; simpl; intros H; [constructor|].
  apply Forall2_app; [apply H; now left|]. apply IH. intros y Hy. apply H.
  now right.
Qed.

(** The correction of a count [n >= 0] of a site with [N > 0] reads, when
    [epsilon] is 1 at the wildtype and 0 elsewhere, gives [n] back. *)
Lemma corrected_exact (wt : bool) (n N e : Q) :
  (0 <= n)%Q -> (0 < N)%Q -> (e == if wt then 1 else 0)%Q ->
  feq (corrected wt (Fin n) (Fin N) (Fin e)) (Fin n).
Proof.
  intros Hn HN He. rewrite corrected_is_spec. unfold corrected_count_spec.
  destruct wt; simpl.
  - rewrite (Qeq_bool_feq e 1 0 0) by (assumption || reflexivity). simpl.
    rewrite He. field.
  - rewrite (Qeq_bool_false_pos N HN). simpl.
    assert (E : (N * (n / N + - e) == n)%Q) by (rewrite He; field; lra).
    destruct (Qle_bool 0 (N * (n / N + - e))) eqn:C; [exact E|].
    apply Qle_bool_false in C. lra.
Qed.

Section ErrorFree.
Variable chars : list string.
Variables sel mock err : CountTable.
Hypothesis sel_ok : table_ok chars sel.
Hypothesis mock_ok : table_ok chars mock.
Hypothesis err_ok : table_ok chars err.
Hypothesis sel_mock_aligned : aligned sel mock = true.
Hypothesis err_sel_aligned : aligned err sel = true.
Hypothesis sel_positive : positive_totals sel = true.
Hypothesis mock_positive : positive_totals mock = true.
Hypothesis err_free : error_free err = true.

(** [epsilon] at a site and a character. *)
Lemma epsilon_error_free (t : CountRow * CountRow * CountRow) (c : string) :
  In t (site_triples sel mock err) -> In c (sorted_vars sel) ->
  exists e, triple_epsilon err t c = Fin e
    /\ (e == if (c =? cr_wildtype (fst (fst t)))%string then 1 else 0)%Q.
Proof.
  intros Ht Hc. unfold site_triples in Ht.
  apply in_combine3 in Ht as [_ H2].
  destruct (in_combine_sorted _ _ _ H2) as [_ He]. cbn [fst snd] in He.
  destruct (aligned_combine _ _ _ (aligned_sym _ _ err_sel_aligned) H2)
    as (_ & _ & Ew). cbn [fst snd] in Ew.
  unfold error_free in err_free. rewrite forallb_forall in err_free.
  specialize (err_free _ He). apply andb_true_iff in err_free as [Tpos Hall].
  apply Z.ltb_lt in Tpos. rewrite forallb_forall in Hall.
  rewrite (sorted_vars_eq chars sel err sel_ok err_ok) in Hc.
  apply In_sort_values in Hc. specialize (Hall c Hc).
  apply Z.eqb_eq in Hall. unfold triple_epsilon. rewrite Hall, <- Ew.
  assert (Hq : (0 < inject_Z (site_total err (snd t)))%Q).
  { change 0%Q with (inject_Z 0). now rewrite <- Zlt_Qlt. }
  unfold of_int. simpl. rewrite (Qeq_bool_false_pos _ Hq).
  eexists. split; [reflexivity|].
  destruct (c =? cr_wildtype (fst (fst t)))%string;
    [|change (inject_Z 0) with 0%Q]; field; lra.
Qed.

(** The counts that the correction gives for one sample. *)
Lemma corrected_count_exact (count : Z) (total : Z)
    (t : CountRow * CountRow * CountRow) (c : string) :
  In t (site_triples sel mock err) -> In c (sorted_vars sel) ->
  0 <= count -> 0 < total ->
  feq (corrected (c =? cr_wildtype (fst (fst t)))%string
                 (of_int count) (of_int total) (triple_epsilon err t c))
      (of_int count).
Proof.
  intros Ht Hc Hcount Htot.
  destruct (epsilon_error_free t c Ht Hc) as (e & -> & He).
  apply corrected_exact; [| |exact He]; change 0%Q with (inject_Z 0).
  - now rewrite <- Zle_Qle.
  - now rewrite <- Zlt_Qlt.
Qed.

Lemma corrected_counts (count : string -> Z) (total : Z)
    (t : CountRow * CountRow * CountRow) :
  In t (site_triples sel mock err) ->
  (forall c, In c (sorted_vars sel) -> 0 <= count c) -> 0 < total ->
  Forall2 feq
    (map (fun c => corrected (c =? cr_wildtype (fst (fst t)))%string
                     (of_int (count c)) (of_int total) (triple_epsilon err t c))
         (sorted_vars sel))
    (map (fun c => of_int (count c)) (sorted_vars sel)).
Proof.
  intros Ht Hcount Htot. apply Forall2_map_same. intros c Hc.
  apply corrected_count_exact; auto.
Qed.

Lemma sum_of_counts (df : CountTable) (r : CountRow) :
  table_ok chars df ->
  feq (series_sum (map (fun c => of_int (cr_count r c)) (sorted_vars sel)))
      (of_int (site_total df r)).
Proof.
  intros Hdf.
  destruct (series_sum_of_int (cr_count r) (sorted_vars sel)) as (q & -> & Hq).
  simpl. rewrite Hq. unfold site_total.
  rewrite (sorted_vars_eq chars sel df sel_ok Hdf).
  now rewrite (Zsum_perm _ _ (Permutation_map _ (sorted_vars_perm df))).
Qed.

Lemma corrected_row_error_free (t : CountRow * CountRow * CountRow)
    (c : string) :
  In t (site_triples sel mock err) -> In c (sorted_vars sel) ->
  row_feq (corrected_row (sorted_vars sel) mock_sample
             (corrected_row (sorted_vars sel) sel_sample
                (triple_cell sel mock) (triple_epsilon err))
             (triple_epsilon err) t c)
          (joined_cell sel mock (fst t) c).
Proof.
  intros Ht Hc.
  assert (Ht' := Ht). unfold site_triples in Ht'.
  apply in_combine3 in Ht' as [H1 _].
  destruct (in_combine_sorted _ _ _ H1) as [Hrs Hrm].
  assert (Ts : 0 < site_total sel (fst (fst t))).
  { unfold positive_totals in sel_positive.
    rewrite forallb_forall in sel_positive. now apply Z.ltb_lt, sel_positive. }
  assert (Tm : 0 < site_total mock (snd (fst t))).
  { unfold positive_totals in mock_positive.
    rewrite forallb_forall in mock_positive. now apply Z.ltb_lt, mock_positive. }
  assert (Cs : forall c', In c' (sorted_vars sel) ->
                          0 <= cr_count (fst (fst t)) c').
  { intros c' Hc'. apply (ok_counts _ _ sel_ok); [exact Hrs|].
    now apply In_sort_values in Hc'. }
  assert (Cm : forall c', In c' (sorted_vars sel) ->
                          0 <= cr_count (snd (fst t)) c').
  { intros c' Hc'. apply (ok_counts _ _ mock_ok); [exact Hrm|].
    rewrite (sorted_vars_eq chars sel mock sel_ok mock_ok) in Hc'.
    now apply In_sort_values in Hc'. }
  pose proof (corrected_counts (cr_count (fst (fst t)))
                (site_total sel (fst (fst t))) t Ht Cs Ts) as Fs.
  pose proof (corrected_counts (cr_count (snd (fst t)))
                (site_total mock (snd (fst t))) t Ht Cm Tm) as Fm.
  pose proof (corrected_count_exact (cr_count (fst (fst t)) c)
                (site_total sel (fst (fst t))) t c Ht Hc (Cs c Hc) Ts) as Es1.
  pose proof (corrected_count_exact (cr_count (snd (fst t)) c)
                (site_total mock (snd (fst t))) t c Ht Hc (Cm c Hc) Tm) as Em1.
  unfold row_feq, corrected_row, corrected_cell, triple_cell, joined_cell,
    is_wildtype.
  cbn [set_ncol set_Ncol ncol Ncol site wildtype mutation nsel Nsel nmock Nmock].
  repeat split.
  - exact Es1.
  - eapply feq_trans; [apply series_sum_feq, Fs|].
    apply sum_of_counts, sel_ok.
  - exact Em1.
  - eapply feq_trans; [apply series_sum_feq, Fm|].
    apply sum_of_counts, mock_ok.
Qed.

Lemma corrected_table_error_free :
  Forall2 row_feq (corrected_table sel mock err) (joined_table sel mock).
Proof.
  unfold corrected_table, blocks, joined_table.
  rewrite map_flat_map.
  rewrite <- (map_fst_combine (combine (sorted_rows sel) (sorted_rows mock))
                (sorted_rows err)).
  2:{ rewrite length_combine, <- (aligned_length sel mock sel_mock_aligned).
      rewrite Nat.min_id. symmetry. now apply aligned_length. }
  fold (site_triples sel mock err). rewrite flat_map_map.
  apply Forall2_flat_map_same. intros t Ht. rewrite !map_map. cbn [fst].
  apply Forall2_map_same. intros c Hc. now apply corrected_row_error_free.
Qed.

End ErrorFree.

Section ErrorFreeControl.
Variable CODONS : list string.
Variable CODON_TO_AA : list (string * string).

(** X12.  An error control all of whose reads are the wildtype changes
    nothing: the result is the one of the call without error control. *)
Theorem error_free_control_changes_nothing (sel mock err : CountTable)
    (chars : list string) (p : Q) (mincount : Q) :
  valid_table chars sel = true -> valid_table chars mock = true ->
  valid_table chars err = true ->
  aligned sel mock = true -> aligned err sel = true ->
  positive_totals sel = true -> positive_totals mock = true ->
  error_free err = true -> (0 < p)%Q ->
  computeMutDiffSel CODONS CODON_TO_AA sel mock chars p false (Some err) mincount
  = computeMutDiffSel CODONS CODON_TO_AA sel mock chars p false None mincount.
Proof.
  intros Hs Hm He Ha Hae Ps Pm Hf Hp.
  rewrite (computeMutDiffSel_prepared CODONS CODON_TO_AA sel mock chars p false
             mincount Hs Hm Ha Hp) by discriminate.
  apply valid_table_ok in Hs, Hm, He. apply Qltb_true in Hp.
  rewrite (computeMutDiffSel_returns CODONS CODON_TO_AA sel mock chars p false
             (Some err) mincount _ (corrected_table sel mock err)
             (check_tables_err_ok sel mock err chars p Hp Hs Hm He Ha Hae)).
  - f_equal. apply result_of_same_numbers.
    now apply (corrected_table_error_free chars).
  - now apply (prepare_err_ok CODONS CODON_TO_AA chars).
Qed.

End ErrorFreeControl.

(** * Labels, and the rows of the wildtype *)

Section Labels.
Variable CODONS : list string.
Variable CODON_TO_AA : list (string * string).

(** X2.  Two tables whose rows, sorted by site, do not carry the same
    index labels are refused, whatever their sites: pandas does not
    compare two series with different labels, and the call raises its
    [ValueError]. *)
Theorem different_labels_raise (sel mock : CountTable) (chars : list string)
    (p : Q) (tr : bool) (err : option CountTable) (mincount : Q) :
  (0 < p)%Q ->
  set_eqb (columns sel) ("site" :: "wildtype" :: chars) = true ->
  set_eqb (columns mock) ("site" :: "wildtype" :: chars) = true ->
  map cr_label (sorted_rows sel) <> map cr_label (sorted_rows mock) ->
  computeMutDiffSel CODONS CODON_TO_AA sel mock chars p tr err mincount
  = Raise (ValueError "Can only compare identically-labeled Series objects").
Proof.
  intros Hp Hs Hm Hl. apply computeMutDiffSel_raises. unfold check_tables.
  apply Qltb_true in Hp. rewrite Hp, Hs, Hm. cbn [assert bind].
  unfold series_eq at 1. rewrite !site_column_fst.
  destruct (list_eqb Z.eqb _ _) eqn:E; [|reflexivity].
  exfalso. apply Hl. apply (list_eqb_eq Z.eqb) in E; [exact E|].
  intros x y. apply Z.eqb_eq.
Qed.

(** X8.  The row of the wildtype of a site never has a value: whenever
    [computeMutDiffSel] returns, with or without error control or
    translation, every row whose mutation is its wildtype has NaN. *)
Theorem wildtype_rows_are_undefined (sel mock : CountTable)
    (chars : list string) (p : Q) (tr : bool) (err : option CountTable)
    (mincount : Q) (out : list OutRow) (o : OutRow) :
  computeMutDiffSel CODONS CODON_TO_AA sel mock chars p tr err mincount
  = Ok out ->
  In o out -> o_mutation o = o_wildtype o -> mutdiffsel o = RNaN.
Proof.
  unfold computeMutDiffSel.
  destruct (check_tables sel mock chars p err) as [c|e]; [|discriminate].
  cbn [bind]. destruct (prepare _ _ _ _ _ _ _) as [m|e]; [|discriminate].
  cbn [bind]. intros H. inversion H; subst out. clear H.
  intros Ho Hw. apply In_log2_rows in Ho as (r & w & _ & _ & _ & _ & ->).
  cbn [o_mutation o_wildtype mutdiffsel] in *.
  rewrite row_enrichment_masked; [reflexivity|].
  unfold not_masked, is_wildtype. now rewrite Hw, String.eqb_refl.
Qed.

End Labels.

(** * More example tables *)

(** * The other properties on the example tables *)

Lemma unexpected_columns_example :
  computeMutDiffSel [] [] sel_without_G mock_one_site nucleotides 1 false
                    None 0
  = Raise (AssertionError "Invalid columns for sel").
Proof.
  apply (unexpected_columns_raise [] [] sel_without_G mock_one_site
           nucleotides 1 false None 0); [reflexivity|].
  left. exists "G". intros [_ H].
  assert (Hin : In "G" (columns sel_without_G)) by (apply H; simpl; tauto).
  simpl in Hin. intuition discriminate.
Defined.

Lemma misaligned_control_example :
  computeMutDiffSel [] [] sel_one_site mock_one_site nucleotides 1 false
                    (Some err_other_wildtype) 0
  = Raise (AssertionError "Inconsistent sites").
Proof.
  apply (proj2 (misaligned_control_raises [] [] sel_one_site mock_one_site
                  err_other_wildtype nucleotides 1 false 0
                  eq_refl eq_refl eq_refl eq_refl));
    try reflexivity.
  right. vm_compute. discriminate.
Defined.

Lemma translation_needs_codons_example :
  computeMutDiffSel three_codons three_codons_to_aa sel_one_site
                    mock_one_site nucleotides 1 true None 0
  = Raise (AssertionError "translate_to_aa specified, but not using codons").
Proof.
  apply (translation_needs_codons three_codons three_codons_to_aa
           sel_one_site mock_one_site nucleotides 1 None 0);
    try reflexivity.
  - discriminate.
  - exists "A". intros [H _].
    assert (Hin : In "A" three_codons) by (apply H; simpl; tauto).
    simpl in Hin. intuition discriminate.
Defined.

Lemma larger_mincount_example :
  exists out out',
    computeMutDiffSel [] [] sel_two_sites mock_two_sites nucleotides 1 false
                      None 0 = Ok out
    /\ computeMutDiffSel [] [] sel_two_sites mock_two_sites nucleotides 1 false
                         None 3 = Ok out'
    /\ Forall2 (fun o o' =>
          o_site o' = o_site o /\ o_wildtype o' = o_wildtype o
          /\ o_mutation o' = o_mutation o
          /\ (mutdiffsel o' = mutdiffsel o \/ mutdiffsel o' = RNaN))
        out out'.
Proof.
  assert (H0 := computeMutDiffSel_prepared [] [] sel_two_sites mock_two_sites
                  nucleotides 1 false 0 eq_refl eq_refl eq_refl eq_refl
                  (fun E => False_ind _ (Bool.diff_false_true E))).
  destruct (larger_mincount_only_masks [] [] sel_two_sites mock_two_sites
              nucleotides 1 false None 0 3 _ ltac:(discriminate) H0)
    as (out' & H1 & H2).
  eauto.
Defined.

Lemma row_order_example :
  computeMutDiffSel [] [] (reversed sel_two_sites) (reversed mock_two_sites)
                    nucleotides 1 false None 0
  = computeMutDiffSel [] [] sel_two_sites mock_two_sites nucleotides 1 false
                      None 0.
Proof.
  apply (row_order_is_irrelevant [] [] sel_two_sites (reversed sel_two_sites)
           mock_two_sites (reversed mock_two_sites));
    try reflexivity; try apply Permutation_rev.
  - apply (ok_sites_unique nucleotides), valid_table_ok. reflexivity.
  - apply (ok_sites_unique nucleotides), valid_table_ok. reflexivity.
Defined.

Lemma mutdiffsel_value_example :
  exists out,
    computeMutDiffSel three_codons three_codons_to_aa sel_codons mock_codons
                      three_codons 1 true None 0 = Ok out.
Proof.
  destruct (mutdiffsel_value three_codons three_codons_to_aa sel_codons
              mock_codons three_codons 1 true 0) as (out & H & _);
    try reflexivity.
  now exists out.
Defined.

Lemma same_sample_example :
  exists out,
    computeMutDiffSel [] [] sel_two_sites sel_two_sites nucleotides 1 false
                      None 0 = Ok out
    /\ forall o, In o out -> mutdiffsel o = RNaN \/ mutdiffsel o = RFin 0.
Proof.
  apply (same_sample_gives_zero [] [] sel_two_sites nucleotides 1 false 0);
    try reflexivity. discriminate.
Defined.

Lemma result_rows_example :
  exists out,
    computeMutDiffSel [] [] sel_two_sites mock_two_sites nucleotides 1 false
                      None 0 = Ok out
    /\ map out_key out
       = [ (1, "A", "A"); (1, "A", "C"); (1, "A", "G");
           (2, "C", "A"); (2, "C", "C"); (2, "C", "G") ].
Proof.
  apply (result_rows [] [] sel_two_sites mock_two_sites nucleotides 1 0);
    reflexivity.
Defined.

Lemma site_table_row_order_example :
  mutToSiteDiffSel (rev doctest_table) = mutToSiteDiffSel doctest_table.
Proof.
  apply (site_table_ignores_row_order doctest_table (rev doctest_table)).
  apply Permutation_rev.
Defined.

Lemma site_table_sites_example :
  exists out,
    mutToSiteDiffSel doctest_table = Ok out
    /\ StronglySorted Z.lt (map s_site out)
    /\ forall s, In s (map s_site out) <-> In s (map d_site doctest_table).
Proof.
  eexists. split; [vm_compute; reflexivity|].
  apply (site_table_sites doctest_table). vm_compute. reflexivity.
Defined.

Lemma max_and_min_example :
  exists out,
    mutToSiteDiffSel doctest_table = Ok out
    /\ Forall (fun row =>
          In (max_diffsel row) (site_values doctest_table (s_site row))
          /\ In (min_diffsel row) (site_values doctest_table (s_site row)))
        out.
Proof.
  eexists. split; [vm_compute; reflexivity|].
  apply Forall_forall. intros row Hrow.
  destruct (max_and_min_of_site doctest_table _ row
              ltac:(vm_compute; reflexivity) Hrow) as (H1 & H2 & _).
  split; assumption.
Defined.

Lemma undefined_value_example :
  exists out,
    mutToSiteDiffSel doctest_table = Ok out
    /\ forall row, In row out -> s_site row = 1 ->
         fge (max_diffsel row) (Fin 0) = true
         /\ fle (min_diffsel row) (Fin 0) = true.
Proof.
  eexists. split; [vm_compute; reflexivity|].
  intros row Hrow Es.
  apply (undefined_value_bounds_extremes doctest_table _ row
           (mkDiffSelRow 1 "A" "A" NaN) ltac:(vm_compute; reflexivity) Hrow).
  - left. reflexivity.
  - now rewrite Es.
  - reflexivity.
Defined.

Lemma undefined_site_example :
  exists out,
    mutToSiteDiffSel table_undefined_site = Ok out
    /\ forall row, In row out -> s_site row = 1 ->
         row = mkSiteRow 1 (Fin 0) (Fin 0) (Fin 0) (Fin 0) (Fin 0).
Proof.
  eexists. split; [vm_compute; reflexivity|].
  intros row Hrow Es.
  pose proof (undefined_site_gives_zeros table_undefined_site _ row
                ltac:(vm_compute; reflexivity) Hrow) as E.
  rewrite Es in E. apply E.
  intros r Hr Er. simpl in Hr.
  destruct Hr as [<-|[<-|[<-|[<-|[]]]]]; try reflexivity; discriminate.
Defined.

Lemma signs_example :
  exists out,
    mutToSiteDiffSel doctest_table = Ok out
    /\ Forall (fun row =>
          fge (abs_diffsel row) (Fin 0) = true
          /\ fge (positive_diffsel row) (Fin 0) = true
          /\ fle (negative_diffsel row) (Fin 0) = true)
        out.
Proof.
  eexists. split; [vm_compute; reflexivity|].
  apply Forall_forall. intros row Hrow.
  eapply (signs_of_the_sums doctest_table);
    [vm_compute; reflexivity|exact Hrow].
Defined.

Lemma unique_entries_example :
  exists out,
    computeMutDiffSel three_codons three_codons_to_aa sel_codons mock_codons
                      three_codons 1 true None 0 = Ok out
    /\ NoDup (map (fun o => (o_site o, o_mutation o)) out).
Proof.
  apply (result_has_unique_entries three_codons three_codons_to_aa sel_codons
           mock_codons three_codons 1 true 0);
    reflexivity.
Defined.

Lemma error_free_control_example :
  computeMutDiffSel [] [] sel_two_sites mock_two_sites nucleotides 1 false
                    (Some err_all_wildtype) 0
  = computeMutDiffSel [] [] sel_two_sites mock_two_sites nucleotides 1 false
                      None 0.
Proof.
  apply (error_free_control_changes_nothing [] [] sel_two_sites mock_two_sites
           err_all_wildtype nucleotides 1 0);
    reflexivity.
Defined.

Lemma different_labels_example :
  computeMutDiffSel [] [] sel_two_sites mock_relabelled nucleotides 1 false
                    None 0
  = Raise (ValueError "Can only compare identically-labeled Series objects").
Proof.
  apply (different_labels_raise [] [] sel_two_sites mock_relabelled
           nucleotides 1 false None 0);
    try reflexivity.
  vm_compute. discriminate.
Defined.

Lemma wildtype_rows_example :
  exists out,
    computeMutDiffSel [] [] sel_one_site mock_one_site nucleotides 1 false
                      None 0 = Ok out
    /\ forall o, In o out -> o_mutation o = o_wildtype o ->
                 mutdiffsel o = RNaN.
Proof.
  eexists. split; [apply one_site_call; vm_compute; reflexivity|].
  intros o Ho.
  apply (wildtype_rows_are_undefined [] [] sel_one_site mock_one_site
           nucleotides 1 false None 0 _ o
           ltac:(apply one_site_call; vm_compute; reflexivity) Ho).
Defined.

(** * The table of the opposite values *)

Lemma existsb_negated (r : DiffSelRow) (df : list DiffSelRow) :
  existsb (same_entry (negated_row r)) (negated df)
  = existsb (same_entry r) df.
Proof.
  induction df as [|x df IH]; [reflexivity|]. simpl. now rewrite IH.
Qed.

Lemma has_duplicates_negated (df : list DiffSelRow) :
  has_duplicates (negated df) = has_duplicates df.
Proof.
  induction df as [|r df IH]; [reflexivity|].
  simpl. fold (negated df). now rewrite IH, existsb_negated.
Qed.

Lemma find_negated (f : DiffSelRow -> bool) (df : list DiffSelRow) :
  (forall r, f (negated_row r) = f r) ->
  find f (negated df) = option_map negated_row (find f df).
Proof.
  intros H. induction df as [|r df IH]; [reflexivity|].
  simpl. rewrite H. destruct (f r); [reflexivity|exact IH].
Qed.

Lemma cell_negated (df : list DiffSelRow) (s : Z) (c : string) :
  cell (negated df) s c = fopp (cell df s c).
Proof.
  unfold cell. rewrite find_negated by reflexivity.
  destruct (find _ df); reflexivity.
Qed.

Lemma fillna_fopp (v : float) :
  fillna (Fin 0) (fopp v) = fopp (fillna (Fin 0) v).
Proof. destruct v; reflexivity. Qed.

Lemma site_values_negated (df : list DiffSelRow) (s : Z) :
  site_values (negated df) s = map fopp (site_values df s).
Proof.
  unfold site_values, negated. rewrite !map_map. cbn [negated_row d_mutation].
  apply map_ext. intros c. fold (negated df).
  now rewrite cell_negated, fillna_fopp.
Qed.

(** ** Sums, maximum and minimum of opposite values *)

Lemma fadd_fopp (x y : float) :
  feq (fadd (fopp x) (fopp y)) (fopp (fadd x y)).
Proof. destruct x, y; simpl; auto. ring. Qed.

Lemma series_sum_fopp (l : list float) :
  feq (series_sum (map fopp l)) (fopp (series_sum l)).
Proof.
  induction l as [|v l IH]; cbn [map].
  - simpl. reflexivity.
  - rewrite !series_sum_cons.
    assert (E : isnan (fopp v) = isnan v) by now destruct v.
    rewrite E. destruct (isnan v); [exact IH|].
    eapply feq_trans; [apply fadd_feq; [apply feq_refl|exact IH]|].
    apply fadd_fopp.
Qed.

Lemma fabs_fopp (v : float) : feq (fabs (fopp v)) (fabs v).
Proof. destruct v; simpl; auto. apply Qabs_opp. Qed.

Lemma fge_fopp (v : float) : fge (fopp v) (Fin 0) = fle v (Fin 0).
Proof.
  destruct v; simpl; try reflexivity.
  apply eq_true_iff_eq. rewrite !Qle_bool_true. split; intros H; lra.
Qed.

Lemma fle_fopp (v : float) : fle (fopp v) (Fin 0) = fge v (Fin 0).
Proof.
  destruct v; simpl; try reflexivity.
  apply eq_true_iff_eq. rewrite !Qle_bool_true. split; intros H; lra.
Qed.

Lemma fmaximum_fopp (x y : float) :
  feq (fmaximum (fopp x) (fopp y)) (fopp (fminimum x y)).
Proof.
  destruct x as [a| | |], y as [b| | |]; simpl; auto; try reflexivity.
  destruct (Qle_bool (- a) (- b)) eqn:E1, (Qle_bool a b) eqn:E2;
    try reflexivity;
    [apply Qle_bool_true in E1, E2|apply Qle_bool_false in E1, E2]; lra.
Qed.

Lemma fminimum_fopp (x y : float) :
  feq (fminimum (fopp x) (fopp y)) (fopp (fmaximum x y)).
Proof.
  destruct x as [a| | |], y as [b| | |]; simpl; auto; try reflexivity.
  destruct (Qle_bool (- a) (- b)) eqn:E1, (Qle_bool a b) eqn:E2;
    try reflexivity;
    [apply Qle_bool_true in E1, E2|apply Qle_bool_false in E1, E2]; lra.
Qed.

Lemma fminimum_feq (x x' y y' : float) :
  feq x x' -> feq y y' -> feq (fminimum x y) (fminimum x' y').
Proof.
  destruct x as [a| | |], x' as [a'| | |], y as [b| | |], y' as [b'| | |];
    simpl; try tauto; intros H1 H2.
  rewrite (Qle_bool_feq a a' b b' H1 H2). now destruct (Qle_bool a' b').
Qed.

Lemma fold_maximum_fopp (l : list float) (a a' : float) :
  feq a' (fopp a) ->
  feq (fold_left fmaximum (map fopp l) a') (fopp (fold_left fminimum l a)).
Proof.
  revert a a'. induction l as [|v l IH]; intros a a' H; [exact H|].
  simpl. apply IH.
  eapply feq_trans; [apply fmaximum_feq; [exact H|apply feq_refl]|].
  apply fmaximum_fopp.
Qed.

Lemma fold_minimum_fopp (l : list float) (a a' : float) :
  feq a' (fopp a) ->
  feq (fold_left fminimum (map fopp l) a') (fopp (fold_left fmaximum l a)).
Proof.
  revert a a'. induction l as [|v l IH]; intros a a' H; [exact H|].
  simpl. apply IH.
  eapply feq_trans; [apply fminimum_feq; [exact H|apply feq_refl]|].
  apply fminimum_fopp.
Qed.

Lemma series_max_fopp (x : list float) :
  Forall (fun v => isnan v = false) x ->
  feq (series_max (map fopp x)) (fopp (series_min x)).
Proof.
  intros Hx. unfold series_max, series_min.
  rewrite (filter_not_nan x Hx), filter_not_nan.
  - destruct x as [|v x]; [exact I|]. cbn [map].
    apply fold_maximum_fopp, feq_refl.
  - apply Forall_forall. intros v Hv. apply in_map_iff in Hv as (y & <- & Hy).
    rewrite Forall_forall in Hx. specialize (Hx y Hy). now destruct y.
Qed.

Lemma series_min_fopp (x : list float) :
  Forall (fun v => isnan v = false) x ->
  feq (series_min (map fopp x)) (fopp (series_max x)).
Proof.
  intros Hx. unfold series_max, series_min.
  rewrite (filter_not_nan x Hx), filter_not_nan.
  - destruct x as [|v x]; [exact I|]. cbn [map].
    apply fold_minimum_fopp, feq_refl.
  - apply Forall_forall. intros v Hv. apply in_map_iff in Hv as (y & <- & Hy).
    rewrite Forall_forall in Hx. specialize (Hx y Hy). now destruct y.
Qed.

Lemma masked_fopp (c c' : float -> bool) (x : list float) :
  (forall v, c (fopp v) = c' v) ->
  map (masked c) (map fopp x) = map fopp (map (masked c') x).
Proof.
  intros H. rewrite !map_map. apply map_ext. intros v. unfold masked.
  rewrite H. now destruct (c' v).
Qed.

(** X19.  Negating every value of the table, as swapping [sel] and [mock]
    does, mirrors the site table: [abs_diffsel] stays, [positive_diffsel]
    and [negative_diffsel] are exchanged and negated, and so are
    [max_diffsel] and [min_diffsel]. *)
Theorem negated_table_is_mirrored (df : list DiffSelRow) (out : list SiteRow) :
  mutToSiteDiffSel df = Ok out ->
  exists out',
    mutToSiteDiffSel (negated df) = Ok out' /\ Forall2 mirrored out out'.
Proof.
  unfold mutToSiteDiffSel, pivot. rewrite has_duplicates_negated.
  destruct (has_duplicates df); [discriminate|].
  cbn [bind]. intros H. inversion H; subst out. clear H.
  eexists. split; [reflexivity|].
  assert (Es : map d_site (negated df) = map d_site df)
    by (unfold negated; now rewrite map_map).
  assert (Em : map d_mutation (negated df) = map d_mutation df)
    by (unfold negated; now rewrite map_map).
  rewrite Es, Em, !map_map. apply Forall2_map_same. intros s _.
  cbn [fst snd].
  fold (site_values df s).
  rewrite <- Em at 1 2 3 4 5. fold (site_values (negated df) s).
  rewrite site_values_negated.
  pose proof (site_values_not_nan df s) as Hx.
  unfold mirrored.
  cbn [s_site abs_diffsel positive_diffsel negative_diffsel max_diffsel
       min_diffsel].
  repeat split.
  - apply series_sum_feq. rewrite !map_map. apply Forall2_map_same.
    intros v _. apply fabs_fopp.
  - rewrite (masked_fopp _ (fun v => fle v (Fin 0)) _ fge_fopp).
    apply series_sum_fopp.
  - rewrite (masked_fopp _ (fun v => fge v (Fin 0)) _ fle_fopp).
    apply series_sum_fopp.
  - now apply series_max_fopp.
  - now apply series_min_fopp.
Qed.

Lemma negated_table_example :
  exists out out',
    mutToSiteDiffSel doctest_table = Ok out
    /\ mutToSiteDiffSel (negated doctest_table) = Ok out'
    /\ Forall2 mirrored out out'.
Proof.
  destruct (negated_table_is_mirrored doctest_table _
              ltac:(vm_compute; reflexivity)) as (out' & H & F).
  eexists. exists out'. split; [vm_compute; reflexivity|]. split; assumption.
Defined.
